(** * canvas-api: lazy sequences, query strings, link headers, pagination
      and the rate-limited dispatcher

    A shallow embedding of the TypeScript sources
    - [src/extendedGenerator.ts]  (module [ExtendedGenerator]),
    - [src/canvasApi.ts]          (modules [QueryString], [LinkHeader],
                                   [CanvasApi]),
    - [src/canvasApiResponse.ts]  (module [CanvasApiResponse]),
    - [src/canvasApiError.ts]     (module [CanvasApiError]),
    - [src/rateLimiter.ts]        (module [RateLimiter]),
    followed by the properties proved about them. *)

From Stdlib Require Import List ZArith Lia Bool String Ascii Arith DecimalString.
From Stdlib Require Import Permutation.
Import ListNotations.
Open Scope string_scope.
Open Scope list_scope.

(* ================================================================== *)
(** * Part I. The embedding                                            *)
(* ================================================================== *)

(** ** Promises

    A JavaScript promise observed after a bounded amount of work is either
    fulfilled, rejected, or still pending (the bound was too small). *)

Inductive Outcome (E A : Type) : Type :=
| Fulfilled (a : A)
| Rejected (e : E)
| Pending.
Arguments Fulfilled {E A} a.
Arguments Rejected {E A} e.
Arguments Pending {E A}.

(** ** extendedGenerator.ts *)

Module ExtendedGenerator.

(** What one resumption of a generator body does.  [BTau] is a resumption
    that went round a loop of the body without reaching a [yield]; the
    other three are [yield v], [return] and [throw e].  Each carries the
    local variables of the body after the step. *)
Inductive BodyStep (E T L : Type) : Type :=
| BTau (s : L)
| BYield (v : T) (s : L)
| BReturn (s : L)
| BThrow (e : E) (s : L).
Arguments BTau {E T L} s.
Arguments BYield {E T L} v s.
Arguments BReturn {E T L} s.
Arguments BThrow {E T L} e s.

Inductive GenStatus : Type := Suspended | Completed.

(** An [AsyncGenerator] object: the code of its body, whether it has
    completed, the local variables of the body, and how many steps of the
    body have run ([0]: the body was never entered; an observation, not
    used by the code). *)
Record Generator (E T L : Type) : Type := mkGenerator {
  body : L -> BodyStep E T L;
  status : GenStatus;
  frame : L;
  resumptions : nat
}.
Arguments mkGenerator {E T L} body status frame resumptions.
Arguments body {E T L} g s.
Arguments status {E T L} g.
Arguments frame {E T L} g.
Arguments resumptions {E T L} g.

(** Calling an async generator function creates the object; the body does
    not run. *)
Definition spawn {E T L} (b : L -> BodyStep E T L) (locals : L) : Generator E T L :=
  mkGenerator b Suspended locals 0.

Inductive Pull (E T G : Type) : Type :=
| PTau (g : G)
| PValue (v : T) (g : G)
| PDone (g : G)
| PThrow (e : E) (g : G).
Arguments PTau {E T G} g.
Arguments PValue {E T G} v g.
Arguments PDone {E T G} g.
Arguments PThrow {E T G} e g.

(** One resumption of a generator object.  A completed generator answers
    [{done: true}] without running anything; a [return] or a [throw]
    completes it. *)
Definition pull {E T L} (g : Generator E T L) : Pull E T (Generator E T L) :=
  match status g with
  | Completed => PDone g
  | Suspended =>
      let n := S (resumptions g) in
      match body g (frame g) with
      | BTau s => PTau (mkGenerator (body g) Suspended s n)
      | BYield v s => PValue v (mkGenerator (body g) Suspended s n)
      | BReturn s => PDone (mkGenerator (body g) Completed s n)
      | BThrow e s => PThrow e (mkGenerator (body g) Completed s n)
      end
  end.

(** [generator.return()] on a generator that is not running: it
    completes without resuming the body (no body here has a [finally]). *)
Definition gen_return {E T L} (g : Generator E T L) : Generator E T L :=
  mkGenerator (body g) Completed (frame g) (resumptions g).

(** The generator after one resumption, whatever the resumption gave. *)
Definition resumed {E T L} (g : Generator E T L) : Generator E T L :=
  match pull g with
  | PTau g' | PValue _ g' | PDone g' | PThrow _ g' => g'
  end.

(** [IteratorResult<T>]: [{value, done: false}] or [{done: true}]. *)
Inductive IteratorResult (T : Type) : Type :=
| IValue (v : T)
| IDone.
Arguments IValue {T} v.
Arguments IDone {T}.

(** [generator.next()]: resume the body until it yields, returns or
    throws. *)
Fixpoint gen_next {E T L} (fuel : nat) (g : Generator E T L)
  : Outcome E (IteratorResult T) * Generator E T L :=
  match fuel with
  | O => (Pending, g)
  | S fuel' =>
      match pull g with
      | PTau g' => gen_next fuel' g'
      | PValue v g' => (Fulfilled (IValue v), g')
      | PDone g' => (Fulfilled IDone, g')
      | PThrow e g' => (Rejected e, g')
      end
  end.

(** [class ExtendedGenerator<T>] with its single private field. *)
Record t (E T L : Type) : Type := mk { generator : Generator E T L }.
Arguments mk {E T L} generator.
Arguments generator {E T L} t.

Section Methods.
Context {E T L : Type}.

(** The [for await (const v of this.generator) result.push(v)] loop of
    [toArray]; [rounds] bounds the number of iterations. *)
Fixpoint toArray_loop (fuel rounds : nat) (g : Generator E T L) (result : list T)
  : Outcome E (list T) * Generator E T L :=
  match rounds with
  | O => (Pending, g)
  | S rounds' =>
      match gen_next fuel g with
      | (Fulfilled (IValue v), g') => toArray_loop fuel rounds' g' (result ++ [v])
      | (Fulfilled IDone, g') => (Fulfilled result, g')
      | (Rejected e, g') => (Rejected e, g')
      | (Pending, g') => (Pending, g')
      end
  end.

Definition toArray (fuel : nat) (this : t E T L) : Outcome E (list T) * t E T L :=
  let (r, g) := toArray_loop fuel fuel (generator this) [] in (r, mk g).

(** [filter]: the new generator's only local is the captured [g]. *)
Definition filter_body (predicate : T -> bool) (g : Generator E T L)
  : BodyStep E T (Generator E T L) :=
  match pull g with
  | PTau g' => BTau g'
  | PValue v g' => if predicate v then BYield v g' else BTau g'
  | PDone g' => BReturn g'
  | PThrow e g' => BThrow e g'
  end.

Definition filter (predicate : T -> bool) (this : t E T L) : t E T (Generator E T L) :=
  let g := generator this in
  mk (spawn (filter_body predicate) g).

(** [take]: the locals are the counter [n] and the captured [gen].  The
    source decrements [n] when the body is resumed after the [yield];
    here the decrement is recorded at the [yield]. *)
Definition take_body (locals : Z * Generator E T L)
  : BodyStep E T (Z * Generator E T L) :=
  let (n, gen) := locals in
  if (n >? 0)%Z then
    match pull gen with
    | PTau gen' => BTau (n, gen')
    | PValue v gen' => BYield v ((n - 1)%Z, gen')
    | PDone gen' => BReturn (n, gen')
    | PThrow e gen' => BThrow e (n, gen')
    end
  else BReturn (n, gen).

Definition take (n : Z) (this : t E T L) : t E T (Z * Generator E T L) :=
  let gen := generator this in
  mk (spawn take_body (n, gen)).

Definition next (fuel : nat) (this : t E T L)
  : Outcome E (IteratorResult T) * t E T L :=
  let (r, g) := gen_next fuel (generator this) in (r, mk g).
End Methods.

(** [map] changes the element type. *)
Definition map_body {E T V L} (callback : T -> V) (gen : Generator E T L)
  : BodyStep E V (Generator E T L) :=
  match pull gen with
  | PTau gen' => BTau gen'
  | PValue v gen' => BYield (callback v) gen'
  | PDone gen' => BReturn gen'
  | PThrow e gen' => BThrow e gen'
  end.

Definition map {E T V L} (callback : T -> V) (this : t E T L) : t E V (Generator E T L) :=
  let gen := generator this in
  mk (spawn (map_body callback) gen).

(** The generators of the test-suite:
    [async function* gen() { yield x1; ...; yield xn }] and
    [async function* gen() { throw new Error() }]. *)
Definition yields_body {E T} (rest : list T) : BodyStep E T (list T) :=
  match rest with
  | [] => BReturn []
  | x :: rest' => BYield x rest'
  end.

Definition yields {E T} (xs : list T) : t E T (list T) := mk (spawn yields_body xs).

Definition throws_body {E T} (e : E) (_ : unit) : BodyStep E T unit := BThrow e tt.

Definition throws {E T} (e : E) : t E T unit := mk (spawn (throws_body e) tt).

(** *** Runs of a generator *)

(** How a run of a generator ends: it reports [done], it throws, or the
    run is cut while the generator is still suspended. *)
Inductive Ending (E : Type) : Type :=
| Ends
| Fails (e : E)
| Continues.
Arguments Ends {E}.
Arguments Fails {E} e.
Arguments Continues {E}.

(** [Yields g xs ending g']: resumed again and again, [g] yields the
    elements [xs] in this order and then ends as [ending] says, in state
    [g']. *)
Inductive Yields {E T L}
  : Generator E T L -> list T -> Ending E -> Generator E T L -> Prop :=
| Yields_cut g : Yields g [] Continues g
| Yields_done g g' : pull g = PDone g' -> Yields g [] Ends g'
| Yields_throw g e g' : pull g = PThrow e g' -> Yields g [] (Fails e) g'
| Yields_tau g g1 xs ending g' :
    pull g = PTau g1 -> Yields g1 xs ending g' -> Yields g xs ending g'
| Yields_value g v g1 xs ending g' :
    pull g = PValue v g1 -> Yields g1 xs ending g' -> Yields g (v :: xs) ending g'.

(** [Takes g xs g']: resumed until it has yielded the elements [xs], and
    no further, [g] is in state [g'] (the state it was in when [xs] is
    empty, the state right after the last [yield] otherwise). *)
Inductive Takes {E T L}
  : Generator E T L -> list T -> Generator E T L -> Prop :=
| Takes_nil g : Takes g [] g
| Takes_tau g g1 x xs g' :
    pull g = PTau g1 -> Takes g1 (x :: xs) g' -> Takes g (x :: xs) g'
| Takes_value g v g1 xs g' :
    pull g = PValue v g1 -> Takes g1 xs g' -> Takes g (v :: xs) g'.

End ExtendedGenerator.

(** ** Strings as JavaScript sees them

    A [string] here is the UTF-8 encoding of the JavaScript string. *)

Module JSString.

(** [Array.prototype.join]. *)
Definition join (sep : string) (parts : list string) : string :=
  String.concat sep parts.

(** [s.endsWith(suffix)], which is what [s.search(/suffix$/) !== -1]
    tests when [suffix] has no regular-expression operator. *)
Fixpoint endsWith (suffix s : string) : bool :=
  (String.eqb s suffix
   || match s with
      | EmptyString => false
      | String _ s' => endsWith suffix s'
      end)%bool.

(** [s.includes(needle)]. *)
Fixpoint includes (needle s : string) : bool :=
  (String.prefix needle s
   || match s with
      | EmptyString => false
      | String _ s' => includes needle s'
      end)%bool.

(** [s.split(",")] for a one-character separator: never empty. *)
Fixpoint split (sep : ascii) (s : string) : list string :=
  match s with
  | EmptyString => [EmptyString]
  | String c s' =>
      if Ascii.eqb c sep then EmptyString :: split sep s'
      else match split sep s' with
           | [] => [String c EmptyString]
           | part :: parts => String c part :: parts
           end
  end.

(** [lacks c s]: the character [c] does not occur in [s]. *)
Fixpoint lacks (c : ascii) (s : string) : bool :=
  match s with
  | EmptyString => true
  | String x s' => (negb (Ascii.eqb x c) && lacks c s')%bool
  end.

(** [s.replace(pattern, replacement)] for a string [pattern]: the first
    occurrence of [pattern] is replaced, and in [replacement] the patterns
    [$$], [$&], [$`] and [$'] stand for a dollar sign, the matched text,
    the text before the match and the text after it.  (A string pattern
    has no capture groups, so [$1] and the like stand for themselves.) *)
Fixpoint skip (n : nat) (s : string) : string :=
  match n, s with
  | S n', String _ s' => skip n' s'
  | _, _ => s
  end.

(** The text before and the text after the first occurrence. *)
Fixpoint find_first (pattern s : string) : option (string * string) :=
  if String.prefix pattern s then Some (EmptyString, skip (String.length pattern) s)
  else match s with
       | EmptyString => None
       | String c s' =>
           match find_first pattern s' with
           | Some (before, after) => Some (String c before, after)
           | None => None
           end
       end.

Fixpoint expand (matched before after replacement : string) : string :=
  match replacement with
  | EmptyString => EmptyString
  | String c rest =>
      match rest with
      | String d rest' =>
          if Ascii.eqb c "$" then
            if Ascii.eqb d "$" then String "$" (expand matched before after rest')
            else if Ascii.eqb d "&" then (matched ++ expand matched before after rest')%string
            else if Ascii.eqb d "`" then (before ++ expand matched before after rest')%string
            else if Ascii.eqb d "'" then (after ++ expand matched before after rest')%string
            else String c (expand matched before after rest)
          else String c (expand matched before after rest)
      | EmptyString => String c EmptyString
      end
  end.

Definition replace (pattern replacement s : string) : string :=
  match find_first pattern s with
  | None => s
  | Some (before, after) =>
      (before ++ expand pattern before after replacement ++ after)%string
  end.

End JSString.

(** ** canvasApi.ts: [stringifyQueryParameters] *)

Module QueryString.

(** The characters [encodeURIComponent] leaves alone:
    [A-Z a-z 0-9 - _ . ! ~ * ' ( )]. *)
Definition is_unreserved (c : ascii) : bool :=
  let n := nat_of_ascii c in
  ((65 <=? n) && (n <=? 90)
   || (97 <=? n) && (n <=? 122)
   || (48 <=? n) && (n <=? 57)
   || existsb (Nat.eqb n) [45; 95; 46; 33; 126; 42; 39; 40; 41])%bool%nat.

Definition hex_digit (n : nat) : ascii :=
  match String.get n "0123456789ABCDEF" with
  | Some c => c
  | None => "0"%char
  end.

Definition percent_encode (c : ascii) : string :=
  let n := nat_of_ascii c in
  String "%"%char (String (hex_digit (n / 16)) (String (hex_digit (n mod 16)) EmptyString)).

(** [encodeURIComponent]: every byte of the UTF-8 encoding that is not
    unreserved becomes [%XX]. *)
Fixpoint encodeURIComponent (s : string) : string :=
  match s with
  | EmptyString => EmptyString
  | String c s' =>
      ((if is_unreserved c then String c EmptyString else percent_encode c)
       ++ encodeURIComponent s')%string
  end.

(** The characters an encoded key or value is made of. *)
Definition uri_safe (c : ascii) : bool := (is_unreserved c || Ascii.eqb c "%")%bool.

(** One serialized pair. *)
Definition render_pair (kv : string * string) : string :=
  (fst kv ++ "=" ++ snd kv)%string.

Section WithNumbers.
(** JavaScript numbers and [String(n)] on them. *)
Variable number : Type.
Variable String_number : number -> string.

(** [string | number] *)
Inductive Scalar : Type :=
| Str (s : string)
| Num (n : number).

(** [string | number | (string | number)[]] *)
Inductive Value : Type :=
| Single (v : Scalar)
| Array (vs : list Scalar).

(** [QueryParams = Record<string, ...>]: the own properties of the
    object in the order [for (const key in parameters)] visits them. *)
Definition QueryParams : Type := list (string * Value).

Definition String_ (v : Scalar) : string :=
  match v with
  | Str s => s
  | Num n => String_number n
  end.

(** The inner [for (const v of value) keyValues.push(...)]. *)
Definition push_array (key : string) (keyValues : list string) (value : list Scalar)
  : list string :=
  fold_left
    (fun keyValues v =>
       keyValues
         ++ [(encodeURIComponent key ++ "[]=" ++ encodeURIComponent (String_ v))%string])
    value keyValues.

(** The outer [for (const key in parameters)]. *)
Definition collect_keyValues (parameters : QueryParams) : list string :=
  fold_left
    (fun keyValues (property : string * Value) =>
       let (key, value) := property in
       match value with
       | Array vs => push_array key keyValues vs
       | Single v =>
           keyValues
             ++ [(encodeURIComponent key ++ "=" ++ encodeURIComponent (String_ v))%string]
       end)
    parameters [].

Definition stringifyQueryParameters (parameters : QueryParams) : string :=
  let keyValues := collect_keyValues parameters in
  if Nat.eqb (List.length keyValues) 0 then ""
  else ("?" ++ JSString.join "&" keyValues)%string.

(** *** The serialization as the specification words it *)

(** The pairs one parameter produces: [key[]=value] per element of an
    array, [key=value] for a scalar, keys and values percent-encoded. *)
Definition spec_pairs (property : string * Value) : list (string * string) :=
  match snd property with
  | Array vs =>
      List.map
        (fun v => ((encodeURIComponent (fst property) ++ "[]")%string,
                   encodeURIComponent (String_ v)))
        vs
  | Single v => [(encodeURIComponent (fst property), encodeURIComponent (String_ v))]
  end.

Definition spec_render (pairs : list (string * string)) : string :=
  match pairs with
  | [] => ""
  | _ =>
      ("?" ++ String.concat "&"
                (List.map (fun kv => (fst kv ++ "=" ++ snd kv)%string) pairs))%string
  end.

Definition spec_query_string (parameters : QueryParams) : string :=
  spec_render (flat_map spec_pairs parameters).

(** What a parameter object says, entry by entry in the order of the
    loops: the key, whether the entry is an element of an array, and the
    value as [String] prints it. *)
Definition entries_of (parameters : QueryParams) : list (string * bool * string) :=
  flat_map
    (fun property : string * Value =>
       match snd property with
       | Array vs => List.map (fun v => (fst property, true, String_ v)) vs
       | Single v => [(fst property, false, String_ v)]
       end)
    parameters.
End WithNumbers.

Arguments Str {number} s.
Arguments Num {number} n.
Arguments Single {number} v.
Arguments Array {number} vs.

(** Integer-valued numbers below 10^21 print in decimal. *)
Definition String_Z (n : Z) : string :=
  DecimalString.NilZero.string_of_int (Z.to_int n).

End QueryString.

(** ** canvasApi.ts: [getNextUrl] *)

Module LinkHeader.

(** The double-quote character. *)
Definition dq : ascii := ascii_of_nat 34.

Definition quoted (s : string) : string := String dq (s ++ String dq "")%string.

(** The text [rel="next"] of the regular expression [/rel="next"$/]. *)
Definition rel_next : string := ("rel=" ++ quoted "next")%string.

(** [l.search(/rel="next"$/) !== -1]: without the [m] flag [$] matches at
    the end of the input only. *)
Definition search_rel_next (l : string) : bool := JSString.endsWith rel_next l.

(** The line terminators, which [.] does not match: LF, CR and the UTF-8
    encodings of U+2028 and U+2029. *)
Definition line_separator : string :=
  String (ascii_of_nat 226) (String (ascii_of_nat 128) (String (ascii_of_nat 168) "")).
Definition paragraph_separator : string :=
  String (ascii_of_nat 226) (String (ascii_of_nat 128) (String (ascii_of_nat 169) "")).

Definition starts_with_line_terminator (s : string) : bool :=
  (String.prefix (String (ascii_of_nat 10) "") s
   || String.prefix (String (ascii_of_nat 13) "") s
   || String.prefix line_separator s
   || String.prefix paragraph_separator s)%bool.

(** [(.*?)>] matched at the start of [s]: the shortest run of characters
    other than line terminators that is followed by [>]. *)
Fixpoint lazy_until_gt (s : string) : option string :=
  match s with
  | EmptyString => None
  | String c s' =>
      if Ascii.eqb c ">" then Some EmptyString
      else if starts_with_line_terminator s then None
      else option_map (String c) (lazy_until_gt s')
  end.

(** [next.match(/<(.*?)>/)], giving capture group 1 of the leftmost
    match. *)
Fixpoint match_angle (s : string) : option string :=
  match s with
  | EmptyString => None
  | String c s' =>
      if Ascii.eqb c "<" then
        match lazy_until_gt s' with
        | Some url => Some url
        | None => match_angle s'
        end
      else match_angle s'
  end.

(** [string | string[]] *)
Inductive t : Type :=
| One (value : string)
| Many (values : list string).

(** The result is a string or [null]. *)
Definition getNextUrl (linkHeader : t) : option string :=
  let headerStr :=
    match linkHeader with
    | Many values => JSString.join ", " values
    | One value => value
    end in
  let next :=
    match find search_rel_next (JSString.split "," headerStr) with
    | Some EmptyString => None
    | Some l => Some l
    | None => None
    end in
  match next with
  | None => None
  | Some next => match_angle next
  end.

(** [getNextUrl] from the segments [split(",")] gives: the [find], the
    [|| null] and the [match]. *)
Definition scan (segments : list string) : option string :=
  match
    match find search_rel_next segments with
    | Some EmptyString => None
    | Some l => Some l
    | None => None
    end
  with
  | None => None
  | Some next => match_angle next
  end.

(** *** Link headers as the specification words them *)

(** One entry [<url>; rel="relation"]. *)
Definition render_entry (entry : string * string) : string :=
  ("<" ++ fst entry ++ ">; rel=" ++ quoted (snd entry))%string.

(** The URL of the entry whose relation is exactly [next]. *)
Definition spec_next_url (entries : list (string * string)) : option string :=
  option_map fst (find (fun entry => String.eqb (snd entry) "next") entries).

(** Entries the extraction is specified for: the URL is printable ASCII
    without [,], [<] or [>]; the relation has no double quote and no
    comma. *)
Definition url_char (c : ascii) : bool :=
  let n := nat_of_ascii c in
  ((33 <=? n) && (n <=? 126)
   && negb (Ascii.eqb c ",") && negb (Ascii.eqb c "<") && negb (Ascii.eqb c ">"))%bool%nat.

Definition rel_char (c : ascii) : bool :=
  (negb (Ascii.eqb c dq) && negb (Ascii.eqb c ","))%bool.

Definition plain_entry (entry : string * string) : bool :=
  (forallb url_char (list_ascii_of_string (fst entry))
   && forallb rel_char (list_ascii_of_string (snd entry)))%bool.

End LinkHeader.

(** ** What the transport library (undici) hands back *)

Module Undici.

(** A thrown JavaScript value, as far as the code inspects it:
    [err instanceof DOMException], [err.name], [err.message]. *)
Record JSError : Type := mkError {
  isError : bool;
  isDOMException : bool;
  name : string;
  message : option string
}.

(** [new Error(message)] and [new TypeError(message)] *)
Definition Error (message : string) : JSError :=
  mkError true false "Error" (Some message).
Definition TypeError (message : string) : JSError :=
  mkError true false "TypeError" (Some message).

(** [Record<string, string | string[] | undefined>]; an absent key reads
    [undefined]. *)
Definition Headers : Type := list (string * LinkHeader.t).

Fixpoint get (key : string) (headers : Headers) : option LinkHeader.t :=
  match headers with
  | [] => None
  | (k, v) :: headers' => if String.eqb k key then Some v else get key headers'
  end.

(** The body stream of a response: what is on the wire, whether the
    stream has been read, and the replacement of its [text] method when
    one was assigned ([res.body.text = async () => text]). *)
Record Body : Type := mkBody {
  wire : string;
  bodyUsed : bool;
  text_method : option string
}.

(** The message of the [TypeError] a second read of the stream throws. *)
Definition body_unusable : string := "Body is unusable".

(** [await body.text()] *)
Definition text (b : Body) : (string + JSError) * Body :=
  match text_method b with
  | Some replayed => (inl replayed, b)
  | None =>
      if bodyUsed b then (inr (TypeError body_unusable), b)
      else (inl (wire b), mkBody (wire b) true None)
  end.

(** [Dispatcher.ResponseData] *)
Record ResponseData : Type := mkResponseData {
  statusCode : Z;
  headers : Headers;
  body : Body
}.

(** A response as it arrives from the network: nothing read yet. *)
Definition arrived (status : Z) (hs : Headers) (content : string) : ResponseData :=
  mkResponseData status hs (mkBody content false None).

End Undici.

(** ** rateLimiter.ts *)

Module RateLimiter.
Import Undici.

Definition MAX_RETRIES : Z := 5.

(** [Number.MAX_SAFE_INTEGER] *)
Definition MAX_SAFE_INTEGER : Z := 9007199254740991.

(** [parseInt(s, 10)]: leading white space, an optional sign, then the
    longest run of decimal digits; [None] is [NaN].  Where JavaScript
    rounds a long run of digits to a double, the value here is exact; no
    comparison made with it below is affected.

    White space is what [StrWhiteSpaceChar] is: the code points of
    [WhiteSpace] (TAB, VT, FF, U+FEFF and the category Zs: SP, U+00A0,
    U+1680, U+2000 to U+200A, U+202F, U+205F, U+3000) and of
    [LineTerminator] (LF, CR, U+2028, U+2029); those beyond ASCII take two
    or three bytes. *)
Definition is_white_space (c : ascii) : bool :=
  existsb (Nat.eqb (nat_of_ascii c)) [9; 10; 11; 12; 13; 32].

(** U+00A0 *)
Definition is_white_space2 (c1 c2 : ascii) : bool :=
  (Nat.eqb (nat_of_ascii c1) 194 && Nat.eqb (nat_of_ascii c2) 160)%bool.

(** U+1680; U+2000 to U+200A, U+2028, U+2029, U+202F; U+205F; U+3000;
    U+FEFF *)
Definition is_white_space3 (c1 c2 c3 : ascii) : bool :=
  let n1 := nat_of_ascii c1 in
  let n2 := nat_of_ascii c2 in
  let n3 := nat_of_ascii c3 in
  (Nat.eqb n1 225 && Nat.eqb n2 154 && Nat.eqb n3 128
   || Nat.eqb n1 226 && Nat.eqb n2 128
      && ((128 <=? n3) && (n3 <=? 138) || existsb (Nat.eqb n3) [168; 169; 175])
   || Nat.eqb n1 226 && Nat.eqb n2 129 && Nat.eqb n3 159
   || Nat.eqb n1 227 && Nat.eqb n2 128 && Nat.eqb n3 128
   || Nat.eqb n1 239 && Nat.eqb n2 187 && Nat.eqb n3 191)%bool%nat.

Definition digit_value (c : ascii) : option Z :=
  let n := nat_of_ascii c in
  if ((48 <=? n) && (n <=? 57))%bool%nat then Some (Z.of_nat (n - 48)) else None.

Fixpoint parse_digits (acc : Z) (s : string) : Z :=
  match s with
  | EmptyString => acc
  | String c s' =>
      match digit_value c with
      | Some d => parse_digits (10 * acc + d) s'
      | None => acc
      end
  end.

Definition parse_unsigned (s : string) : option Z :=
  match s with
  | EmptyString => None
  | String c _ =>
      match digit_value c with
      | Some _ => Some (parse_digits 0 s)
      | None => None
      end
  end.

Fixpoint trim_start (s : string) : string :=
  match s with
  | EmptyString => EmptyString
  | String c1 s1 =>
      if is_white_space c1 then trim_start s1
      else
        match s1 with
        | EmptyString => s
        | String c2 s2 =>
            if is_white_space2 c1 c2 then trim_start s2
            else
              match s2 with
              | EmptyString => s
              | String c3 s3 =>
                  if is_white_space3 c1 c2 c3 then trim_start s3 else s
              end
        end
  end.

Definition parseInt (s : string) : option Z :=
  match trim_start s with
  | String "-" s' => option_map Z.opp (parse_unsigned s')
  | String "+" s' => parse_unsigned s'
  | s' => parse_unsigned s'
  end.

(** [String(remaining)] for [string | string[]]. *)
Definition String_header (v : LinkHeader.t) : string :=
  match v with
  | LinkHeader.One s => s
  | LinkHeader.Many l => JSString.join "," l
  end.

(** The response a plain 403 is resolved with: the stream is used up and
    [text] has been replaced by a function returning the buffered
    text. *)
Definition replayed (hs : Headers) (content : string) : ResponseData :=
  mkResponseData 403 hs (mkBody content true (Some content)).

Section Factory.
(** What [workFn] closes over: the [url] and the options of one call of
    [request]. *)
Variable Request : Type.

(** [TRateLimitWorkItem].  The first two components, [resolve] and
    [reject], are the two handles of one promise; [promise] names that
    promise by the number of promises created before it. *)
Record WorkItem : Type := mkWorkItem {
  promise : nat;
  workFn : Request;
  idCounter : Z;
  retryCount : Z
}.

(** The closure variables of [rateLimitedRequestFactory], followed by
    what the environment holds: the promises created so far, the calls
    of [resolve]/[reject] made so far, the calls of [workFn] whose
    answer is outstanding, and every call of [workFn] made so far. *)
Record State : Type := mkState {
  limitIntervalMs : Z;
  _pendingWorkItems : list WorkItem;
  _callCounter : Z;
  _isIdle : bool;
  _nextDelay : Z;
  _intervalPeriodStart : Z;
  promises : nat;
  settled : list (nat * (ResponseData + JSError));
  inFlight : list WorkItem;
  dispatched : list WorkItem
}.

Definition create (limitIntervalMs : Z) : State :=
  mkState limitIntervalMs [] 0 true 0 0 0 [] [] [].

Definition set_pending (q : list WorkItem) (s : State) : State :=
  mkState (limitIntervalMs s) q (_callCounter s) (_isIdle s) (_nextDelay s)
    (_intervalPeriodStart s) (promises s) (settled s)
    (inFlight s) (dispatched s).

Definition set_isIdle (b : bool) (s : State) : State :=
  mkState (limitIntervalMs s) (_pendingWorkItems s) (_callCounter s) b (_nextDelay s)
    (_intervalPeriodStart s) (promises s) (settled s)
    (inFlight s) (dispatched s).

Definition set_timing (nextDelay intervalPeriodStart : Z) (s : State) : State :=
  mkState (limitIntervalMs s) (_pendingWorkItems s) (_callCounter s) (_isIdle s)
    nextDelay intervalPeriodStart (promises s) (settled s)
    (inFlight s) (dispatched s).

Definition set_inFlight (l : list WorkItem) (s : State) : State :=
  mkState (limitIntervalMs s) (_pendingWorkItems s) (_callCounter s) (_isIdle s)
    (_nextDelay s) (_intervalPeriodStart s) (promises s)
    (settled s) l (dispatched s).

(** [resolve(value)] or [reject(err)] of the promise [p]. *)
Definition settle (p : nat) (result : ResponseData + JSError) (s : State) : State :=
  mkState (limitIntervalMs s) (_pendingWorkItems s) (_callCounter s) (_isIdle s)
    (_nextDelay s) (_intervalPeriodStart s) (promises s)
    (settled s ++ [(p, result)]) (inFlight s) (dispatched s).

Definition _setDelayToStartAtNextInterval (now : Z) (s : State) : State :=
  let delta := (now - _intervalPeriodStart s)%Z in
  let calcDelay := (limitIntervalMs s - delta)%Z in
  if (_nextDelay s <? calcDelay)%Z
  then set_timing calcDelay (_intervalPeriodStart s) s
  else s.

Definition _checkAndResetInterval (now : Z) (s : State) : State :=
  let delta := (now - _intervalPeriodStart s)%Z in
  if (delta >? limitIntervalMs s)%Z then set_timing 0 now s else s.

Definition _getCallCounter (s : State) : Z * State :=
  let c := if (_callCounter s >=? MAX_SAFE_INTEGER)%Z then 1%Z
           else (_callCounter s + 1)%Z in
  (c,
   mkState (limitIntervalMs s) (_pendingWorkItems s) c (_isIdle s) (_nextDelay s)
     (_intervalPeriodStart s) (promises s) (settled s)
     (inFlight s) (dispatched s)).

(** [workFn()] is called and not awaited: the call is outstanding. *)
Definition call_workFn (item : WorkItem) (s : State) : State :=
  mkState (limitIntervalMs s) (_pendingWorkItems s) (_callCounter s) (_isIdle s)
    (_nextDelay s) (_intervalPeriodStart s) (promises s) (settled s)
    (inFlight s ++ [item]) (dispatched s ++ [item]).

(** The [while] loop from its head, over the queue [pending], until it
    suspends at [await new Promise(... setTimeout(waitResolve, _nextDelay))]
    or the queue is empty, where [finally] sets [_isIdle]. *)
Fixpoint workLoop (now : Z) (pending : list WorkItem) (s : State) : State :=
  match pending with
  | [] => set_isIdle true (set_pending [] s)
  | item :: rest =>
      if (_nextDelay s >? 0)%Z then set_pending pending s
      else workLoop now rest (call_workFn item (_checkAndResetInterval now s))
  end.

(** The loop resumes after the delay: the rest of the iteration, then
    the loop from its head.  [shift()] on an empty queue gives
    [undefined], which is assigned to [currentWorkItem] before the
    destructuring throws; the [catch] block then finds [currentWorkItem]
    undefined and rejects nothing, and [finally] sets [_isIdle]. *)
Definition resume (now : Z) (s : State) : State :=
  let s := _checkAndResetInterval now s in
  match _pendingWorkItems s with
  | [] => set_isIdle true s
  | item :: rest => workLoop now rest (call_workFn item s)
  end.

Definition startWorkLoop (now : Z) (s : State) : State :=
  if _isIdle s then
    let s := mkState (limitIntervalMs s) (_pendingWorkItems s) (_callCounter s) false
               (_nextDelay s) now (promises s) (settled s)
               (inFlight s) (dispatched s) in
    workLoop now (_pendingWorkItems s) s
  else s.

(** The executor of [new Promise((resolve, reject) => ...)] in
    [request], up to the [setTimeout(() => startWorkLoop(), 0)]. *)
Definition request (req : Request) (s : State) : State :=
  let (id, s) := _getCallCounter s in
  let item := mkWorkItem (promises s) req id 0 in
  mkState (limitIntervalMs s) (_pendingWorkItems s ++ [item]) (_callCounter s)
    (_isIdle s) (_nextDelay s) (_intervalPeriodStart s)
    (S (promises s)) (settled s) (inFlight s) (dispatched s).

Definition rate_limit_error : JSError :=
  Error "Canvas API rate limit: max retries exceeded".

(** The end of the [then] callback: [workResolve(res)] and the look at
    the [x-rate-limit-remaining] header. *)
Definition resolve_and_check_quota (now : Z) (item : WorkItem) (res : ResponseData)
    (s : State) : State :=
  let s := settle (promise item) (inl res) s in
  match get "x-rate-limit-remaining" (headers res) with
  | None => s
  | Some remaining =>
      match parseInt (String_header remaining) with
      | Some remainingNum =>
          if (remainingNum <? 50)%Z then _setDelayToStartAtNextInterval now s else s
      | None => s
      end
  end.

(** The work item a rate-limited [item] is replaced with:
    [[workResolve, workReject, workFn, _idCounter, retryCount + 1]]. *)
Definition retry (item : WorkItem) : WorkItem :=
  mkWorkItem (promise item) (workFn item) (idCounter item) (retryCount item + 1).

(** The [then] callback of [workFn()], with [.catch(workReject)] for
    what it throws.  The callback runs in two turns, before and after
    [await res.body.text()]; nothing else of the dispatcher reads or
    writes what the first turn does (it only tests [statusCode]), so the
    two turns are one event here, [now] being the reading of [Date.now()]
    in the second. *)
Definition on_fulfilled (now : Z) (item : WorkItem) (res : ResponseData) (s : State)
  : State :=
  if (statusCode res =? 403)%Z then
    match text (body res) with
    | (inr err, _) => settle (promise item) (inr err) s
    | (inl txt, read) =>
        if JSString.includes "Rate Limit Exceeded" txt then
          if (retryCount item >=? MAX_RETRIES)%Z then
            settle (promise item) (inr rate_limit_error) s
          else
            let s := set_pending (retry item :: _pendingWorkItems s) s in
            let s := _setDelayToStartAtNextInterval now s in
            startWorkLoop now s
        else
          let res := mkResponseData (statusCode res) (headers res)
                       (mkBody (wire read) (bodyUsed read) (Some txt)) in
          resolve_and_check_quota now item res s
    end
  else resolve_and_check_quota now item res s.

(** [.catch(workReject)] for a [workFn()] that rejects. *)
Definition on_rejected (item : WorkItem) (err : JSError) (s : State) : State :=
  settle (promise item) (inr err) s.

(** What can happen to the dispatcher, one constructor per callback the
    event loop can run: a caller calls [request]; the timer set by
    [setTimeout(() => startWorkLoop(), 0)] fires; the timer the loop
    sleeps on fires; the [n]-th outstanding call of [workFn] is answered
    with a response; it is rejected with an error.  [now] is the reading
    of [Date.now()] during the event. *)
Inductive Event : Type :=
| Submit (req : Request)
| Tick (now : Z)
| Wake (now : Z)
| Respond (n : nat) (now : Z) (status : Z) (hs : Headers) (content : string)
| Fail (n : nat) (err : JSError).

(** Take the [n]-th outstanding call out of [inFlight]. *)
Fixpoint take_nth (n : nat) (l : list WorkItem) : option (WorkItem * list WorkItem) :=
  match l, n with
  | [], _ => None
  | x :: l', O => Some (x, l')
  | x :: l', S n' =>
      match take_nth n' l' with
      | Some (y, rest) => Some (y, x :: rest)
      | None => None
      end
  end.

Definition step (s : State) (e : Event) : State :=
  match e with
  | Submit req => request req s
  | Tick now => startWorkLoop now s
  | Wake now => if _isIdle s then s else resume now s
  | Respond n now status hs content =>
      match take_nth n (inFlight s) with
      | Some (item, rest) =>
          on_fulfilled now item (arrived status hs content) (set_inFlight rest s)
      | None => s
      end
  | Fail n err =>
      match take_nth n (inFlight s) with
      | Some (item, rest) => on_rejected item err (set_inFlight rest s)
      | None => s
      end
  end.

Definition run (s : State) (events : list Event) : State := fold_left step events s.

(** *** An environment in which every attempt is rate-limited

    [next_event] answers the oldest outstanding call with a 403 whose
    body is [content]; when no call is outstanding it lets the pending
    timer fire (the start-up tick when the loop is idle, the delay timer
    when it sleeps); when nothing is queued either, nothing happens. *)
Definition next_event (now : Z) (hs : Headers) (content : string) (s : State)
  : option Event :=
  match inFlight s with
  | _ :: _ => Some (Respond 0 now 403 hs content)
  | [] =>
      if _isIdle s then
        match _pendingWorkItems s with
        | [] => None
        | _ :: _ => Some (Tick now)
        end
      else Some (Wake now)
  end.

(** [serve fuel clock i hs content s]: let up to [fuel] such events
    happen, the [j]-th of them at time [clock j]. *)
Fixpoint serve (fuel : nat) (clock : nat -> Z) (i : nat) (hs : Headers)
    (content : string) (s : State) : State :=
  match fuel with
  | O => s
  | S fuel' =>
      match next_event (clock i) hs content s with
      | None => s
      | Some e => serve fuel' clock (S i) hs content (step s e)
      end
  end.

(** A work item that has not been attempted yet. *)
Definition is_fresh (item : WorkItem) : bool := (retryCount item =? 0)%Z.

(** The dispatch order as the specification words it: of two dispatched
    items with equal retry count, the one dispatched first was submitted
    first (promises are numbered in the order of submission). *)
Definition dispatched_in_submission_order (log : list WorkItem) : Prop :=
  forall i j a b,
    i < j -> nth_error log i = Some a -> nth_error log j = Some b ->
    retryCount a = retryCount b -> promise a < promise b.


(** *** Vocabulary for the properties of the dispatcher *)

Implicit Types (s r : State) (item : WorkItem) (q fired rest : list WorkItem).

(** [Fires s r fired]: from [s] to [r] the loop took [fired] from the
    head of the queue and called their [workFn], and touched neither the
    promises nor the limit. *)
Definition Fires s r fired : Prop :=
  _pendingWorkItems s = fired ++ _pendingWorkItems r
  /\ inFlight r = inFlight s ++ fired
  /\ dispatched r = dispatched s ++ fired
  /\ settled r = settled s
  /\ promises r = promises s
  /\ limitIntervalMs r = limitIntervalMs s.

(** Where the loop stops: the queue is empty and the dispatcher idle, or
    the loop sleeps in front of a non-empty queue. *)
Definition Stops r : Prop :=
  (_pendingWorkItems r = [] /\ _isIdle r = true)
  \/ (_pendingWorkItems r <> [] /\ _isIdle r = false).

Definition retries_left item : nat := Z.to_nat (MAX_RETRIES - retryCount item).

(** The work still ahead of an item: one unit per call of [workFn] and one
    per answer. *)
Definition queued_work item : nat := 2 * retries_left item + 2.
Definition flying_work item : nat := 2 * retries_left item + 1.

Definition work s : nat :=
  list_sum (List.map queued_work (_pendingWorkItems s))
  + list_sum (List.map flying_work (inFlight s)).

Definition measure s : nat := 2 * work s + (if _isIdle s then 1 else 0).

(** The promises some work item in the dispatcher belongs to. *)
Definition live s : list nat :=
  List.map promise (_pendingWorkItems s ++ inFlight s).

(** A sleeping loop has something in front of it. *)
Definition well_formed s : Prop := _isIdle s = false -> _pendingWorkItems s <> [].

Definition exhausted (entry : nat * (ResponseData + JSError)) : Prop :=
  snd entry = inr rate_limit_error.

(** [Progress s r]: [r] has less work ahead than [s]; the promises settled
    in between were all rejected with the rate-limit error; every promise
    live in [s] is live in [r] or among those. *)
Definition Progress s r : Prop :=
  measure r < measure s
  /\ well_formed r
  /\ exists new,
       settled r = settled s ++ new
       /\ Forall exhausted new
       /\ forall p, In p (live s) -> In p (live r) \/ In p (List.map fst new).

(** [Drained s r]: nothing is queued or outstanding in [r], the loop has
    stopped, and every promise live in [s] has been rejected with the
    rate-limit error, nothing else having been settled. *)
Definition Drained s r : Prop :=
  _pendingWorkItems r = [] /\ inFlight r = [] /\ _isIdle r = true
  /\ exists new,
       settled r = settled s ++ new
       /\ Forall exhausted new
       /\ forall p, In p (live s) -> In p (List.map fst new).

(** [Ordered pending flying log n]: the queue is a run of retried items
    followed by a run of items never attempted; the never-attempted items
    already dispatched, followed by those still queued, are the promises
    [0 .. n-1] in the order they were created. *)
Definition Ordered (pending flying log : list WorkItem) (n : nat) : Prop :=
  exists retried fresh,
    pending = retried ++ fresh
    /\ Forall (fun item => (1 <= retryCount item)%Z) retried
    /\ Forall (fun item => retryCount item = 0%Z) fresh
    /\ List.map promise (List.filter is_fresh log) ++ List.map promise fresh = seq 0 n
    /\ Forall (fun item => (0 <= retryCount item)%Z) flying.

Definition ordered s : Prop :=
  Ordered (_pendingWorkItems s) (inFlight s) (dispatched s) (promises s).

End Factory.

Arguments mkWorkItem {Request} promise workFn idCounter retryCount.
Arguments promise {Request} w.
Arguments workFn {Request} w.
Arguments idCounter {Request} w.
Arguments retryCount {Request} w.
Arguments mkState {Request}.
Arguments limitIntervalMs {Request} s.
Arguments _pendingWorkItems {Request} s.
Arguments _callCounter {Request} s.
Arguments _isIdle {Request} s.
Arguments _nextDelay {Request} s.
Arguments _intervalPeriodStart {Request} s.
Arguments promises {Request} s.
Arguments settled {Request} s.
Arguments inFlight {Request} s.
Arguments dispatched {Request} s.
Arguments set_pending {Request} q s.
Arguments set_isIdle {Request} b s.
Arguments set_timing {Request} nextDelay intervalPeriodStart s.
Arguments set_inFlight {Request} l s.
Arguments settle {Request} p result s.
Arguments _setDelayToStartAtNextInterval {Request} now s.
Arguments _checkAndResetInterval {Request} now s.
Arguments _getCallCounter {Request} s.
Arguments call_workFn {Request} item s.
Arguments workLoop {Request} now pending s.
Arguments resume {Request} now s.
Arguments startWorkLoop {Request} now s.
Arguments request {Request} req s.
Arguments resolve_and_check_quota {Request} now item res s.
Arguments on_fulfilled {Request} now item res s.
Arguments on_rejected {Request} item err s.
Arguments Submit {Request} req.
Arguments Tick {Request} now.
Arguments Wake {Request} now.
Arguments Respond {Request} n now status hs content.
Arguments Fail {Request} n err.
Arguments take_nth {Request} n l.
Arguments step {Request} s e.
Arguments run {Request} s events.
Arguments next_event {Request} now hs content s.
Arguments serve {Request} fuel clock i hs content s.
Arguments retry {Request} item.
Arguments is_fresh {Request} item.
Arguments dispatched_in_submission_order {Request} log.
Arguments Fires {Request} s r fired.
Arguments Stops {Request} r.
Arguments retries_left {Request} item.
Arguments queued_work {Request} item.
Arguments flying_work {Request} item.
Arguments work {Request} s.
Arguments measure {Request} s.
Arguments live {Request} s.
Arguments well_formed {Request} s.
Arguments Progress {Request} s r.
Arguments Drained {Request} s r.
Arguments Ordered {Request} pending flying log n.
Arguments ordered {Request} s.

(** *** Bookkeeping of promises and of time *)

(** The promises of the work items queued, of those in flight, and the
    promises settled so far. *)
Definition accounted {Request} (s : State Request) : list nat :=
  List.map promise (_pendingWorkItems s) ++ List.map promise (inFlight s)
  ++ List.map fst (settled s).

(** The reading of [Date.now()] during an event, when it takes one. *)
Definition event_time {Request} (e : Event Request) : option Z :=
  match e with
  | Submit _ => None
  | Tick now | Wake now | Respond _ now _ _ _ => Some now
  | Fail _ _ => None
  end.

(** The clock never runs backwards: the readings of [Date.now()] in
    [events] do not decrease, and none is below [t]. *)
Fixpoint chronological {Request} (t : Z) (events : list (Event Request)) : Prop :=
  match events with
  | [] => True
  | e :: events' =>
      match event_time e with
      | Some now => (t <= now)%Z /\ chronological now events'
      | None => chronological t events'
      end
  end.

(** The retry counts with which the work items of promise [p] were
    dispatched, in the order of dispatch. *)
Definition attempts_of {Request} (p : nat) (log : list (WorkItem Request)) : list Z :=
  List.map retryCount (List.filter (fun item => Nat.eqb (promise item) p) log).

(** [0, 1, ..., n - 1] *)
Definition counts (n : nat) : list Z := List.map Z.of_nat (seq 0 n).

(** [Budget pending flying log n]: the work items queued and in flight
    belong to different promises, all created; a queued item with retry
    count [c] has been dispatched [c] times before, with the retry counts
    [0 .. c - 1], an item in flight [c + 1] times, with [0 .. c]; and no
    promise has had more than [MAX_RETRIES + 1] dispatches. *)
Definition Budget {Request} (pending flying log : list (WorkItem Request)) (n : nat)
  : Prop :=
  NoDup (List.map promise (pending ++ flying))
  /\ (forall item, In item (pending ++ flying) ->
        promise item < n /\ (0 <= retryCount item <= MAX_RETRIES)%Z)
  /\ (forall item, In item pending ->
        attempts_of (promise item) log = counts (Z.to_nat (retryCount item)))
  /\ (forall item, In item flying ->
        attempts_of (promise item) log = counts (S (Z.to_nat (retryCount item))))
  /\ (forall p, exists k,
        k <= S (Z.to_nat MAX_RETRIES) /\ attempts_of p log = counts k)
  /\ Forall (fun item => promise item < n) log.

(** [Precedes x y log]: wherever [y] stands in the log of dispatches,
    [x] stands before it: [x] is dispatched before [y]. *)
Definition Precedes {A} (x y : A) (log : list A) : Prop :=
  forall l1 l2, log = l1 ++ y :: l2 -> In x l1.

(** *** Runs of a dispatcher *)

Definition rate_limited_body : string := "403 Forbidden (Rate Limit Exceeded)".

Definition attempts (s : State string) : list (nat * Z) :=
  List.map (fun item => (promise item, retryCount item)) (dispatched s).


End RateLimiter.

(** ** canvasApiResponse.ts *)

Module CanvasApiResponse.
Import Undici.

(** A parsed JSON document.  Numbers are kept to the integers; nothing
    below looks inside a number. *)
#[warnings="-register-all"]
Inductive Json : Type :=
| JNull
| JBool (b : bool)
| JNumber (n : Z)
| JString (s : string)
| JArray (elements : list Json)
| JObject (members : list (string * Json)).

(** [Array.isArray(v)], giving the elements. *)
Definition isArray (v : option Json) : option (list Json) :=
  match v with
  | Some (JArray elements) => Some elements
  | _ => None
  end.

Record t : Type := mk {
  statusCode : Z;
  headers : Headers;
  json : option Json;
  body : option Json;
  text : string;
  parseError : option JSError
}.

(** [new CanvasApiResponse()] *)
Definition new : t := mk 0 [] None None "" None.

Section ParseBody.
(** [JSON.parse], which returns a value or throws a [SyntaxError]. *)
Variable JSON_parse : string -> Json + JSError.

(** The promise [parseBody] returns rejects when reading the body
    throws; a failure of [JSON.parse] is caught and stored. *)
Definition parseBody (this : t) (response : ResponseData) : t + JSError :=
  match Undici.text (Undici.body response) with
  | (inr err, _) => inr err
  | (inl txt, _) =>
      match JSON_parse txt with
      | inl v =>
          inl (mk (Undici.statusCode response) (Undici.headers response)
                  (Some v) (Some v) txt (parseError this))
      | inr err =>
          inl (mk (Undici.statusCode response) (Undici.headers response)
                  (json this) (body this) txt (Some err))
      end
  end.
End ParseBody.

End CanvasApiResponse.

(** ** canvasApiError.ts *)

Module CanvasApiError.
Import Undici.

(** The error classes, and [Thrown] for any other value that propagates.
    The [stack] string is not a field of the errors here; what
    [canvasApiErrorDecorator] makes of it is given separately, below. *)
Inductive t : Type :=
| CanvasApiResponseError (response : CanvasApiResponse.t)
| CanvasApiRequestError (message : string)
| CanvasApiTimeoutError
| CanvasApiPaginationError (response : CanvasApiResponse.t)
| Thrown (e : JSError).

(** [new CanvasApiRequestError(message)] *)
Definition newCanvasApiRequestError (message : option string) : t :=
  CanvasApiRequestError
    ("Canvas API Request Error: "
     ++ match message with
        | Some m => m
        | None => "there is something wrong with your request"
        end)%string.

(** [error.name] and [error.message] of an instance of one of the four
    classes. *)
Definition class_name (error : t) : option string :=
  match error with
  | CanvasApiResponseError _ => Some "CanvasApiResponseError"
  | CanvasApiRequestError _ => Some "CanvasApiRequestError"
  | CanvasApiTimeoutError => Some "CanvasApiTimeoutError"
  | CanvasApiPaginationError _ => Some "CanvasApiPaginationError"
  | Thrown _ => None
  end.

Definition class_message (error : t) : option string :=
  match error with
  | CanvasApiResponseError _ => Some "Canvas API response error"
  | CanvasApiRequestError message => Some message
  | CanvasApiTimeoutError => Some "Canvas API timeout error"
  | CanvasApiPaginationError _ =>
      Some "This endpoint did not responded with a list. Use `listPages` or `get` instead"
  | Thrown _ => None
  end.

(** [canvasApiErrorDecorator(error, stack)], for an error whose name and
    message are [name] and [message]: the [stack] of the error afterwards,
    [old] being its [stack] before. *)
Definition canvasApiErrorDecorator (name message : string) (old : option string)
    (stack : option string) : option string :=
  match stack with
  | Some stack => Some (JSString.replace "Error" (name ++ ": " ++ message) stack)
  | None => old
  end.

End CanvasApiError.

(** ** canvasApi.ts: the client *)

Module CanvasApi.
Import Undici CanvasApiError ExtendedGenerator.
Import CanvasApiResponse(Json, JArray, isArray, parseBody).

(** [RequestOptions].  The property [timeout] of an options object is
    absent ([None]), or present with the value [undefined]
    ([Some None]), or present with a number ([Some (Some ms)]); the
    numbers are kept to the integers. *)
Record RequestOptions : Type := mkRequestOptions { timeout : option (option Z) }.

(** The options of the constructor. *)
Record ConstructorOptions : Type := mkConstructorOptions {
  instance_timeout : option (option Z);
  rateLimitIntervalMs : option Z;
  disableThrottling : option bool
}.

(** The function stored in [__request__]: [undiciRequest], or the
    [request] closure of one call of [rateLimitedRequestFactory], named by
    the number of calls of the factory made before it. *)
Inductive RequestFunction : Type :=
| undiciRequest
| rateLimitedRequest (dispatcher : nat).

Section Client.
(** The host platform: WHATWG URLs, [JSON], [AbortSignal], [FormData],
    numbers.  [JSON.stringify] gives a string, or [undefined] ([None]) for
    a value that has no JSON text (a function, a symbol), or it throws.
    [AbortSignal_timeout_error ms] is what [AbortSignal.timeout(ms)]
    throws, for the delays it refuses (a negative one, one out of
    range). *)
Variable URL : Type.
Variable new_URL : string -> option URL -> URL + JSError.
Variable URL_toString : URL -> string.
Variable JSON_parse : string -> Json + JSError.
Variable unknown : Type.
Variable is_string : unknown -> bool.
Variable JSON_stringify : unknown -> option string + JSError.
Variable AbortSignal_timeout_error : Z -> option JSError.
Variable FormData : Type.
Variable number : Type.
Variable String_number : number -> string.

Local Abbreviation QueryParams := (QueryString.QueryParams number).

(** The [body] argument: absent, a [FormData], or any other value. *)
Inductive BodyArgument : Type :=
| NoBody
| Form (form : FormData)
| Value (obj : unknown).

(** The options object passed to [__request__], and its [url].  [signal]
    is [null], or the signal [AbortSignal.timeout(ms)] returned, which is
    named by its delay [ms]. *)
Record Request : Type := mkRequest {
  url : string;
  method : string;
  authorization : string;
  user_agent : string;
  content_type : option string;
  request_body : option (FormData + string);
  signal : option Z
}.

(** The module-level variable and the dispatchers created so far. *)
Record Module : Type := mkModule {
  requestWithRateLimitThrottling : option nat;
  dispatchers : list (RateLimiter.State Request)
}.

Definition loaded : Module := mkModule None [].

Definition rateLimitedRequestFactory (limitIntervalMs : Z) (m : Module)
  : nat * Module :=
  (List.length (dispatchers m),
   mkModule (requestWithRateLimitThrottling m)
     (dispatchers m ++ [RateLimiter.create Request limitIntervalMs])).

Record t : Type := mkClient {
  __request__ : RequestFunction;
  apiUrl : URL;
  token : string;
  options : RequestOptions
}.

(** [new CanvasApi(apiUrl, token, options)]: the instance or the value
    [new URL] throws, and the module state afterwards. *)
Definition constructor (apiUrl token : string) (options : ConstructorOptions)
    (m : Module) : (t + JSError) * Module :=
  match
    if JSString.endsWith "/" apiUrl then new_URL apiUrl None
    else new_URL (apiUrl ++ "/")%string None
  with
  | inr err => (inr err, m)
  | inl api =>
      let opts := mkRequestOptions (instance_timeout options) in
      match disableThrottling options with
      | Some true => (inl (mkClient undiciRequest api token opts), m)
      | _ =>
          let (d, m) :=
            match requestWithRateLimitThrottling m with
            | Some d => (d, m)
            | None =>
                let (d, m) :=
                  rateLimitedRequestFactory
                    match rateLimitIntervalMs options with
                    | Some ms => ms
                    | None => 1000%Z
                    end m in
                (d, mkModule (Some d) (dispatchers m))
            end in
          (inl (mkClient (rateLimitedRequest d) api token opts), m)
      end
  end.

(** A series of constructions, in order, from the module state [m]. *)
Fixpoint construct_all (calls : list (string * string * ConstructorOptions)) (m : Module)
  : list (t + JSError) * Module :=
  match calls with
  | [] => ([], m)
  | (apiUrl, token, options) :: calls' =>
      let (instance, m) := constructor apiUrl token options m in
      let (instances, m) := construct_all calls' m in
      (instance :: instances, m)
  end.

(** The construction yields an instance ([new URL] accepts the URL) that
    shares the dispatcher ([disableThrottling] is not set). *)
Definition shares (call : string * string * ConstructorOptions) : bool :=
  let '(apiUrl, _, options) := call in
  match
    (if JSString.endsWith "/" apiUrl then new_URL apiUrl None
     else new_URL (apiUrl ++ "/")%string None),
    disableThrottling options
  with
  | inl _, Some true => false
  | inl _, _ => true
  | inr _, _ => false
  end.

(** The interval the first sharing construction asks for, if there is such
    a construction. *)
Definition first_interval (calls : list (string * string * ConstructorOptions))
  : option Z :=
  match find shares calls with
  | Some (_, _, options) =>
      Some match rateLimitIntervalMs options with
           | Some ms => ms
           | None => 1000%Z
           end
  | None => None
  end.

(** What a construction stores in [__request__] when the shared dispatcher
    is the [d]-th one created. *)
Definition wired (d : nat) (call : string * string * ConstructorOptions)
    (instance : t + JSError) : Prop :=
  match instance with
  | inl this =>
      __request__ this = if shares call then rateLimitedRequest d else undiciRequest
  | inr _ => shares call = false
  end.

(** [this.options], for where a parameter named [options] hides it. *)
Definition instance_options (this : t) : RequestOptions := options this.

(** [normalizeBody] *)
Definition normalizeBody (obj : BodyArgument)
  : option (FormData + string) + CanvasApiError.t :=
  match obj with
  | NoBody => inl None
  | Form form => inl (Some (inl form))
  | Value v =>
      match JSON_stringify v with
      | inl (Some s) => inl (Some (inr s))
      | inl None => inl None
      | inr err =>
          if isError err then inr (newCanvasApiRequestError (message err))
          else inr (Thrown err)
      end
  end.

(** The world the client talks to, and what [await this.__request__(url,
    options)] settles with. *)
Variable World : Type.
Variable send : RequestFunction -> World -> Request
                -> (ResponseData + JSError) * World.

(** The [.catch] callback of [_request]. *)
Definition classify (err : JSError) : CanvasApiError.t :=
  if (isDOMException err && String.eqb (name err) "TimeoutError")%bool
  then CanvasApiTimeoutError
  else newCanvasApiRequestError (message err).

(** [_request] from the point where [this.__request__(...)] has settled:
    [.then(parseBody)], [.catch(...)], and the test of the status. *)
Definition receive (outcome : ResponseData + JSError)
  : CanvasApiResponse.t + CanvasApiError.t :=
  match
    match outcome with
    | inl undiciResponse => parseBody JSON_parse CanvasApiResponse.new undiciResponse
    | inr err => inr err
    end
  with
  | inr err => inr (classify err)
  | inl response =>
      if (CanvasApiResponse.statusCode response >=? 400)%Z
      then inr (CanvasApiResponseError response)
      else inl response
  end.

(** [{ ...this.options, ...options }.timeout]: the property of the call
    when the call has one, whatever its value, and that of the instance
    otherwise. *)
Definition mergedOptions_timeout (this : t) (options : RequestOptions) : option Z :=
  match timeout options with
  | Some value => value
  | None =>
      match timeout (instance_options this) with
      | Some value => value
      | None => None
      end
  end.

(** [_request].  The arguments of [this.__request__(...)] are evaluated
    before the call: [normalizeBody] first, [AbortSignal.timeout] after
    it; what either throws rejects the promise of [_request] outside the
    [.then] and [.catch] of the call, and nothing is sent. *)
Definition _request (this : t) (endpoint : string) (method : string)
    (params : option QueryParams) (body : BodyArgument) (options : RequestOptions)
    (w : World) : (CanvasApiResponse.t + CanvasApiError.t) * World :=
  match new_URL endpoint (Some (apiUrl this)) with
  | inr err => (inr (Thrown err), w)
  | inl resolved =>
      let url := URL_toString resolved in
      let mergedTimeout := mergedOptions_timeout this options in
      let url :=
        match params with
        | Some params =>
            (url ++ QueryString.stringifyQueryParameters number String_number params)%string
        | None => url
        end in
      let contentType :=
        match body with
        | Form _ => None
        | Value v =>
            if is_string v then Some "text/plain; charset=utf-8"
            else Some "application/json"
        | NoBody => Some "application/json"
        end in
      match normalizeBody body with
      | inr err => (inr err, w)
      | inl normalized =>
          let truthy :=
            match mergedTimeout with
            | Some ms => if (ms =? 0)%Z then None else Some ms
            | None => None
            end in
          match
            match truthy with
            | Some ms => AbortSignal_timeout_error ms
            | None => None
            end
          with
          | Some err => (inr (Thrown err), w)
          | None =>
              let (outcome, w) :=
                send (__request__ this) w
                  (mkRequest url method ("Bearer " ++ token this)%string
                     "@kth/canvas-api" contentType normalized truthy) in
              (receive outcome, w)
          end
      end
  end.

(** The local variables of the generator of [listPages]. *)
Record PagesLocals : Type := mkPagesLocals {
  pages_url : option string;
  pages_queryParams : QueryParams;
  pages_world : World
}.

(** [response.headers.link && getNextUrl(response.headers.link)] *)
Definition next_link (response : CanvasApiResponse.t) : option string :=
  match get "link" (CanvasApiResponse.headers response) with
  | None => None
  | Some (LinkHeader.One EmptyString) => Some EmptyString
  | Some link => LinkHeader.getNextUrl link
  end.

(** One turn of [while (url) { ... yield response; ... }].  The two
    assignments after the [yield] run when the body is resumed; they are
    recorded at the [yield]. *)
Definition listPages_body (this : t) (options : RequestOptions) (locals : PagesLocals)
  : BodyStep CanvasApiError.t CanvasApiResponse.t PagesLocals :=
  match pages_url locals with
  | None => BReturn locals
  | Some EmptyString => BReturn locals
  | Some url =>
      match _request this url "GET" (Some (pages_queryParams locals)) NoBody options
              (pages_world locals) with
      | (inl response, w) =>
          BYield response (mkPagesLocals (next_link response) [] w)
      | (inr err, w) =>
          BThrow err (mkPagesLocals (pages_url locals) (pages_queryParams locals) w)
      end
  end.

Definition listPages (this : t) (endpoint : string) (queryParams : QueryParams)
    (options : RequestOptions) (w : World)
  : ExtendedGenerator.t CanvasApiError.t CanvasApiResponse.t PagesLocals :=
  ExtendedGenerator.mk
    (spawn (listPages_body this options) (mkPagesLocals (Some endpoint) queryParams w)).

(** The generator of [listItems]: the elements of the current page still
    to be yielded by the inner [for], and the generator the
    [for await] draws pages from. *)
Definition ItemsLocals (L : Type) : Type :=
  (list Json * Generator CanvasApiError.t CanvasApiResponse.t L)%type.

Definition listItems_body {L} (locals : ItemsLocals L)
  : BodyStep CanvasApiError.t Json (ItemsLocals L) :=
  let (elements, pages) := locals in
  match elements with
  | element :: elements' => BYield element (elements', pages)
  | [] =>
      match pull pages with
      | PTau pages' => BTau ([], pages')
      | PValue page pages' =>
          match isArray (CanvasApiResponse.json page) with
          | Some elements => BTau (elements, pages')
          | None => BThrow (CanvasApiPaginationError page) ([], gen_return pages')
          end
      | PDone pages' => BReturn ([], pages')
      | PThrow e pages' => BThrow e ([], pages')
      end
  end.

(** [listItems] over the pages of any page generator. *)
Definition items_of {L} (pages : ExtendedGenerator.t CanvasApiError.t CanvasApiResponse.t L)
  : ExtendedGenerator.t CanvasApiError.t Json (ItemsLocals L) :=
  ExtendedGenerator.mk (spawn listItems_body ([], generator pages)).

Definition listItems (this : t) (endpoint : string) (queryParams : QueryParams)
    (options : RequestOptions) (w : World)
  : ExtendedGenerator.t CanvasApiError.t Json (ItemsLocals PagesLocals) :=
  items_of (listPages this endpoint queryParams options w).

(** [request]: [GET] is refused. *)
Definition request (this : t) (endpoint method : string) (body : BodyArgument)
    (options : RequestOptions) (w : World)
  : (CanvasApiResponse.t + CanvasApiError.t) * World :=
  if String.eqb method "GET" then
    (inr (Thrown (TypeError
       "HTTP GET not allowed for this 'request' method. Use the methods 'get', 'listPages' or 'listItems' instead")),
     w)
  else _request this endpoint method None body options w.

(** [get] *)
Definition get_ (this : t) (endpoint : string) (queryParams : QueryParams)
    (options : RequestOptions) (w : World)
  : (CanvasApiResponse.t + CanvasApiError.t) * World :=
  _request this endpoint "GET" (Some queryParams) NoBody options w.

(** [sisImport]: [File] objects, and the form that [new FormData()]
    followed by [formData.set("attachment", attachment)] builds. *)
Variable File : Type.
Variable FormData_attachment : File -> FormData.

Definition sisImport (this : t) (attachment : File) (w : World)
  : (CanvasApiResponse.t + CanvasApiError.t) * World :=
  let formData := FormData_attachment attachment in
  _request this "accounts/1/sis_imports" "POST" None (Form formData)
    (mkRequestOptions None) w.

End Client.

(** *** Recording the requests of a traversal *)

Section Recording.
Variable URL : Type.
Variable new_URL : string -> option URL -> URL + JSError.
Variable URL_toString : URL -> string.
Variable JSON_parse : string -> Json + JSError.
Variable FormData : Type.
Variable number : Type.
Variable String_number : number -> string.
Variable World : Type.
Variable send : RequestFunction -> World -> Request FormData
                -> (ResponseData + JSError) * World.

(** A request and what it settled with. *)
Definition Exchange : Type := (Request FormData * (ResponseData + JSError))%type.

(** [send], keeping a record of every exchange. *)
Definition recording (f : RequestFunction) (w : list Exchange * World)
    (req : Request FormData) : (ResponseData + JSError) * (list Exchange * World) :=
  let (outcome, w') := send f (snd w) req in
  (outcome, (fst w ++ [(req, outcome)], w')).

Variable this : t URL.

(** The request goes to [target], resolved against the base URL, with
    [query] behind it. *)
Definition request_to (target query : string) (req : Request FormData) : Prop :=
  exists resolved,
    new_URL target (Some (apiUrl URL this)) = inl resolved
    /\ url FormData req = (URL_toString resolved ++ query)%string.

(** Every request of [log] goes to the URL of the [next] link of the
    response before it, with nothing appended. *)
Fixpoint follows_links (previous : ResponseData + JSError) (log : list Exchange)
  : Prop :=
  match log with
  | [] => True
  | (req, outcome) :: log' =>
      (exists page target,
          receive JSON_parse previous = inl page
          /\ next_link page = Some target
          /\ request_to target "" req)
      /\ follows_links outcome log'
  end.

(** The first request goes to the endpoint with the serialized query
    parameters; the others follow the links. *)
Definition traversal_log (endpoint : string)
    (queryParams : QueryString.QueryParams number) (log : list Exchange) : Prop :=
  match log with
  | [] => True
  | (req, outcome) :: log' =>
      request_to endpoint
        (QueryString.stringifyQueryParameters number String_number queryParams) req
      /\ follows_links outcome log'
  end.

Variable unknown : Type.
Variable is_string : unknown -> bool.
Variable JSON_stringify : unknown -> option string + JSError.
Variable AbortSignal_timeout_error : Z -> option JSError.
Variable endpoint : string.
Variable queryParams : QueryString.QueryParams number.
Variable options : RequestOptions.

(** The invariant of the generator of [listPages] run over [recording]:
    the record is a traversal, and a suspended generator is either about to
    make its first request, to the endpoint with the query parameters, or
    about to follow the link of the page it yielded last, with no
    parameters. *)
Definition consistent
    (g : Generator CanvasApiError.t CanvasApiResponse.t
           (PagesLocals number (list Exchange * World))) : Prop :=
  body g
  = listPages_body URL new_URL URL_toString JSON_parse unknown is_string JSON_stringify AbortSignal_timeout_error
      FormData number String_number (list Exchange * World) recording this options
  /\ traversal_log endpoint queryParams (fst (pages_world _ _ (frame g)))
  /\ (status g = Suspended ->
      (fst (pages_world _ _ (frame g)) = []
       /\ pages_url _ _ (frame g) = Some endpoint
       /\ pages_queryParams _ _ (frame g) = queryParams)
      \/ (exists log req outcome page,
            fst (pages_world _ _ (frame g)) = log ++ [(req, outcome)]
            /\ receive JSON_parse outcome = inl page
            /\ pages_url _ _ (frame g) = next_link page
            /\ pages_queryParams _ _ (frame g) = [])).
End Recording.

(** *** Pages and their elements *)

(** The elements of a page whose body is a list. *)
Definition elements_of (page : CanvasApiResponse.t) : list Json :=
  match isArray (CanvasApiResponse.json page) with
  | Some elements => elements
  | None => []
  end.

Definition is_list (page : CanvasApiResponse.t) : Prop :=
  isArray (CanvasApiResponse.json page) <> None.

(** The generator of [listItems] in the middle of a run. *)
Definition items_at {L} (elements : list Json)
    (pages : Generator CanvasApiError.t CanvasApiResponse.t L) (n : nat)
  : Generator CanvasApiError.t Json (ItemsLocals L) :=
  mkGenerator listItems_body Suspended (elements, pages) n.

End CanvasApi.

(** ** The mock server of canvasApi.test.ts *)

Module TestServer.
Import Undici CanvasApiResponse CanvasApi.

(** [new URL(endpoint, base).toString()] on the URLs of the tests: an
    absolute [https:] URL stands for itself, anything else is appended to
    the base. *)
Definition new_URL (input : string) (base : option string) : string + JSError :=
  if String.prefix "https://" input then inl input
  else match base with
       | Some b => inl (b ++ input)%string
       | None => inr (TypeError "Invalid URL")
       end.

(** [JSON.parse] on the bodies the mock server sends. *)
Definition JSON_parse (text : string) : Json + JSError :=
  if String.eqb text "[1,2,3]" then inl (JArray [JNumber 1; JNumber 2; JNumber 3])
  else if String.eqb text "[4,5]" then inl (JArray [JNumber 4; JNumber 5])
  else if String.eqb text "{}" then inl (JObject [])
  else inr (mkError true false "SyntaxError" (Some "Unexpected token")).

Definition link_next (target : string) : Headers :=
  [("link", LinkHeader.One (LinkHeader.render_entry (target, "next")))].

(** The interceptors: [courses/page1] and [page2], [assignments/page1] and
    [page2] with their query strings, and an endpoint answering with a
    single object. *)
Definition reply (url : string) : ResponseData :=
  if String.eqb url "https://canvas.local/courses/page1" then
    arrived 200 (link_next "https://canvas.local/courses/page2") "[1,2,3]"
  else if String.eqb url "https://canvas.local/courses/page2" then
    arrived 200 [] "[4,5]"
  else if String.eqb url "https://canvas.local/assignments/page1?arg=1" then
    arrived 200 (link_next "https://canvas.local/assignments/page2?other=2") "[1,2,3]"
  else if String.eqb url "https://canvas.local/assignments/page2?other=2" then
    arrived 200 [] "[4,5]"
  else if String.eqb url "https://canvas.local/accounts/1" then
    arrived 200 [] "{}"
  else arrived 404 [] "".

Definition Request : Type := CanvasApi.Request unit.

(** The world is the list of requests made so far. *)
Definition send (_ : RequestFunction) (w : list Request) (req : Request)
  : (ResponseData + JSError) * list Request :=
  (inl (reply (url unit req)), w ++ [req]).

Definition canvas : CanvasApi.t string :=
  mkClient string undiciRequest "https://canvas.local/" "" (mkRequestOptions None).

(** A client with a timeout of five seconds. *)
Definition patient : CanvasApi.t string :=
  mkClient string undiciRequest "https://canvas.local/" ""
    (mkRequestOptions (Some (Some 5000%Z))).

(** An [AbortSignal.timeout] that refuses the negative delays. *)
Definition AbortSignal_timeout_error (ms : Z) : option JSError :=
  if (ms <? 0)%Z
  then Some (mkError true false "RangeError" (Some "The value of delay is out of range"))
  else None.

(** The traversals of the tests serialize no body and set no timeout:
    [JSON.stringify] and [AbortSignal.timeout] are not reached in
    them. *)
Definition listItems (endpoint : string) (queryParams : QueryString.QueryParams Z) :=
  CanvasApi.listItems string new_URL (fun u => u) JSON_parse unit (fun _ => false)
    (fun _ => inl (Some "null")) (fun _ => None) unit Z QueryString.String_Z (list Request) send
    canvas endpoint queryParams (mkRequestOptions None) [].

Definition listPages (endpoint : string) (queryParams : QueryString.QueryParams Z) :=
  CanvasApi.listPages string new_URL (fun u => u) JSON_parse unit (fun _ => false)
    (fun _ => inl (Some "null")) (fun _ => None) unit Z QueryString.String_Z (list Request) send
    canvas endpoint queryParams (mkRequestOptions None) [].

(** The two pages of [courses/page1] as the client parses them. *)
Definition page1 : CanvasApiResponse.t :=
  CanvasApiResponse.mk 200 (link_next "https://canvas.local/courses/page2")
    (Some (JArray [JNumber 1; JNumber 2; JNumber 3]))
    (Some (JArray [JNumber 1; JNumber 2; JNumber 3])) "[1,2,3]" None.

Definition page2 : CanvasApiResponse.t :=
  CanvasApiResponse.mk 200 [] (Some (JArray [JNumber 4; JNumber 5]))
    (Some (JArray [JNumber 4; JNumber 5])) "[4,5]" None.

(** The page of the endpoint that answers with a single object. *)
Definition account_page : CanvasApiResponse.t :=
  CanvasApiResponse.mk 200 [] (Some (JObject [])) (Some (JObject [])) "{}" None.

End TestServer.

(* ================================================================== *)
(** * Part II. Properties                                              *)
(* ================================================================== *)

Module GeneratorFacts.
Import ExtendedGenerator.

Example toArray_123 :
  fst (toArray (E := unit) 5 (yields [1; 2; 3])) = Fulfilled [1; 2; 3].
Proof. reflexivity. Qed.

Example filter_map_take :
  fst (toArray (E := unit) 9
         (take 2 (map (fun n => n * 10) (filter Nat.odd (yields [1; 2; 3; 4; 5])))))
  = Fulfilled [10; 30].
Proof. reflexivity. Qed.

Example take_zero_of_thrower :
  fst (toArray 3 (throws (T := nat) "boom")) = Rejected "boom"
  /\ fst (toArray 3 (take 0 (throws (T := nat) "boom"))) = Fulfilled []
  /\ fst (toArray 3 (take 0 (filter (fun _ => true) (throws (T := nat) "boom"))))
     = Fulfilled [].
Proof. repeat split. Qed.

Section Runs.
Context {E T L : Type}.
Implicit Types (g : Generator E T L) (xs : list T) (ending : Ending E).

Lemma pull_done_completed g g' : pull g = PDone g' -> status g' = Completed.
Proof.
  unfold pull. destruct (status g) eqn:Hs.
  - destruct (body g (frame g)); intros H; inversion H; reflexivity.
  - intros H; inversion H; subst; assumption.
Qed.

Lemma pull_throw_completed g e g' : pull g = PThrow e g' -> status g' = Completed.
Proof.
  unfold pull. destruct (status g) eqn:Hs.
  - destruct (body g (frame g)); intros H; inversion H; reflexivity.
  - discriminate.
Qed.

Lemma pull_completed g : status g = Completed -> pull g = PDone g.
Proof. unfold pull; intros ->; reflexivity. Qed.

Lemma Yields_app g g1 g2 xs ys ending :
  Yields g xs Continues g1 -> Yields g1 ys ending g2 -> Yields g (xs ++ ys) ending g2.
Proof.
  intros H. remember Continues as c eqn:Hc. revert Hc.
  induction H; intros Hc H2; try discriminate; simpl.
  - assumption.
  - eapply Yields_tau; eauto.
  - eapply Yields_value; eauto.
Qed.

(** A run that is not cut leaves the generator completed. *)
Lemma yields_completed g xs ending g' :
  Yields g xs ending g' -> ending <> Continues -> status g' = Completed.
Proof.
  induction 1; intros Hne;
    eauto using pull_done_completed, pull_throw_completed; congruence.
Qed.

(** [next()] at the end of a run. *)
Lemma yields_nil_next g xs ending g' :
  Yields g xs ending g' -> xs = [] ->
  exists k, forall fuel, k <= fuel ->
    match ending with
    | Ends => gen_next fuel g = (Fulfilled IDone, g')
    | Fails e => gen_next fuel g = (Rejected e, g')
    | Continues => True
    end.
Proof.
  induction 1 as [g | g g' Hp | g e g' Hp | g g1 xs ending g' Hp _ IH
                 | g v g1 xs ending g' Hp _ _]; intros Hxs.
  - exists 0. trivial.
  - exists 1. intros [|fuel] Hk; [lia|]. simpl. rewrite Hp. reflexivity.
  - exists 1. intros [|fuel] Hk; [lia|]. simpl. rewrite Hp. reflexivity.
  - destruct (IH Hxs) as [k Hk]. exists (S k).
    intros [|fuel] Hle; [lia|]. simpl. rewrite Hp. apply Hk. lia.
  - discriminate.
Qed.

(** [next()] in front of an element. *)
Lemma yields_cons_next g xs ending g' :
  Yields g xs ending g' -> forall x rest, xs = x :: rest ->
  exists k g1,
    Yields g1 rest ending g' /\
    forall fuel, k <= fuel -> gen_next fuel g = (Fulfilled (IValue x), g1).
Proof.
  induction 1 as [g | g g' Hp | g e g' Hp | g g1 xs ending g' Hp _ IH
                 | g v g1 xs ending g' Hp Hrest _]; intros x rest Hxs;
    try discriminate.
  - destruct (IH x rest Hxs) as (k & g2 & Hem & Hk). exists (S k), g2.
    split; [assumption|].
    intros [|fuel] Hle; [lia|]. simpl. rewrite Hp. apply Hk. lia.
  - inversion Hxs; subst. exists 1, g1. split; [assumption|].
    intros [|fuel] Hle; [lia|]. simpl. rewrite Hp. reflexivity.
Qed.

(** What the loop of [toArray] makes of a run: the elements when the run
    ends, the error when it fails. *)
Lemma yields_toArray_loop xs : forall g ending g',
  Yields g xs ending g' ->
  exists k, forall fuel rounds acc,
    k <= fuel -> List.length xs < rounds ->
    match ending with
    | Ends => toArray_loop fuel rounds g acc = (Fulfilled (acc ++ xs), g')
    | Fails e => toArray_loop fuel rounds g acc = (Rejected e, g')
    | Continues => True
    end.
Proof.
  induction xs as [|x rest IH]; intros g ending g' Hy.
  - destruct (yields_nil_next _ _ _ _ Hy eq_refl) as [k Hk]. exists k.
    intros fuel [|rounds] acc Hf Hr; [simpl in Hr; lia|].
    specialize (Hk fuel Hf). simpl.
    destruct ending; [rewrite Hk, app_nil_r | rewrite Hk | ]; trivial.
  - destruct (yields_cons_next _ _ _ _ Hy x rest eq_refl) as (k & g1 & Hy1 & Hk).
    destruct (IH g1 ending g' Hy1) as [k' Hk'].
    exists (Nat.max k k').
    intros fuel [|rounds] acc Hf Hr; [simpl in Hr; lia|].
    simpl. rewrite (Hk fuel) by lia.
    specialize (Hk' fuel rounds (acc ++ [x])).
    destruct ending; try rewrite <- app_assoc in Hk'; trivial;
      apply Hk'; simpl in Hr; lia.
Qed.

Lemma completed_toArray_loop g fuel rounds acc :
  status g = Completed ->
  toArray_loop (S fuel) (S rounds) g acc = (Fulfilled acc, g).
Proof. intros Hs. simpl. rewrite (pull_completed _ Hs). reflexivity. Qed.
End Runs.

(** The generator [yield x1; ...; yield xn] yields [x1 ... xn] and ends. *)
Lemma yields_run {E T} (xs : list T) (n : nat) :
  Yields (E := E) (mkGenerator yields_body Suspended xs n) xs Ends
         (mkGenerator yields_body Completed [] (S (n + List.length xs))).
Proof.
  revert n. induction xs as [|x rest IH]; intros n.
  - apply Yields_done. unfold pull; simpl. rewrite Nat.add_0_r. reflexivity.
  - eapply Yields_value; [reflexivity|]. simpl.
    replace (S (n + S (List.length rest))) with (S (S n + List.length rest)) by lia.
    apply IH.
Qed.

(** C6. Draining [take(0)] gives the empty list and leaves the upstream
    generator exactly as it was, never resumed, whatever its body would
    do when resumed (throw, yield, change its locals); the same holds for
    the upstream of a [filter] placed under [take(0)], and the [filter]
    generator itself is never resumed either. *)
Theorem take_zero_never_invokes_upstream {E T L}
    (up : t E T L) (predicate : T -> bool) (fuel : nat) :
  let direct := toArray (S fuel) (take 0 up) in
  let chained := toArray (S fuel) (take 0 (filter predicate up)) in
  fst direct = Fulfilled []
  /\ snd (frame (generator (snd direct))) = generator up
  /\ fst chained = Fulfilled []
  /\ snd (frame (generator (snd chained))) = generator (filter predicate up)
  /\ resumptions (snd (frame (generator (snd chained)))) = 0
  /\ frame (snd (frame (generator (snd chained)))) = generator up.
Proof. cbv zeta. repeat split. Qed.

(** C7. A sequence is single-pass: when the underlying generator yields
    [x :: rest] and then finishes, one manual [next()] returns [x], a
    following [toArray()] returns exactly [rest], and a further
    [toArray()] on the exhausted sequence returns the empty list. *)
Theorem toArray_does_not_restart {E T L}
    (this : t E T L) (x : T) (rest : list T) (g_end : Generator E T L) :
  Yields (generator this) (x :: rest) Ends g_end ->
  exists k, forall fuel, k <= fuel ->
    exists this1,
      next fuel this = (Fulfilled (IValue x), this1)
      /\ toArray fuel this1 = (Fulfilled rest, mk g_end)
      /\ toArray fuel (mk g_end) = (Fulfilled [], mk g_end).
Proof.
  intros Hy.
  destruct (yields_cons_next _ _ _ _ Hy x rest eq_refl) as (k & g1 & Hy1 & Hk).
  destruct (yields_toArray_loop rest g1 Ends g_end Hy1) as [k' Hk'].
  exists (Nat.max (Nat.max k k') (S (List.length rest))).
  intros fuel Hf. exists (mk g1). repeat split.
  - unfold next. rewrite Hk by lia. reflexivity.
  - unfold toArray. simpl generator. rewrite (Hk' fuel fuel []) by lia. reflexivity.
  - unfold toArray. simpl generator.
    destruct fuel as [|fuel]; [lia|].
    rewrite completed_toArray_loop; [reflexivity|].
    eapply yields_completed; [eassumption | discriminate].
Qed.

Lemma toArray_does_not_restart_witness :
  exists k, forall fuel, k <= fuel ->
    exists this1,
      next fuel (yields (E := string) [1; 2; 3]) = (Fulfilled (IValue 1), this1)
      /\ toArray fuel this1
         = (Fulfilled [2; 3], mk (mkGenerator yields_body Completed [] 4))
      /\ toArray (E := string) (T := nat) fuel (mk (mkGenerator yields_body Completed [] 4))
         = (Fulfilled [], mk (mkGenerator yields_body Completed [] 4)).
Proof.
  apply (toArray_does_not_restart (yields [1; 2; 3]) 1 [2; 3]).
  apply (yields_run [1; 2; 3] 0).
Defined.

End GeneratorFacts.

(** ** Facts about strings used below *)

Module StringFacts.

Lemma append_assoc (a b c : string) : ((a ++ b) ++ c = a ++ (b ++ c))%string.
Proof. induction a as [|x a IH]; simpl; [reflexivity | now rewrite IH]. Qed.

Lemma append_nil_r (a : string) : (a ++ "")%string = a.
Proof. induction a as [|x a IH]; simpl; [reflexivity | now rewrite IH]. Qed.

Lemma chars_append (a b : string) :
  list_ascii_of_string (a ++ b) = list_ascii_of_string a ++ list_ascii_of_string b.
Proof. induction a as [|x a IH]; simpl; [reflexivity | now rewrite IH]. Qed.

Lemma append_eq_nil (a b : string) : (a ++ b)%string = "" -> a = "" /\ b = "".
Proof. destruct a; simpl; [auto | discriminate]. Qed.

End StringFacts.

Module QueryStringFacts.
Import QueryString StringFacts.

Lemma percent_encode_safe (c : ascii) :
  forallb uri_safe (list_ascii_of_string (percent_encode c)) = true.
Proof.
  destruct c as [b0 b1 b2 b3 b4 b5 b6 b7].
  destruct b0, b1, b2, b3, b4, b5, b6, b7; vm_compute; reflexivity.
Qed.

Lemma encodeURIComponent_safe (s : string) :
  forallb uri_safe (list_ascii_of_string (encodeURIComponent s)) = true.
Proof.
  induction s as [|c s IH]; simpl; [reflexivity|].
  rewrite chars_append, forallb_app, IH, andb_true_r.
  destruct (is_unreserved c) eqn:Hc.
  - simpl. unfold uri_safe. rewrite Hc. reflexivity.
  - apply percent_encode_safe.
Qed.

Section WithNumbers.
Variable number : Type.
Variable String_number : number -> string.

Local Abbreviation String_ := (String_ number String_number).
Local Abbreviation spec_pairs := (spec_pairs number String_number).

Lemma push_array_spec key vs : forall keyValues,
  push_array number String_number key keyValues vs
  = keyValues
      ++ List.map render_pair (spec_pairs (key, Array vs)).
Proof.
  unfold push_array, QueryString.spec_pairs; simpl.
  induction vs as [|v vs IH]; intros keyValues; simpl.
  - now rewrite app_nil_r.
  - rewrite IH, <- app_assoc. simpl. unfold render_pair at 2; simpl.
    now rewrite append_assoc.
Qed.

Lemma collect_keyValues_from parameters : forall keyValues,
  fold_left
    (fun keyValues (property : string * Value number) =>
       let (key, value) := property in
       match value with
       | Array vs => push_array number String_number key keyValues vs
       | Single v =>
           keyValues
             ++ [(encodeURIComponent key ++ "=" ++ encodeURIComponent (String_ v))%string]
       end)
    parameters keyValues
  = keyValues ++ List.map render_pair (flat_map spec_pairs parameters).
Proof.
  induction parameters as [|[key value] parameters IH]; intros keyValues; simpl.
  - now rewrite app_nil_r.
  - rewrite IH. destruct value as [v|vs].
    + rewrite <- app_assoc. reflexivity.
    + rewrite push_array_spec, List.map_app, <- app_assoc. reflexivity.
Qed.

Lemma collect_keyValues_spec parameters :
  collect_keyValues number String_number parameters
  = List.map render_pair (flat_map spec_pairs parameters).
Proof. unfold collect_keyValues. now rewrite collect_keyValues_from. Qed.

Lemma stringify_refines_spec parameters :
  stringifyQueryParameters number String_number parameters
  = spec_query_string number String_number parameters.
Proof.
  unfold stringifyQueryParameters, spec_query_string, spec_render, JSString.join.
  rewrite collect_keyValues_spec.
  destruct (flat_map spec_pairs parameters); reflexivity.
Qed.

Lemma no_pairs_iff parameters :
  flat_map spec_pairs parameters = []
  <-> (forall key value, In (key, value) parameters -> value = Array []).
Proof.
  induction parameters as [|[key value] parameters IH]; simpl.
  - split; [intros _ ? ? [] | reflexivity].
  - split.
    + intros H. apply app_eq_nil in H as [H1 H2].
      intros k v [Heq | Hin].
      * inversion Heq; subst.
        destruct v as [v|[|v vs]]; [discriminate H1 | reflexivity | discriminate H1].
      * apply (proj1 IH H2 k v Hin).
    + intros H. rewrite (proj2 IH) by (intros; eapply H; eauto).
      rewrite (H key value) by auto. reflexivity.
Qed.
End WithNumbers.

(** C4. [stringifyQueryParameters] computes the serialization the
    specification describes: array parameters become repeated
    [key[]=value] pairs in element order, scalars [key=value], joined by
    [&] behind one [?]; an encoded key or value consists of unreserved
    characters and [%] only; the result is the empty string exactly when
    no parameter produces a pair (every parameter is an empty array); and
    the three documented examples evaluate as documented. *)
Theorem stringifyQueryParameters_spec
    (number : Type) (String_number : number -> string)
    (parameters : QueryParams number) :
  stringifyQueryParameters number String_number parameters
    = spec_query_string number String_number parameters
  /\ (forall s c, In c (list_ascii_of_string (encodeURIComponent s)) ->
        is_unreserved c = true \/ c = "%"%char)
  /\ (stringifyQueryParameters number String_number parameters = ""
      <-> forall key value, In (key, value) parameters -> value = Array [])
  /\ stringifyQueryParameters Z String_Z
       [("page", Single (Num 1%Z)); ("id", Single (Str "2"))] = "?page=1&id=2"
  /\ stringifyQueryParameters Z String_Z [] = ""
  /\ stringifyQueryParameters Z String_Z [("role", Array [Num 3%Z; Num 10%Z])]
     = "?role[]=3&role[]=10".
Proof.
  split; [apply stringify_refines_spec|].
  split.
  { intros s c Hin.
    pose proof (encodeURIComponent_safe s) as Hs.
    rewrite forallb_forall in Hs. specialize (Hs c Hin).
    unfold uri_safe in Hs. apply orb_true_iff in Hs as [Hs | Hs]; [now left|].
    right. now apply Ascii.eqb_eq in Hs. }
  split.
  { rewrite stringify_refines_spec, <- (no_pairs_iff number String_number).
    unfold spec_query_string, spec_render.
    destruct (flat_map (QueryString.spec_pairs number String_number) parameters);
      split; intros H; [reflexivity | reflexivity | discriminate | discriminate]. }
  repeat split; vm_compute; reflexivity.
Qed.

Example stringify_encodes_special_characters :
  stringifyQueryParameters Z String_Z
    [("search", Single (Str "hello world")); ("filter", Single (Str "a&b=c"))]
  = "?search=hello%20world&filter=a%26b%3Dc"
  /\ stringifyQueryParameters Z String_Z
       [("my key", Single (Str "value")); ("another&key", Single (Str "test"))]
     = "?my%20key=value&another%26key=test"
  /\ stringifyQueryParameters Z String_Z [("role", Array [])] = "".
Proof. repeat split; vm_compute; reflexivity. Qed.

End QueryStringFacts.

Module LinkHeaderFacts.
Import LinkHeader StringFacts.
Import JSString(lacks).

Lemma lacks_append c a b : lacks c (a ++ b)%string = (lacks c a && lacks c b)%bool.
Proof. induction a as [|x a IH]; simpl; [reflexivity | now rewrite IH, andb_assoc]. Qed.

(** *** [split] undoes [join] *)

Lemma split_no_sep (a : string) :
  lacks "," a = true -> JSString.split "," a = [a].
Proof.
  induction a as [|x a IH]; simpl; [reflexivity|].
  intros H. apply andb_true_iff in H as [Hx Ha].
  apply negb_true_iff in Hx. rewrite Hx, (IH Ha). reflexivity.
Qed.

Lemma split_at_sep (a rest : string) :
  lacks "," a = true ->
  JSString.split "," (a ++ String "," rest)%string = a :: JSString.split "," rest.
Proof.
  induction a as [|x a IH]; simpl; [reflexivity|].
  intros H. apply andb_true_iff in H as [Hx Ha].
  apply negb_true_iff in Hx. rewrite Hx, (IH Ha). reflexivity.
Qed.

Lemma split_join (pad : string) (parts : list string) :
  lacks "," pad = true ->
  Forall (fun p => lacks "," p = true) parts ->
  forall pre part,
    lacks "," pre = true -> lacks "," part = true ->
    JSString.split "," (pre ++ String.concat (String "," pad) (part :: parts))%string
    = (pre ++ part)%string :: List.map (fun p => (pad ++ p)%string) parts.
Proof.
  intros Hpad Hparts. induction Hparts as [|p parts Hp _ IH]; intros pre part Hpre Hpart.
  - simpl. apply split_no_sep. now rewrite lacks_append, Hpre, Hpart.
  - change (String.concat (String "," pad) (part :: p :: parts))
      with (part ++ String "," pad ++ String.concat (String "," pad) (p :: parts))%string.
    change (String "," pad ++ String.concat (String "," pad) (p :: parts))%string
      with (String "," (pad ++ String.concat (String "," pad) (p :: parts)))%string.
    rewrite <- append_assoc.
    rewrite split_at_sep by now rewrite lacks_append, Hpre, Hpart.
    rewrite (IH pad p Hpad Hp). reflexivity.
Qed.

(** *** [endsWith] *)

Lemma endsWith_iff (suffix s : string) :
  JSString.endsWith suffix s = true <-> exists p, s = (p ++ suffix)%string.
Proof.
  induction s as [|x s IH]; cbn [JSString.endsWith].
  - rewrite orb_false_r, String.eqb_eq. split.
    + intros <-. now exists ""%string.
    + intros [p Hp]. symmetry in Hp. now apply append_eq_nil in Hp as [_ ->].
  - rewrite orb_true_iff, String.eqb_eq, IH. split.
    + intros [<- | [p ->]]; [now exists ""%string | now exists (String x p)].
    + intros [[|y p] Hp]; simpl in Hp; [now left | right].
      inversion Hp; subst. now exists p.
Qed.

Lemma first_occurrence {A} (q : A) (l1 l2 r1 r2 : list A) :
  ~ In q l1 -> ~ In q l2 -> l1 ++ q :: r1 = l2 ++ q :: r2 -> l1 = l2.
Proof.
  revert l2. induction l1 as [|a l1 IH]; intros [|b l2] H1 H2 Heq; simpl in *.
  - reflexivity.
  - inversion Heq; subst. exfalso. apply H2. now left.
  - inversion Heq; subst. exfalso. apply H1. now left.
  - inversion Heq; subst. f_equal. eapply IH; eauto.
Qed.

Lemma chars_inj (a b : string) :
  list_ascii_of_string a = list_ascii_of_string b -> a = b.
Proof.
  intros H. rewrite <- (string_of_list_ascii_of_string a),
    <- (string_of_list_ascii_of_string b). now rewrite H.
Qed.

Lemma rel_chars_no_quote (rel : string) :
  forallb rel_char (list_ascii_of_string rel) = true ->
  ~ In dq (list_ascii_of_string rel).
Proof.
  rewrite forallb_forall. intros H Hin. specialize (H _ Hin).
  unfold rel_char in H. now rewrite Ascii.eqb_refl in H.
Qed.

(** A segment that ends with an entry ends with [rel="next"] exactly when
    the entry's relation is [next]. *)
Lemma search_rel_next_entry (pad : string) (entry : string * string) :
  forallb rel_char (list_ascii_of_string (snd entry)) = true ->
  search_rel_next (pad ++ render_entry entry)%string = String.eqb (snd entry) "next".
Proof.
  destruct entry as [url rel]; simpl snd. intros Hrel.
  unfold search_rel_next.
  destruct (String.eqb_spec rel "next") as [-> | Hne].
  - apply endsWith_iff. exists (pad ++ "<" ++ url ++ ">; ")%string.
    unfold render_entry, rel_next; simpl fst; simpl snd.
    rewrite !append_assoc. reflexivity.
  - destruct (JSString.endsWith rel_next (pad ++ render_entry (url, rel))) eqn:He;
      [exfalso | reflexivity].
    apply endsWith_iff in He as [p Hp]. apply Hne.
    apply (f_equal list_ascii_of_string) in Hp.
    unfold render_entry, rel_next, quoted in Hp; simpl fst in Hp; simpl snd in Hp.
    rewrite !chars_append in Hp. simpl in Hp. rewrite !chars_append in Hp. simpl in Hp.
    apply (f_equal (@rev ascii)) in Hp.
    repeat (rewrite ?rev_app_distr in Hp; simpl in Hp).
    rewrite <- !app_assoc in Hp. simpl in Hp.
    inversion Hp as [Hq]. clear Hp.
    apply (first_occurrence dq (rev (list_ascii_of_string rel)) ["t"; "x"; "e"; "n"]%char)
      in Hq.
    + apply chars_inj. rewrite <- (rev_involutive (list_ascii_of_string rel)), Hq.
      reflexivity.
    + rewrite <- in_rev. now apply rel_chars_no_quote.
    + unfold dq. simpl. intros [H|[H|[H|[H|[]]]]]; discriminate H.
Qed.

(** *** The [<(.*?)>] match *)

Lemma url_char_facts (c : ascii) (s : string) :
  url_char c = true ->
  Ascii.eqb c ">" = false /\ Ascii.eqb c "," = false
  /\ starts_with_line_terminator (String c s) = false.
Proof.
  destruct c as [b0 b1 b2 b3 b4 b5 b6 b7].
  destruct b0, b1, b2, b3, b4, b5, b6, b7;
    intros H; try discriminate H; repeat split.
Qed.

Lemma lazy_until_gt_url (url rest : string) :
  forallb url_char (list_ascii_of_string url) = true ->
  lazy_until_gt (url ++ String ">" rest)%string = Some url.
Proof.
  induction url as [|c url IH]; simpl; [reflexivity|].
  intros H. apply andb_true_iff in H as [Hc Hu].
  destruct (url_char_facts c (url ++ String ">" rest) Hc) as (Hgt & _ & Hlt).
  rewrite Hgt. unfold starts_with_line_terminator in Hlt. simpl in Hlt.
  unfold starts_with_line_terminator. simpl. rewrite Hlt.
  now rewrite (IH Hu).
Qed.

Lemma match_angle_skip (pad s : string) :
  lacks "<" pad = true -> match_angle (pad ++ s)%string = match_angle s.
Proof.
  induction pad as [|c pad IH]; simpl; [reflexivity|].
  intros H. apply andb_true_iff in H as [Hc Hp].
  apply negb_true_iff in Hc. rewrite Hc. now apply IH.
Qed.

Lemma match_angle_entry (pad : string) (entry : string * string) :
  lacks "<" pad = true ->
  forallb url_char (list_ascii_of_string (fst entry)) = true ->
  match_angle (pad ++ render_entry entry)%string = Some (fst entry).
Proof.
  intros Hpad Hurl. rewrite (match_angle_skip _ _ Hpad).
  unfold render_entry. simpl.
  change (fst entry ++ String ">" (String ";" (String " " (String "r" (String "e"
            (String "l" (String "=" (quoted (snd entry)))))))))%string
    with (fst entry ++ String ">" ("; rel=" ++ quoted (snd entry)))%string.
  now rewrite lazy_until_gt_url.
Qed.

Lemma render_entry_lacks_comma (entry : string * string) :
  plain_entry entry = true -> lacks "," (render_entry entry) = true.
Proof.
  destruct entry as [url rel]. unfold plain_entry, render_entry, quoted; simpl.
  intros H. apply andb_true_iff in H as [Hu Hr].
  rewrite lacks_append. simpl. rewrite lacks_append. simpl.
  assert (lacks "," url = true) as ->.
  { induction url as [|c url IH]; simpl in *; [reflexivity|].
    apply andb_true_iff in Hu as [Hc Hu].
    destruct (url_char_facts c "" Hc) as (_ & Hcomma & _).
    now rewrite Hcomma, (IH Hu). }
  assert (lacks "," rel = true) as ->.
  { induction rel as [|c rel IH]; simpl in *; [reflexivity|].
    apply andb_true_iff in Hr as [Hc Hr]. unfold rel_char in Hc.
    apply andb_true_iff in Hc as [_ Hc]. now rewrite Hc, (IH Hr). }
  reflexivity.
Qed.

Lemma scan_cons_entry (pad : string) (entry : string * string) (segments : list string) :
  lacks "<" pad = true -> plain_entry entry = true ->
  scan ((pad ++ render_entry entry)%string :: segments)
  = if String.eqb (snd entry) "next" then Some (fst entry) else scan segments.
Proof.
  intros Hpad He. unfold plain_entry in He. apply andb_true_iff in He as [Hu Hr].
  unfold scan. simpl find. rewrite (search_rel_next_entry pad entry Hr).
  destruct (String.eqb (snd entry) "next"); [|reflexivity].
  rewrite <- (match_angle_entry pad entry Hpad Hu).
  destruct pad; reflexivity.
Qed.

Lemma scan_entries (pad : string) (entries : list (string * string)) :
  lacks "<" pad = true ->
  forallb plain_entry entries = true ->
  scan (List.map (fun p => (pad ++ p)%string) (List.map render_entry entries))
  = spec_next_url entries.
Proof.
  intros Hpad. induction entries as [|e entries IH]; simpl; [reflexivity|].
  intros H. apply andb_true_iff in H as [He Hes].
  rewrite (scan_cons_entry pad e _ Hpad He). unfold spec_next_url. simpl.
  destruct (String.eqb (snd e) "next"); [reflexivity|]. now apply IH.
Qed.

Lemma getNextUrl_joined (pad : string) (entries : list (string * string)) :
  lacks "," pad = true -> lacks "<" pad = true ->
  forallb plain_entry entries = true ->
  getNextUrl (One (JSString.join (String "," pad) (List.map render_entry entries)))
  = spec_next_url entries.
Proof.
  intros Hc Ha Hes. unfold getNextUrl. fold (scan (JSString.split ","
    (JSString.join (String "," pad) (List.map render_entry entries)))).
  destruct entries as [|e entries]; [reflexivity|].
  simpl in Hes. apply andb_true_iff in Hes as [He Hes].
  unfold JSString.join. simpl List.map.
  assert (Forall (fun p => lacks "," p = true) (List.map render_entry entries)) as Hparts.
  { rewrite Forall_forall. intros p Hp. apply in_map_iff in Hp as (e' & <- & Hin).
    apply render_entry_lacks_comma. rewrite forallb_forall in Hes. now apply Hes. }
  pose proof (split_join pad _ Hc Hparts ""%string (render_entry e) eq_refl
                (render_entry_lacks_comma e He)) as Hsplit.
  cbn [String.append] in Hsplit. rewrite Hsplit.
  change (render_entry e) with ("" ++ render_entry e)%string at 1.
  rewrite (scan_cons_entry "" e _ eq_refl He).
  unfold spec_next_url. simpl.
  destruct (String.eqb (snd e) "next"); [reflexivity|].
  now apply scan_entries.
Qed.

Example getNextUrl_documented_cases :
  getNextUrl (One (render_entry ("https://x/p2", "next"))) = Some "https://x/p2"
  /\ getNextUrl (One (render_entry ("https://x/p1", "prev"))) = None
  /\ getNextUrl (One (render_entry ("https://x/p2", "blah"))) = None
  /\ getNextUrl (Many [render_entry ("https://canvas.local/array-header/page2", "next");
                       render_entry ("https://canvas.local/array-header/page1", "prev")])
     = Some "https://canvas.local/array-header/page2".
Proof. repeat split; vm_compute; reflexivity. Qed.

(** C5, as stated, fails: the header is cut at every comma, so an entry
    whose relation is exactly [next] but whose URL contains a comma is
    not recognised and no URL is returned. *)
Lemma getNextUrl_comma_in_url :
  spec_next_url [("https://x/p?ids=1,2", "next")] = Some "https://x/p?ids=1,2"
  /\ getNextUrl (One (render_entry ("https://x/p?ids=1,2", "next"))) = None.
Proof. split; vm_compute; reflexivity. Qed.

(** C5, amended.  For a header made of entries [<url>; rel="relation"]
    whose URLs are printable ASCII without [,], [<], [>] and whose
    relations contain no double quote or comma -- given as one string with
    the entries separated by [,] or by [, ], or as a list with one entry
    per value -- [getNextUrl] returns the URL of the first entry whose
    relation is exactly [next], and nothing when there is none; a
    multi-value header is treated as its values joined by [, ]. *)
Theorem getNextUrl_plain_entries (entries : list (string * string)) :
  forallb plain_entry entries = true ->
  getNextUrl (One (JSString.join "," (List.map render_entry entries)))
    = spec_next_url entries
  /\ getNextUrl (One (JSString.join ", " (List.map render_entry entries)))
     = spec_next_url entries
  /\ getNextUrl (Many (List.map render_entry entries)) = spec_next_url entries
  /\ (forall values,
        getNextUrl (Many values) = getNextUrl (One (JSString.join ", " values))).
Proof.
  intros H. split; [|split; [|split]].
  - now apply (getNextUrl_joined "").
  - now apply (getNextUrl_joined " ").
  - now apply (getNextUrl_joined " ").
  - reflexivity.
Qed.

Lemma getNextUrl_plain_entries_witness :
  let entries := [("https://x/p1", "prev"); ("https://x/p2", "next")] in
  getNextUrl (One (JSString.join "," (List.map render_entry entries)))
    = spec_next_url entries
  /\ getNextUrl (One (JSString.join ", " (List.map render_entry entries)))
     = spec_next_url entries
  /\ getNextUrl (Many (List.map render_entry entries)) = spec_next_url entries
  /\ (forall values,
        getNextUrl (Many values) = getNextUrl (One (JSString.join ", " values))).
Proof.
  apply (getNextUrl_plain_entries [("https://x/p1", "prev"); ("https://x/p2", "next")]).
  reflexivity.
Defined.

End LinkHeaderFacts.

Module PaginationFacts.
Import Undici CanvasApiError ExtendedGenerator CanvasApi StringFacts GeneratorFacts.
Import CanvasApiResponse(Json, JArray, JNumber, JObject, isArray).

Section Items.
Context {L : Type}.
Local Abbreviation PageGen := (Generator CanvasApiError.t CanvasApiResponse.t L).

(** The inner [for] yields the elements of the page one after another. *)
Lemma inner_for (elements : list Json) (pages : PageGen) (n : nat) :
  Yields (items_at elements pages n) elements Continues
         (items_at [] pages (n + List.length elements)).
Proof.
  revert n. induction elements as [|x elements IH]; intros n; simpl.
  - rewrite Nat.add_0_r. apply Yields_cut.
  - eapply Yields_value; [reflexivity|].
    replace (n + S (List.length elements)) with (S n + List.length elements) by lia.
    apply IH.
Qed.

Lemma items_follow_pages (pages : PageGen) ps ending (pages' : PageGen) :
  Yields pages ps ending pages' ->
  Forall is_list ps ->
  forall n, exists n',
    Yields (items_at [] pages n) (flat_map elements_of ps) ending
           (mkGenerator listItems_body
              match ending with Continues => Suspended | _ => Completed end
              ([], pages') n').
Proof.
  induction 1 as [g | g g' Hp | g e g' Hp | g g1 xs ending g' Hp _ IH
                 | g v g1 xs ending g' Hp _ IH]; intros Hall n.
  - exists n. apply Yields_cut.
  - exists (S n). apply Yields_done. unfold pull, items_at; simpl. now rewrite Hp.
  - exists (S n). apply Yields_throw. unfold pull, items_at; simpl. now rewrite Hp.
  - destruct (IH Hall (S n)) as [n' Hn']. exists n'.
    eapply Yields_tau; [|exact Hn']. unfold pull, items_at; simpl. now rewrite Hp.
  - inversion Hall as [|? ? Hv Hxs]; subst.
    destruct (IH Hxs (S n + List.length (elements_of v))) as [n' Hn']. exists n'.
    simpl flat_map.
    eapply Yields_tau with (g1 := items_at (elements_of v) g1 (S n)).
    + unfold pull, items_at; simpl. rewrite Hp. unfold elements_of.
      unfold is_list in Hv.
      destruct (isArray (CanvasApiResponse.json v)); [reflexivity | congruence].
    + eapply Yields_app; [apply inner_for | exact Hn'].
Qed.

Lemma items_fail_on_non_list (pages : PageGen) ps (pages1 pages2 : PageGen) page :
  Yields pages ps Continues pages1 ->
  Forall is_list ps ->
  pull pages1 = PValue page pages2 ->
  isArray (CanvasApiResponse.json page) = None ->
  forall n, exists g',
    Yields (items_at [] pages n) (flat_map elements_of ps)
           (Fails (CanvasApiPaginationError page)) g'.
Proof.
  intros Hy Hall Hp Hnot n.
  destruct (items_follow_pages _ _ _ _ Hy Hall n) as [n' Hn'].
  eexists. rewrite <- (app_nil_r (flat_map elements_of ps)).
  eapply Yields_app; [exact Hn'|].
  apply Yields_throw. unfold pull; simpl. rewrite Hp, Hnot. reflexivity.
Qed.
End Items.

(** C3. [listItems] over any sequence of pages: as long as the parsed
    body of every page is a list, the elements of the pages are yielded in
    order, page after page, and the item sequence ends the way the page
    sequence ends; when the next page's parsed body is not a list, the
    item sequence fails at that point with a [CanvasApiPaginationError]
    carrying that page. *)
Theorem listItems_yields_elements_or_fails {L}
    (pages : ExtendedGenerator.t CanvasApiError.t CanvasApiResponse.t L)
    (ps : list CanvasApiResponse.t) (ending : Ending CanvasApiError.t)
    (pages1 : Generator CanvasApiError.t CanvasApiResponse.t L) :
  Yields (generator pages) ps ending pages1 ->
  Forall is_list ps ->
  (exists g', Yields (generator (items_of pages)) (flat_map elements_of ps) ending g')
  /\ (forall page pages2,
        ending = Continues ->
        pull pages1 = PValue page pages2 ->
        isArray (CanvasApiResponse.json page) = None ->
        exists g',
          Yields (generator (items_of pages)) (flat_map elements_of ps)
                 (Fails (CanvasApiPaginationError page)) g').
Proof.
  intros Hy Hall. split.
  - destruct (items_follow_pages _ _ _ _ Hy Hall 0) as [n' Hn']. eexists. exact Hn'.
  - intros page pages2 -> Hp Hnot.
    exact (items_fail_on_non_list _ _ _ _ _ Hy Hall Hp Hnot 0).
Qed.

Lemma listItems_yields_elements_or_fails_witness :
  exists g',
    Yields (generator (TestServer.listItems "courses/page1" []))
           [JNumber 1; JNumber 2; JNumber 3; JNumber 4; JNumber 5] Ends g'.
Proof.
  refine (proj1 (listItems_yields_elements_or_fails
                   (TestServer.listPages "courses/page1" [])
                   [TestServer.page1; TestServer.page2] Ends _ _ _)).
  - eapply Yields_value; [reflexivity|].
    eapply Yields_value; [reflexivity|].
    apply Yields_done. reflexivity.
  - repeat constructor; discriminate.
Defined.

(** The two documented runs: the two-page resource collects to
    [[1,2,3,4,5]], and an endpoint answering with a single object makes
    the collection fail with [CanvasApiPaginationError]. *)
Example listItems_documented_cases :
  fst (toArray 20 (TestServer.listItems "courses/page1" []))
    = Fulfilled [JNumber 1; JNumber 2; JNumber 3; JNumber 4; JNumber 5]
  /\ fst (toArray 20 (TestServer.listItems "accounts/1" []))
     = Rejected (CanvasApiPaginationError TestServer.account_page).
Proof. split; vm_compute; reflexivity. Qed.

End PaginationFacts.

Module TraversalFacts.
Import Undici CanvasApiError ExtendedGenerator CanvasApi StringFacts.
Import CanvasApiResponse(Json).

Section Traversal.
Variable URL : Type.
Variable new_URL : string -> option URL -> URL + JSError.
Variable URL_toString : URL -> string.
Variable JSON_parse : string -> Json + JSError.
Variable unknown : Type.
Variable is_string : unknown -> bool.
Variable JSON_stringify : unknown -> option string + JSError.
Variable AbortSignal_timeout_error : Z -> option JSError.
Variable FormData : Type.
Variable number : Type.
Variable String_number : number -> string.
Variable World : Type.
Variable send : RequestFunction -> World -> Request FormData
                -> (ResponseData + JSError) * World.

Variable this : CanvasApi.t URL.
Variable endpoint : string.
Variable queryParams : QueryString.QueryParams number.
Variable options : RequestOptions.

Local Abbreviation Log := (list (Exchange FormData)).
Local Abbreviation Locals := (PagesLocals number (Log * World)).
Local Abbreviation follows := (follows_links URL new_URL URL_toString JSON_parse FormData this).
Local Abbreviation traversal :=
  (traversal_log URL new_URL URL_toString JSON_parse FormData number String_number this
     endpoint queryParams).
Local Abbreviation to := (request_to URL new_URL URL_toString FormData this).
Local Abbreviation body_ :=
  (listPages_body URL new_URL URL_toString JSON_parse unknown is_string JSON_stringify AbortSignal_timeout_error
     FormData number String_number (Log * World) (recording FormData World send)
     this options).
Local Abbreviation consistent :=
  (CanvasApi.consistent URL new_URL URL_toString JSON_parse FormData number String_number
     World send this unknown is_string JSON_stringify AbortSignal_timeout_error endpoint queryParams options).
Local Abbreviation request_ :=
  (_request URL new_URL URL_toString JSON_parse unknown is_string JSON_stringify AbortSignal_timeout_error
     FormData number String_number (Log * World) (recording FormData World send) this).

Lemma follows_snoc (log : Log) : forall previous req outcome req' outcome' page target,
  follows previous (log ++ [(req, outcome)]) ->
  receive JSON_parse outcome = inl page ->
  next_link page = Some target ->
  to target "" req' ->
  follows previous ((log ++ [(req, outcome)]) ++ [(req', outcome')]).
Proof.
  induction log as [|[r o] log IH]; intros previous req outcome req' outcome' page target
    H Hpage Hnext Hto; simpl in *.
  - destruct H as [H _]. repeat split; eauto.
  - destruct H as [H Hrest]. split; [exact H|]. eapply IH; eauto.
Qed.

Lemma traversal_snoc (log : Log) req outcome req' outcome' page target :
  traversal (log ++ [(req, outcome)]) ->
  receive JSON_parse outcome = inl page ->
  next_link page = Some target ->
  to target "" req' ->
  traversal ((log ++ [(req, outcome)]) ++ [(req', outcome')]).
Proof.
  destruct log as [|[r o] log]; simpl; intros [H Hrest] Hpage Hnext Hto.
  - repeat split; eauto.
  - split; [exact H|]. eapply follows_snoc; eauto.
Qed.

(** What one call of [_request] for a page does: it fails before sending
    anything, or it sends one request, to the resolved target followed
    by the serialized parameters, and continues with [receive]. *)
Lemma request_cases (target : string) (params : QueryString.QueryParams number)
    (log : Log) (w : World) :
  (exists err,
      request_ target "GET" (Some params) (NoBody unknown FormData) options (log, w)
      = (inr (Thrown err), (log, w)))
  \/ (exists req outcome w',
        to target (QueryString.stringifyQueryParameters number String_number params) req
        /\ request_ target "GET" (Some params) (NoBody unknown FormData) options (log, w)
           = (receive JSON_parse outcome, (log ++ [(req, outcome)], w'))).
Proof.
  unfold _request.
  destruct (new_URL target (Some (apiUrl URL this))) as [resolved|err] eqn:Hu.
  - simpl normalizeBody. cbv iota zeta.
    match goal with |- context [match ?a with Some e => (inr (Thrown e), _) | None => _ end] =>
      destruct a as [err|] eqn:Ha end.
    + left. exists err. reflexivity.
    + right. unfold recording. simpl snd. simpl fst.
      match goal with |- context [send ?f w ?r] =>
        destruct (send f w r) as [outcome w'] eqn:Hs; exists r, outcome, w' end.
      split; [|reflexivity]. exists resolved. split; [exact Hu | reflexivity].
  - left. exists err. reflexivity.
Qed.

Lemma consistent_resumed g : consistent g -> consistent (resumed g).
Proof.
  intros (Hbody & Hlog & Hsusp). unfold resumed, pull.
  destruct (status g) eqn:Hst; [|repeat split; auto; congruence].
  specialize (Hsusp eq_refl).
  rewrite Hbody. destruct g as [b st [u qp [log w]] n]. simpl in *. subst b st.
  unfold listPages_body. simpl pages_url. simpl pages_queryParams. simpl pages_world.
  destruct u as [[|c u]|];
    try (repeat split; simpl; auto; discriminate).
  destruct (request_cases (String c u) qp log w)
    as [(err & ->) | (req & outcome & w' & Hto & ->)].
  { repeat split; simpl; auto; discriminate. }
  assert (traversal (log ++ [(req, outcome)])) as Hlog1.
  { destruct Hsusp as [(Hl & Hu & Hq)
                      | (log0 & req0 & outcome0 & page0 & Hl & Hp0 & Hu & Hq)].
    - subst log qp. inversion Hu; subst. simpl. split; [exact Hto | exact I].
    - subst log qp. eapply traversal_snoc; [exact Hlog | exact Hp0 | | exact Hto].
      now rewrite <- Hu. }
  destruct (receive JSON_parse outcome) as [page | err] eqn:Hrcv.
  - repeat split; simpl; auto. intros _. right.
    exists log, req, outcome, page. repeat split; auto.
  - repeat split; simpl; auto. discriminate.
Qed.

Lemma consistent_spawned (w : World) :
  consistent
    (generator
       (listPages URL new_URL URL_toString JSON_parse unknown is_string JSON_stringify AbortSignal_timeout_error
          FormData number String_number (Log * World) (recording FormData World send)
          this endpoint queryParams options ([], w))).
Proof. repeat split; simpl; auto. Qed.

Lemma consistent_iter (n : nat) g : consistent g -> consistent (Nat.iter n resumed g).
Proof. induction n; simpl; auto using consistent_resumed. Qed.

Local Abbreviation log_of g := (fst (pages_world number (Log * World) (frame g))).
Local Abbreviation stringify :=
  (QueryString.stringifyQueryParameters number String_number).

(** What [AbortSignal.timeout] throws for the timeout of the traversal,
    if there is one and it is refused. *)
Local Abbreviation refusal :=
  (match
     match mergedOptions_timeout URL this options with
     | Some ms => if (ms =? 0)%Z then None else Some ms
     | None => None
     end
   with
   | Some ms => AbortSignal_timeout_error ms
   | None => None
   end).

(** A resumption in front of a URL that resolves makes one request, to
    the resolved URL followed by the serialized parameters the generator
    holds, and yields or throws what [_request] makes of the outcome. *)
Lemma pull_sends g (target : string) (resolved : URL) :
  body g = body_ ->
  status g = Suspended ->
  pages_url _ _ (frame g) = Some target ->
  target <> ""%string ->
  new_URL target (Some (apiUrl URL this)) = inl resolved ->
  refusal = None ->
  exists req outcome g',
    log_of g' = log_of g ++ [(req, outcome)]
    /\ url FormData req
       = (URL_toString resolved ++ stringify (pages_queryParams _ _ (frame g)))%string
    /\ pull g = match receive JSON_parse outcome with
                | inl page => PValue page g'
                | inr err => PThrow err g'
                end.
Proof.
  intros Hbody Hst Hurl Hne Hu Href. unfold pull. rewrite Hst, Hbody.
  unfold listPages_body. rewrite Hurl.
  destruct target as [|c target]; [congruence|].
  unfold _request. rewrite Hu. simpl normalizeBody. cbv iota zeta. rewrite Href.
  unfold recording.
  match goal with |- context [send ?f ?w0 ?r] =>
    destruct (send f w0 r) as [outcome w'] eqn:Hs; exists r, outcome end.
  destruct (receive JSON_parse outcome) as [page | err];
    eexists; (split; [|split]; [| |reflexivity]); reflexivity.
Qed.

(** C9. The query parameters go to the first request of a traversal and
    to no other.  For the generator of [listPages(endpoint, queryParams,
    options)] over a transport that records its exchanges:
    - however far the generator has been driven, the record is a
      traversal: its first request went to the endpoint, resolved against
      the base URL, followed by the serialized query parameters, and each
      later one to the URL of the [next] link of the response before it,
      resolved the same way, with nothing appended;
    - the first [next()] makes that first request: when the endpoint is
      not empty and resolves (and the timeout is not refused), exactly one
      request is recorded, its URL is the resolved endpoint followed by
      [stringifyQueryParameters(queryParams)], and the generator yields or
      throws what [_request] makes of the outcome;
    - a link is followed: whenever, at any point of the traversal, a page
      has been yielded whose [next] link is not empty and resolves, the
      next [next()] records exactly one more request, and its URL is the
      resolved link with nothing appended, whatever [queryParams] was; it
      is the URL of the link itself, query string included, whenever
      [new URL(link, base).toString()] returns the link as it is. *)
Theorem listPages_query_parameters_once (w : World) :
  let pages :=
    generator
      (listPages URL new_URL URL_toString JSON_parse unknown is_string JSON_stringify
         AbortSignal_timeout_error FormData number String_number (Log * World)
         (recording FormData World send) this endpoint queryParams options ([], w)) in
  (forall n : nat, traversal (log_of (Nat.iter n resumed pages)))
  /\ (forall resolved,
        endpoint <> ""%string ->
        new_URL endpoint (Some (apiUrl URL this)) = inl resolved ->
        refusal = None ->
        exists req outcome g1,
          log_of g1 = [(req, outcome)]
          /\ url FormData req = (URL_toString resolved ++ stringify queryParams)%string
          /\ pull pages = match receive JSON_parse outcome with
                          | inl page => PValue page g1
                          | inr err => PThrow err g1
                          end)
  /\ (forall (n : nat) page g1 target resolved,
        pull (Nat.iter n resumed pages) = PValue page g1 ->
        next_link page = Some target ->
        target <> ""%string ->
        new_URL target (Some (apiUrl URL this)) = inl resolved ->
        refusal = None ->
        exists req outcome g2,
          log_of g2 = log_of g1 ++ [(req, outcome)]
          /\ url FormData req = URL_toString resolved
          /\ (URL_toString resolved = target -> url FormData req = target)
          /\ pull g1 = match receive JSON_parse outcome with
                       | inl page' => PValue page' g2
                       | inr err => PThrow err g2
                       end).
Proof.
  cbv zeta. split; [|split].
  - intros n. apply (consistent_iter n). apply consistent_spawned.
  - intros resolved Hne Hu Href.
    destruct (pull_sends
                (generator
                   (listPages URL new_URL URL_toString JSON_parse unknown is_string
                      JSON_stringify AbortSignal_timeout_error FormData number
                      String_number (Log * World) (recording FormData World send)
                      this endpoint queryParams options ([], w)))
                endpoint resolved eq_refl eq_refl eq_refl Hne Hu Href)
      as (req & outcome & g1 & Hlog & Hto & Hp).
    exists req, outcome, g1. repeat split; assumption.
  - intros n page g1 target resolved Hp Hnext Hne Hu Href.
    destruct (consistent_iter n _ (consistent_spawned w)) as (Hbody & _ & _).
    assert (body g1 = body_ /\ status g1 = Suspended
            /\ pages_url _ _ (frame g1) = Some target
            /\ pages_queryParams _ _ (frame g1) = []) as (Hb1 & Hs1 & Hu1 & Hq1).
    { unfold pull in Hp.
      destruct (status (Nat.iter n resumed _)); [|discriminate].
      rewrite Hbody in Hp. unfold listPages_body in Hp.
      destruct (pages_url _ _ (frame (Nat.iter n resumed _))) as [[|c u]|];
        try discriminate.
      destruct (_request _ _ _ _ _ _ _ _ _ _ _ _ _ _ _ _ _ _ _ _)
        as [[response | err] lw]; [|discriminate].
      inversion Hp; subst. cbn. repeat split; assumption. }
    destruct (pull_sends g1 target resolved Hb1 Hs1 Hu1 Hne Hu Href)
      as (req & outcome & g2 & Hlog & Hto & Hp2).
    rewrite Hq1 in Hto. change (stringify []) with ""%string in Hto.
    rewrite append_nil_r in Hto.
    exists req, outcome, g2. repeat split; try assumption.
    intros Hverbatim. now rewrite Hto.
Qed.
End Traversal.

Lemma listPages_query_parameters_once_witness :
  let pages :=
    generator
      (listPages string TestServer.new_URL (fun u => u) TestServer.JSON_parse unit
         (fun _ => false) (fun _ => inl (Some "null")) (fun _ => None) unit Z
         QueryString.String_Z (list (Exchange unit) * list TestServer.Request)
         (recording unit (list TestServer.Request) TestServer.send)
         TestServer.canvas "assignments/page1"
         [("arg", QueryString.Single (QueryString.Num 1%Z))]
         (mkRequestOptions None) ([], [])) in
  (exists req outcome g1,
      fst (pages_world _ _ (frame g1)) = [(req, outcome)]
      /\ url unit req = "https://canvas.local/assignments/page1?arg=1"
      /\ pull pages = match receive TestServer.JSON_parse outcome with
                      | inl page => PValue page g1
                      | inr err => PThrow err g1
                      end)
  /\ exists page g1,
       pull pages = PValue page g1
       /\ exists req outcome g2,
            fst (pages_world _ _ (frame g2))
            = fst (pages_world _ _ (frame g1)) ++ [(req, outcome)]
            /\ url unit req = "https://canvas.local/assignments/page2?other=2"
            /\ ("https://canvas.local/assignments/page2?other=2"
                = "https://canvas.local/assignments/page2?other=2"
                -> url unit req = "https://canvas.local/assignments/page2?other=2")
            /\ pull g1 = match receive TestServer.JSON_parse outcome with
                         | inl page' => PValue page' g2
                         | inr err => PThrow err g2
                         end.
Proof.
  pose proof (listPages_query_parameters_once string TestServer.new_URL (fun u => u)
                TestServer.JSON_parse unit (fun _ => false) (fun _ => inl (Some "null"))
                (fun _ => None) unit Z QueryString.String_Z (list TestServer.Request)
                TestServer.send TestServer.canvas "assignments/page1"
                [("arg", QueryString.Single (QueryString.Num 1%Z))]
                (mkRequestOptions None) []) as (_ & Hfirst & Hnext).
  cbv zeta. split.
  - exact (Hfirst "https://canvas.local/assignments/page1"
             ltac:(discriminate) eq_refl eq_refl).
  - eexists. eexists. split; [reflexivity|].
    exact (Hnext 0 _ _ "https://canvas.local/assignments/page2?other=2"
             "https://canvas.local/assignments/page2?other=2"
             eq_refl eq_refl ltac:(discriminate) eq_refl eq_refl).
Defined.

(** The traversal of the test-suite: [{arg: 1}] is sent with the first
    request only, and the second request is the linked URL with its own
    query string. *)
Example listPages_opaque_link :
  List.map (url unit)
    (pages_world _ _
       (frame (generator (snd (toArray 20
          (TestServer.listPages "assignments/page1"
             [("arg", QueryString.Single (QueryString.Num 1%Z))]))))))
  = ["https://canvas.local/assignments/page1?arg=1";
     "https://canvas.local/assignments/page2?other=2"].
Proof. vm_compute. reflexivity. Qed.

End TraversalFacts.

Module RateLimiterFacts.
Import Undici RateLimiter.

Section Dispatcher.
Variable Request : Type.
Local Abbreviation State := (RateLimiter.State Request).
Local Abbreviation WorkItem := (RateLimiter.WorkItem Request).
Implicit Types (s r : State) (item : WorkItem) (q fired rest : list WorkItem).

Lemma checkAndReset_fields now s :
  let r := _checkAndResetInterval now s in
  _pendingWorkItems r = _pendingWorkItems s /\ inFlight r = inFlight s
  /\ dispatched r = dispatched s /\ settled r = settled s
  /\ promises r = promises s /\ limitIntervalMs r = limitIntervalMs s
  /\ _isIdle r = _isIdle s /\ _callCounter r = _callCounter s.
Proof.
  unfold _checkAndResetInterval.
  destruct (_ >? _)%Z; simpl; repeat split.
Qed.

Lemma setDelay_fields now s :
  let r := _setDelayToStartAtNextInterval now s in
  _pendingWorkItems r = _pendingWorkItems s /\ inFlight r = inFlight s
  /\ dispatched r = dispatched s /\ settled r = settled s
  /\ promises r = promises s /\ limitIntervalMs r = limitIntervalMs s
  /\ _isIdle r = _isIdle s /\ _callCounter r = _callCounter s.
Proof.
  unfold _setDelayToStartAtNextInterval.
  destruct (_ <? _)%Z; simpl; repeat split.
Qed.

Lemma workLoop_fires now q : forall s,
  _isIdle s = false ->
  exists fired,
    Fires (set_pending q s) (workLoop now q s) fired
    /\ Stops (workLoop now q s).
Proof.
  induction q as [|item q IH]; intros s Hidle; simpl.
  - exists []. unfold Fires, Stops; simpl. rewrite !app_nil_r.
    repeat split; auto.
  - destruct (_nextDelay s >? 0)%Z.
    + exists []. unfold Fires, Stops; simpl. rewrite !app_nil_r.
      repeat split; auto. right. split; [discriminate | assumption].
    + pose proof (checkAndReset_fields now s) as Hc. cbv zeta in Hc.
      destruct Hc as (Hp & Hf & Hd & Hs & Hn & Hl & Hi & _).
      destruct (IH (call_workFn item (_checkAndResetInterval now s))) as (fired & HF & HS).
      { simpl. congruence. }
      exists (item :: fired). split; [|exact HS].
      destruct HF as (F1 & F2 & F3 & F4 & F5 & F6). simpl in *.
      unfold Fires; simpl.
      rewrite F2, F3, F4, F5, F6, Hf, Hd, Hs, Hn, Hl, <- !app_assoc. simpl.
      repeat split; auto. now rewrite <- F1.
Qed.

Lemma startWorkLoop_fires now s :
  (_isIdle s = false -> _pendingWorkItems s <> []) ->
  exists fired,
    Fires s (startWorkLoop now s) fired /\ Stops (startWorkLoop now s)
    /\ (_isIdle s = false -> startWorkLoop now s = s).
Proof.
  intros Hwf. unfold startWorkLoop. destruct (_isIdle s) eqn:Hidle.
  - match goal with |- context [workLoop now ?q ?s0] =>
      destruct (workLoop_fires now q s0 eq_refl) as (fired & HF & HS) end.
    exists fired. split; [|split; [exact HS | discriminate]].
    exact HF.
  - exists []. unfold Fires, Stops. rewrite !app_nil_r.
    repeat split; auto.
Qed.

Lemma resume_fires now s item rest :
  _isIdle s = false -> _pendingWorkItems s = item :: rest ->
  exists fired,
    Fires s (resume now s) (item :: fired) /\ Stops (resume now s).
Proof.
  intros Hidle Hq. unfold resume.
  pose proof (checkAndReset_fields now s) as Hc. cbv zeta in Hc.
  destruct Hc as (Hp & Hf & Hd & Hs & Hn & Hl & Hi & _).
  rewrite Hp, Hq.
  destruct (workLoop_fires now rest (call_workFn item (_checkAndResetInterval now s)))
    as (fired & HF & HS).
  { simpl. congruence. }
  exists fired. split; [|exact HS].
  destruct HF as (F1 & F2 & F3 & F4 & F5 & F6). simpl in *.
  unfold Fires. rewrite F2, F3, F4, F5, F6, Hf, Hd, Hs, Hn, Hl, Hq, <- !app_assoc.
  simpl. repeat split; auto. now rewrite <- F1.
Qed.

Lemma take_nth_head item rest : take_nth 0 (item :: rest) = Some (item, rest).
Proof. reflexivity. Qed.

Lemma take_nth_in n : forall (l : list WorkItem) item rest,
  take_nth n l = Some (item, rest) ->
  In item l /\ (forall x, In x rest -> In x l)
  /\ (forall x, In x l -> x = item \/ In x rest)
  /\ List.length l = S (List.length rest).
Proof.
  induction n as [|n IH]; intros [|x l] item rest H; simpl in H; try discriminate.
  - inversion H; subst. simpl. repeat split; auto.
    intros y [->|Hy]; auto.
  - destruct (take_nth n l) as [[y rest']|] eqn:Ht; [|discriminate].
    inversion H; subst. destruct (IH _ _ _ Ht) as (H1 & H2 & H3 & H4).
    simpl. repeat split; auto.
    + intros z [->|Hz]; auto.
    + intros z [->|Hz]; auto. destruct (H3 z Hz); auto.
Qed.

(** *** The [then] callback on a 403 *)

Lemma on_fulfilled_rate_limited now item hs content s :
  JSString.includes "Rate Limit Exceeded" content = true ->
  on_fulfilled now item (arrived 403 hs content) s
  = if (retryCount item >=? MAX_RETRIES)%Z
    then settle (promise item) (inr rate_limit_error) s
    else startWorkLoop now
           (_setDelayToStartAtNextInterval now
              (set_pending (retry item :: _pendingWorkItems s) s)).
Proof. intros H. unfold on_fulfilled. simpl. rewrite H. reflexivity. Qed.

Lemma on_fulfilled_plain_403 now item hs content s :
  JSString.includes "Rate Limit Exceeded" content = false ->
  on_fulfilled now item (arrived 403 hs content) s
  = resolve_and_check_quota now item (replayed hs content) s.
Proof. intros H. unfold on_fulfilled. simpl. rewrite H. reflexivity. Qed.

Lemma resolve_and_check_quota_fields now item res s :
  let r := resolve_and_check_quota now item res s in
  settled r = settled s ++ [(promise item, inl res)]
  /\ _pendingWorkItems r = _pendingWorkItems s /\ inFlight r = inFlight s
  /\ dispatched r = dispatched s /\ promises r = promises s
  /\ limitIntervalMs r = limitIntervalMs s /\ _isIdle r = _isIdle s.
Proof.
  unfold resolve_and_check_quota.
  destruct (get _ _) as [remaining|]; [|simpl; repeat split].
  destruct (parseInt _) as [n|]; [|simpl; repeat split].
  destruct (n <? 50)%Z; [|simpl; repeat split].
  pose proof (setDelay_fields now (settle (promise item) (inl res) s)) as H.
  cbv zeta in H. destruct H as (H1 & H2 & H3 & H4 & H5 & H6 & H7 & _).
  cbv zeta. rewrite H1, H2, H3, H4, H5, H6, H7. simpl. repeat split.
Qed.

(** *** Rate-limited requests run out of retries *)

Lemma list_sum_queued_flying fired :
  list_sum (List.map queued_work fired)
  = list_sum (List.map flying_work fired) + List.length fired.
Proof.
  induction fired as [|item fired IH]; [reflexivity|].
  cbn [List.map List.length].
  change (list_sum (queued_work item :: List.map queued_work fired))
    with (queued_work item + list_sum (List.map queued_work fired)).
  change (list_sum (flying_work item :: List.map flying_work fired))
    with (flying_work item + list_sum (List.map flying_work fired)).
  rewrite IH. unfold queued_work, flying_work. lia.
Qed.

Lemma Fires_work s r fired : Fires s r fired -> work r + List.length fired = work s.
Proof.
  intros (F1 & F2 & _). unfold work. rewrite F1, F2, !List.map_app, !list_sum_app.
  rewrite (list_sum_queued_flying fired). lia.
Qed.

Lemma Fires_live s r fired p : Fires s r fired -> In p (live s) -> In p (live r).
Proof.
  intros (F1 & F2 & _). unfold live. rewrite F1, F2, !List.map_app, !in_app_iff.
  tauto.
Qed.

Lemma Fires_drained s r fired :
  Fires s r fired -> _pendingWorkItems r = [] -> fired = _pendingWorkItems s.
Proof. intros (F1 & _) Hr. now rewrite F1, Hr, app_nil_r. Qed.

Lemma Stops_well_formed r : Stops r -> well_formed r.
Proof. intros [[_ H] | [H _]] Hidle; congruence. Qed.

Lemma Fires_progress s r fired :
  Fires s r fired -> Stops r ->
  (fired <> [] \/ (_isIdle s = true /\ _pendingWorkItems s <> [])) ->
  Progress s r.
Proof.
  intros HF HS Hne. pose proof (Fires_work _ _ _ HF) as Hw.
  split; [|split; [now apply Stops_well_formed|]].
  - unfold measure.
    destruct HS as [[Hq Hi] | [Hq Hi]]; rewrite Hi.
    + pose proof (Fires_drained _ _ _ HF Hq) as Hf.
      assert (fired <> []) as Hfired by (destruct Hne as [?|[_ ?]]; congruence).
      destruct fired; [congruence|]. simpl in Hw. destruct (_isIdle s); lia.
    + destruct Hne as [Hfired | [Hidle _]].
      * destruct fired; [congruence|]. simpl in Hw. destruct (_isIdle s); lia.
      * rewrite Hidle. lia.
  - exists []. destruct HF as (F1 & F2 & F3 & F4 & F5 & F6).
    rewrite app_nil_r. repeat split; auto.
    intros p Hp. left. eapply Fires_live; [|exact Hp]. repeat split; eauto.
Qed.

Lemma retry_work item :
  (retryCount item >=? MAX_RETRIES)%Z = false ->
  queued_work (retry item) + 1 = flying_work item.
Proof.
  intros H. rewrite Z.geb_leb in H. apply Z.leb_gt in H.
  unfold queued_work, flying_work, retries_left, retry, MAX_RETRIES in *.
  cbn [retryCount]. lia.
Qed.

Lemma respond_exhausted item rest0 s :
  inFlight s = item :: rest0 -> well_formed s ->
  Progress s (settle (promise item) (inr rate_limit_error) (set_inFlight rest0 s)).
Proof.
  intros Hf Hwf. split; [|split].
  - assert (work (settle (promise item) (inr rate_limit_error) (set_inFlight rest0 s))
            + flying_work item = work s) as Hw.
    { unfold work. cbn [settle set_inFlight _pendingWorkItems inFlight]. rewrite Hf.
      cbn [List.map].
      change (list_sum (flying_work item :: ?l)) with (flying_work item + list_sum l).
      lia. }
    unfold measure. cbn [settle set_inFlight _isIdle].
    unfold flying_work in Hw. destruct (_isIdle s); lia.
  - exact Hwf.
  - exists [(promise item, inr rate_limit_error)]. repeat split.
    + repeat constructor.
    + intros p. unfold live; simpl. rewrite Hf, !List.map_app, !in_app_iff. simpl.
      tauto.
Qed.

Lemma respond_requeued now item rest0 s :
  inFlight s = item :: rest0 ->
  (retryCount item >=? MAX_RETRIES)%Z = false ->
  Progress s
    (startWorkLoop now
       (_setDelayToStartAtNextInterval now
          (set_pending (retry item :: _pendingWorkItems s) (set_inFlight rest0 s)))).
Proof.
  intros Hf Hrc.
  pose proof (setDelay_fields now
                (set_pending (retry item :: _pendingWorkItems s) (set_inFlight rest0 s)))
    as Hd.
  cbv zeta in Hd.
  remember (_setDelayToStartAtNextInterval now
              (set_pending (retry item :: _pendingWorkItems s) (set_inFlight rest0 s)))
    as s2 eqn:Hs2.
  destruct Hd as (D1 & D2 & D3 & D4 & D5 & D6 & D7 & _).
  cbn [set_pending set_inFlight _pendingWorkItems inFlight dispatched settled promises
       limitIntervalMs _isIdle] in D1, D2, D3, D4, D5, D6, D7.
  destruct (startWorkLoop_fires now s2) as (fired & HF & HS & _).
  { intros _. rewrite D1. discriminate. }
  pose proof (Fires_work _ _ _ HF) as Hw.
  assert (work s2 + 1 = work s) as Hw2.
  { unfold work. rewrite D1, D2, Hf. cbn [List.map].
    change (list_sum (queued_work (retry item) :: ?l))
      with (queued_work (retry item) + list_sum l).
    change (list_sum (flying_work item :: ?l)) with (flying_work item + list_sum l).
    pose proof (retry_work item Hrc). lia. }
  split; [|split; [now apply Stops_well_formed|]].
  - unfold measure. destruct (_isIdle (startWorkLoop now s2)), (_isIdle s); lia.
  - exists []. destruct HF as (F1 & F2 & F3 & F4 & F5 & F6).
    rewrite app_nil_r. split; [now rewrite F4, D4 | split; [constructor|]].
    intros p Hp. left. apply (Fires_live s2 _ fired); [repeat split; assumption|].
    revert Hp. unfold live. rewrite D1, D2, Hf, !List.map_app, !in_app_iff. simpl.
    tauto.
Qed.

Lemma serve_progress now hs content s e :
  well_formed s ->
  JSString.includes "Rate Limit Exceeded" content = true ->
  next_event now hs content s = Some e ->
  Progress s (step s e).
Proof.
  intros Hwf Hmark. unfold next_event.
  destruct (inFlight s) as [|item rest0] eqn:Hf.
  - destruct (_isIdle s) eqn:Hi.
    + destruct (_pendingWorkItems s) as [|item rest] eqn:Hq; [discriminate|].
      intros He; inversion He; subst; clear He. simpl.
      destruct (startWorkLoop_fires now s Hwf) as (fired & HF & HS & _).
      eapply Fires_progress; eauto. right. split; [assumption | congruence].
    + intros He; inversion He; subst; clear He. simpl. rewrite Hi.
      destruct (_pendingWorkItems s) as [|item rest] eqn:Hq; [now elim (Hwf Hi)|].
      destruct (resume_fires now s item rest Hi Hq) as (fired & HF & HS).
      eapply Fires_progress; eauto. left. discriminate.
  - intros He; inversion He; subst; clear He. simpl. rewrite Hf. simpl.
    rewrite (on_fulfilled_rate_limited _ _ _ _ _ Hmark).
    destruct (retryCount item >=? MAX_RETRIES)%Z eqn:Hrc.
    + exact (respond_exhausted item rest0 s Hf Hwf).
    + exact (respond_requeued now item rest0 s Hf Hrc).
Qed.

Lemma Progress_Drained s r t : Progress s r -> Drained r t -> Drained s t.
Proof.
  intros (_ & _ & new1 & S1 & E1 & L1) (Hq & Hf & Hi & new2 & S2 & E2 & L2).
  repeat split; auto. exists (new1 ++ new2).
  split; [now rewrite S2, S1, app_assoc|].
  split; [now apply Forall_app|].
  intros p Hp. rewrite List.map_app, in_app_iff.
  destruct (L1 p Hp) as [H | H]; auto.
Qed.

Lemma serve_drains clock hs content :
  JSString.includes "Rate Limit Exceeded" content = true ->
  forall fuel i s,
    well_formed s -> measure s < fuel ->
    Drained s (serve fuel clock i hs content s).
Proof.
  intros Hmark. induction fuel as [|fuel IH]; intros i s Hwf Hm; [lia|].
  simpl. destruct (next_event (clock i) hs content s) as [e|] eqn:He.
  - pose proof (serve_progress _ _ _ _ _ Hwf Hmark He) as HP.
    eapply Progress_Drained; [exact HP|].
    destruct HP as (Hlt & Hwf' & _). apply IH; [exact Hwf' | lia].
  - unfold next_event in He.
    destruct (inFlight s) eqn:Hf; [|discriminate].
    destruct (_isIdle s) eqn:Hi; [|discriminate].
    destruct (_pendingWorkItems s) eqn:Hq; [|discriminate].
    repeat split; auto. exists []. rewrite app_nil_r.
    repeat split; auto. unfold live. rewrite Hq, Hf. intros p [].
Qed.

(** Every state the dispatcher can reach is well formed. *)
Lemma step_well_formed s e : well_formed s -> well_formed (step s e).
Proof.
  intros Hwf. destruct e as [req | now | now | n now status hs content | n err]; simpl.
  - unfold request, well_formed; simpl. intros _. now destruct (_pendingWorkItems s).
  - destruct (startWorkLoop_fires now s Hwf) as (fired & _ & HS & _).
    now apply Stops_well_formed.
  - destruct (_isIdle s) eqn:Hi; [exact Hwf|].
    destruct (_pendingWorkItems s) as [|item rest] eqn:Hq; [now elim (Hwf Hi)|].
    destruct (resume_fires now s item rest Hi Hq) as (fired & _ & HS).
    now apply Stops_well_formed.
  - destruct (take_nth n (inFlight s)) as [[item rest]|]; [|exact Hwf].
    unfold on_fulfilled.
    assert (forall res, well_formed (resolve_and_check_quota now item res (set_inFlight rest s)))
      as Hres.
    { intros res.
      pose proof (resolve_and_check_quota_fields now item res (set_inFlight rest s)) as H.
      cbv zeta in H. destruct H as (_ & H2 & _ & _ & _ & _ & H7).
      unfold well_formed. rewrite H2, H7. exact Hwf. }
    unfold arrived, text. cbn [statusCode body headers text_method bodyUsed wire].
    destruct (status =? 403)%Z; [|apply Hres].
    destruct (JSString.includes "Rate Limit Exceeded" content); [|apply Hres].
    destruct (retryCount item >=? MAX_RETRIES)%Z; [exact Hwf|].
    match goal with |- well_formed (startWorkLoop now (_setDelayToStartAtNextInterval now ?s1)) =>
      destruct (startWorkLoop_fires now (_setDelayToStartAtNextInterval now s1))
        as (fired & _ & HS & _);
      [ intros _; rewrite (proj1 (setDelay_fields now s1)); discriminate | ]
    end.
    now apply Stops_well_formed.
  - destruct (take_nth n (inFlight s)) as [[item rest]|]; exact Hwf.
Qed.

Lemma run_well_formed events : forall s, well_formed s -> well_formed (run s events).
Proof.
  induction events as [|e events IH]; intros s Hwf; simpl; [exact Hwf|].
  apply IH. now apply step_well_formed.
Qed.

Lemma reachable_well_formed limit events :
  well_formed (run (create Request limit) events).
Proof. apply run_well_formed. intros H. discriminate H. Qed.

(** C1. A request whose every attempt is answered by a 403 carrying the
    rate-limit marker: while its [retryCount] is below [MAX_RETRIES] = 5
    nothing is settled and the item goes back to the head of the queue with
    [retryCount + 1] (from where the loop may take it at once); once its
    [retryCount] has reached 5 its promise is rejected with the rate-limit
    error and the item is gone.  And when every attempt of every request is
    answered this way, the dispatcher comes to rest after a bounded number
    of events with every promise rejected with that error. *)
Theorem rate_limited_request_fails_at_ceiling s hs content :
  well_formed s ->
  JSString.includes "Rate Limit Exceeded" content = true ->
  (forall n now item rest,
      take_nth n (inFlight s) = Some (item, rest) ->
      let s' := step s (Respond n now 403 hs content) in
      ((retryCount item < MAX_RETRIES)%Z ->
         settled s' = settled s
         /\ In (retry item) (_pendingWorkItems s' ++ inFlight s')
         /\ exists s1,
              _pendingWorkItems s1 = retry item :: _pendingWorkItems s
              /\ s' = startWorkLoop now s1)
      /\ ((MAX_RETRIES <= retryCount item)%Z ->
           settled s' = settled s ++ [(promise item, inr rate_limit_error)]
           /\ _pendingWorkItems s' = _pendingWorkItems s
           /\ inFlight s' = rest
           /\ dispatched s' = dispatched s))
  /\ (exists k, forall clock i fuel,
        k <= fuel -> Drained s (serve fuel clock i hs content s)).
Proof.
  intros Hwf Hmark. split.
  - intros n now item rest Hn. cbv zeta. cbn [step]. rewrite Hn.
    rewrite (on_fulfilled_rate_limited _ _ _ _ _ Hmark). split; intros Hrc.
    + assert ((retryCount item >=? MAX_RETRIES)%Z = false) as ->.
      { rewrite Z.geb_leb. now apply Z.leb_gt. }
      match goal with |- context [startWorkLoop now (_setDelayToStartAtNextInterval now ?s1)] =>
        pose proof (setDelay_fields now s1) as Hd; cbv zeta in Hd;
        destruct Hd as (D1 & D2 & D3 & D4 & _);
        destruct (startWorkLoop_fires now (_setDelayToStartAtNextInterval now s1))
          as (fired & (F1 & F2 & F3 & F4 & _) & _ & _);
        [ intros _; rewrite D1; discriminate | ]
      end.
      split; [now rewrite F4, D4|]. split.
      * rewrite F2. rewrite D1 in F1. cbn [set_pending _pendingWorkItems] in F1.
        assert (In (retry item) (fired ++ _pendingWorkItems
                  (startWorkLoop now (_setDelayToStartAtNextInterval now
                     (set_pending (retry item :: _pendingWorkItems (set_inFlight rest s))
                        (set_inFlight rest s)))))) as Hin.
        { rewrite <- F1. now left. }
        rewrite !in_app_iff in *. tauto.
      * eexists. split; [|reflexivity]. now rewrite D1.
    + assert ((retryCount item >=? MAX_RETRIES)%Z = true) as ->.
      { rewrite Z.geb_leb. now apply Z.leb_le. }
      repeat split.
  - exists (S (measure s)). intros clock i fuel Hk.
    apply serve_drains; [exact Hmark | exact Hwf | lia].
Qed.

(** C2. A 403 whose body lacks the rate-limit marker: the promise of the
    request is resolved at once with that response, nothing is queued or
    dispatched because of it, reading the body of the resolved response
    gives the original text again, and [_request] turns it into a
    [CanvasApiResponseError] whose response has status 403, the original
    headers and the original text. *)
Theorem plain_403_is_resolved_with_body_replayed
    s n now hs content item rest
    (JSON_parse : string -> CanvasApiResponse.Json + JSError) :
  take_nth n (inFlight s) = Some (item, rest) ->
  JSString.includes "Rate Limit Exceeded" content = false ->
  let s' := step s (Respond n now 403 hs content) in
  settled s' = settled s ++ [(promise item, inl (replayed hs content))]
  /\ _pendingWorkItems s' = _pendingWorkItems s
  /\ inFlight s' = rest
  /\ dispatched s' = dispatched s
  /\ fst (text (body (replayed hs content))) = inl content
  /\ exists response,
       CanvasApi.receive JSON_parse (inl (replayed hs content))
       = inr (CanvasApiError.CanvasApiResponseError response)
       /\ CanvasApiResponse.statusCode response = 403%Z
       /\ CanvasApiResponse.headers response = hs
       /\ CanvasApiResponse.text response = content.
Proof.
  intros Hn Hmark. cbv zeta. cbn [step]. rewrite Hn.
  rewrite (on_fulfilled_plain_403 _ _ _ _ _ Hmark).
  pose proof (resolve_and_check_quota_fields now item (replayed hs content)
                (set_inFlight rest s)) as H.
  cbv zeta in H. destruct H as (H1 & H2 & H3 & H4 & _).
  repeat (split; [assumption|]). split; [reflexivity|].
  unfold CanvasApi.receive, CanvasApiResponse.parseBody, replayed.
  cbn [text body text_method statusCode headers].
  destruct (JSON_parse content) as [v | err]; eexists; repeat split.
Qed.

(** *** The queue keeps retried items in front of fresh ones *)

Lemma Ordered_pop item q flying log n :
  Ordered (item :: q) flying log n ->
  Ordered q (flying ++ [item]) (log ++ [item]) n.
Proof.
  intros (retried & fresh & Hq & Hr & Hf & Hseq & Hfl).
  destruct retried as [|x retried]; simpl in Hq.
  - subst fresh. inversion Hf as [|? ? H0 Hf']; subst.
    exists [], q. repeat split; auto.
    + rewrite filter_app, List.map_app. simpl. unfold is_fresh at 2. rewrite H0. simpl.
      rewrite <- app_assoc. exact Hseq.
    + apply Forall_app. split; [exact Hfl|]. constructor; [lia | constructor].
  - injection Hq as Hx Hq'. subst x q. inversion Hr as [|? ? H1 Hr']; subst.
    exists retried, fresh. repeat split; auto.
    + rewrite filter_app. simpl. unfold is_fresh at 2.
      destruct (Z.eqb_spec (retryCount item) 0) as [H0|_]; [lia|].
      now rewrite app_nil_r.
    + apply Forall_app. split; [exact Hfl|]. constructor; [lia | constructor].
Qed.

Lemma Ordered_fires fired : forall q flying log n,
  Ordered (fired ++ q) flying log n ->
  Ordered q (flying ++ fired) (log ++ fired) n.
Proof.
  induction fired as [|item fired IH]; intros q flying log n H; simpl in *.
  - now rewrite !app_nil_r.
  - apply Ordered_pop in H. apply IH in H. now rewrite <- !app_assoc in H.
Qed.

Lemma Fires_ordered s r fired : Fires s r fired -> ordered s -> ordered r.
Proof.
  intros (F1 & F2 & F3 & _ & F5 & _) H. unfold ordered in *.
  rewrite F2, F3, F5. apply Ordered_fires. now rewrite <- F1.
Qed.

Lemma Ordered_requeue item q flying log n :
  (0 <= retryCount item)%Z ->
  Ordered q flying log n -> Ordered (retry item :: q) flying log n.
Proof.
  intros H0 (retried & fresh & Hq & Hr & Hf & Hseq & Hfl). subst q.
  exists (retry item :: retried), fresh. repeat split; auto.
  constructor; [simpl; lia | exact Hr].
Qed.

Lemma Ordered_landed n0 : forall (flying : list WorkItem) item rest q log n,
  take_nth n0 flying = Some (item, rest) ->
  Ordered q flying log n ->
  (0 <= retryCount item)%Z /\ Ordered q rest log n.
Proof.
  intros flying item rest q log n Ht (retried & fresh & Hq & Hr & Hf & Hseq & Hfl).
  destruct (take_nth_in _ _ _ _ Ht) as (Hin & Hsub & _).
  rewrite Forall_forall in Hfl. split; [now apply Hfl|].
  exists retried, fresh. repeat split; auto.
  rewrite Forall_forall. intros x Hx. apply Hfl. now apply Hsub.
Qed.

Lemma step_ordered s e : well_formed s -> ordered s -> ordered (step s e).
Proof.
  intros Hwf Hord.
  destruct e as [req | now | now | n now status hs content | n err]; cbn [step].
  - destruct Hord as (retried & fresh & Hq & Hr & Hf & Hseq & Hfl).
    unfold ordered, request. cbn.
    exists retried, (fresh ++ [mkWorkItem (promises s) req
                                 (if (_callCounter s >=? MAX_SAFE_INTEGER)%Z then 1%Z
                                  else (_callCounter s + 1)%Z) 0]).
    repeat split; auto.
    + now rewrite Hq, app_assoc.
    + apply Forall_app. split; [exact Hf | repeat constructor].
    + rewrite List.map_app, app_assoc, Hseq, seq_S. reflexivity.
  - destruct (startWorkLoop_fires now s Hwf) as (fired & HF & _).
    eapply Fires_ordered; eauto.
  - destruct (_isIdle s) eqn:Hi; [exact Hord|].
    destruct (_pendingWorkItems s) as [|item rest] eqn:Hq; [now elim (Hwf Hi)|].
    destruct (resume_fires now s item rest Hi Hq) as (fired & HF & _).
    eapply Fires_ordered; eauto.
  - destruct (take_nth n (inFlight s)) as [[item rest]|] eqn:Ht; [|exact Hord].
    destruct (Ordered_landed _ _ _ _ _ _ _ Ht Hord) as (H0 & Hord').
    assert (forall res, ordered (resolve_and_check_quota now item res (set_inFlight rest s)))
      as Hres.
    { intros res.
      pose proof (resolve_and_check_quota_fields now item res (set_inFlight rest s)) as H.
      cbv zeta in H. destruct H as (_ & H2 & H3 & H4 & H5 & _).
      unfold ordered. rewrite H2, H3, H4, H5. exact Hord'. }
    unfold on_fulfilled, arrived, text. cbn [statusCode body headers text_method bodyUsed wire].
    destruct (status =? 403)%Z; [|apply Hres].
    destruct (JSString.includes "Rate Limit Exceeded" content); [|apply Hres].
    destruct (retryCount item >=? MAX_RETRIES)%Z; [exact Hord'|].
    match goal with |- ordered (startWorkLoop now (_setDelayToStartAtNextInterval now ?s1)) =>
      pose proof (setDelay_fields now s1) as Hd; cbv zeta in Hd;
      destruct Hd as (D1 & D2 & D3 & _ & D5 & _);
      destruct (startWorkLoop_fires now (_setDelayToStartAtNextInterval now s1))
        as (fired & HF & _);
      [ intros _; rewrite D1; discriminate | ]
    end.
    eapply Fires_ordered; [exact HF|].
    unfold ordered. rewrite D1, D2, D3, D5.
    apply (Ordered_requeue item _ _ _ _ H0 Hord').
  - destruct (take_nth n (inFlight s)) as [[item rest]|] eqn:Ht; [|exact Hord].
    destruct (Ordered_landed _ _ _ _ _ _ _ Ht Hord) as (_ & Hord'). exact Hord'.
Qed.

Lemma run_ordered events : forall s,
  well_formed s -> ordered s -> ordered (run s events).
Proof.
  induction events as [|e events IH]; intros s Hwf Hord; simpl; [exact Hord|].
  apply IH; [now apply step_well_formed | now apply step_ordered].
Qed.

Lemma filter_fresh_queue (retried fresh : list WorkItem) :
  Forall (fun item => (1 <= retryCount item)%Z) retried ->
  Forall (fun item => retryCount item = 0%Z) fresh ->
  List.filter is_fresh (retried ++ fresh) = fresh.
Proof.
  intros Hr Hf. rewrite filter_app.
  replace (List.filter is_fresh retried) with (@nil WorkItem).
  - simpl. induction Hf as [|x l Hx _ IH]; simpl; [reflexivity|].
    unfold is_fresh at 1. rewrite Hx. simpl. now rewrite IH.
  - induction Hr as [|x l Hx _ IH]; simpl; [reflexivity|].
    unfold is_fresh at 1. destruct (Z.eqb_spec (retryCount x) 0); [lia | exact IH].
Qed.

End Dispatcher.

(** *** Runs of a dispatcher with a 1000 ms interval *)

(** One request whose six attempts are all rate-limited. *)
Example six_attempts_then_failure :
  let s := serve 20 (fun i => (1000 * Z.of_nat i)%Z) 0 [] rate_limited_body
             (request "a" (create string 1000)) in
  attempts s = [(0, 0%Z); (0, 1%Z); (0, 2%Z); (0, 3%Z); (0, 4%Z); (0, 5%Z)]
  /\ settled s = [(0, inr rate_limit_error)]
  /\ _pendingWorkItems s = [] /\ inFlight s = [] /\ _isIdle s = true.
Proof. repeat split. Qed.

Lemma rate_limited_request_fails_at_ceiling_witness :
  exists k, forall clock i fuel,
    k <= fuel ->
    Drained
      (run (create string 1000) [Submit "a"; Tick 0])
      (serve fuel clock i [] rate_limited_body
         (run (create string 1000) [Submit "a"; Tick 0])).
Proof.
  refine (proj2 (rate_limited_request_fails_at_ceiling string
                   (run (create string 1000) [Submit "a"; Tick 0]) []
                   rate_limited_body _ _)).
  - intros H. discriminate H.
  - reflexivity.
Defined.

Lemma plain_403_is_resolved_with_body_replayed_witness :
  let s := run (create string 1000) [Submit "a"; Tick 0] in
  let s' := step s (Respond 0 10 403 [] "403 Forbidden (Permissions)") in
  settled s' = settled s ++ [(0, inl (replayed [] "403 Forbidden (Permissions)"))]
  /\ _pendingWorkItems s' = _pendingWorkItems s
  /\ inFlight s' = []
  /\ dispatched s' = dispatched s
  /\ fst (text (body (replayed [] "403 Forbidden (Permissions)")))
     = inl "403 Forbidden (Permissions)"
  /\ exists response,
       CanvasApi.receive TestServer.JSON_parse
         (inl (replayed [] "403 Forbidden (Permissions)"))
       = inr (CanvasApiError.CanvasApiResponseError response)
       /\ CanvasApiResponse.statusCode response = 403%Z
       /\ CanvasApiResponse.headers response = []
       /\ CanvasApiResponse.text response = "403 Forbidden (Permissions)".
Proof.
  exact (plain_403_is_resolved_with_body_replayed string
           (run (create string 1000) [Submit "a"; Tick 0]) 0 10 []
           "403 Forbidden (Permissions)" (mkWorkItem 0 "a" 1 0) []
           TestServer.JSON_parse eq_refl eq_refl).
Defined.

(** The run of the test-suite: the body of a plain 403 reaches the caller. *)
Example plain_403_reaches_the_caller :
  let s := run (create string 1000)
             [Submit "a"; Tick 0; Respond 0 10 403 [] "403 Forbidden (Permissions)"] in
  attempts s = [(0, 0%Z)]
  /\ _pendingWorkItems s = []
  /\ List.map
       (fun entry => (fst entry, CanvasApi.receive TestServer.JSON_parse (snd entry)))
       (settled s)
     = [(0, inr (CanvasApiError.CanvasApiResponseError
                   (CanvasApiResponse.mk 403 [] None None "403 Forbidden (Permissions)"
                      (Some (mkError true false "SyntaxError" (Some "Unexpected token"))))))].
Proof. repeat split. Qed.

(** C8, as stated, fails.  Two requests are submitted and dispatched in one
    burst; both are rate-limited, first the first, then the second; each is
    put back at the head of the queue, so the second request's retry is
    dispatched before the first request's retry, although both have retry
    count 1 and the first was submitted first. *)
Lemma retried_items_overtake :
  let s := run (create string 1000)
             [Submit "a"; Submit "b"; Tick 0;
              Respond 0 10 403 [] rate_limited_body;
              Respond 0 20 403 [] rate_limited_body;
              Wake 1000; Wake 1990] in
  attempts s = [(0, 0%Z); (1, 0%Z); (1, 1%Z); (0, 1%Z)]
  /\ ~ dispatched_in_submission_order (dispatched s).
Proof.
  cbv zeta. split; [reflexivity|].
  intros H.
  specialize (H 2 3 (mkWorkItem 1 "b" 2 1) (mkWorkItem 0 "a" 1 1)
                (Nat.lt_succ_diag_r 2) eq_refl eq_refl eq_refl).
  simpl in H. lia.
Qed.

End RateLimiterFacts.

Module ConstructorFacts.
Import Undici CanvasApi.

Section Singleton.
Variable URL : Type.
Variable new_URL : string -> option URL -> URL + JSError.
Variable FormData : Type.

Local Abbreviation Call := (string * string * ConstructorOptions)%type.
Local Abbreviation construct := (constructor URL new_URL FormData).
Local Abbreviation construct_all_ := (construct_all URL new_URL FormData).
Local Abbreviation shares_ := (shares URL new_URL).
Local Abbreviation wired := (CanvasApi.wired URL new_URL).

Lemma constructor_cases (apiUrl token : string) (options : ConstructorOptions)
    (m : Module FormData) :
  let call := (apiUrl, token, options) in
  (shares_ call = false
   /\ snd (construct apiUrl token options m) = m
   /\ wired 0 call (fst (construct apiUrl token options m)))
  \/ (shares_ call = true
      /\ match requestWithRateLimitThrottling FormData m with
         | Some d =>
             snd (construct apiUrl token options m) = m
             /\ wired d call (fst (construct apiUrl token options m))
         | None =>
             snd (construct apiUrl token options m)
             = mkModule FormData (Some (List.length (dispatchers FormData m)))
                 (dispatchers FormData m
                    ++ [RateLimiter.create (Request FormData)
                          match rateLimitIntervalMs options with
                          | Some ms => ms
                          | None => 1000%Z
                          end])
             /\ wired (List.length (dispatchers FormData m)) call
                  (fst (construct apiUrl token options m))
         end).
Proof.
  cbv zeta. unfold wired, shares, constructor.
  destruct (if JSString.endsWith "/" apiUrl then new_URL apiUrl None
            else new_URL (apiUrl ++ "/")%string None) as [api | err].
  - destruct (disableThrottling options) as [[|]|].
    + left. repeat split.
    + right. split; [reflexivity|].
      destruct (requestWithRateLimitThrottling FormData m); simpl; repeat split.
    + right. split; [reflexivity|].
      destruct (requestWithRateLimitThrottling FormData m); simpl; repeat split.
  - left. repeat split.
Qed.

Lemma wired_any d d' call instance :
  shares_ call = false -> wired d call instance -> wired d' call instance.
Proof. unfold wired. intros H. destruct instance; now rewrite H. Qed.

(** Once the module variable is set, constructions leave the module state
    alone and hand out the dispatcher it names. *)
Lemma construct_all_initialised d (calls : list Call) : forall m,
  requestWithRateLimitThrottling FormData m = Some d ->
  snd (construct_all_ calls m) = m
  /\ Forall2 (wired d) calls (fst (construct_all_ calls m)).
Proof.
  induction calls as [|call calls IH]; intros m Hm; simpl.
  - split; [reflexivity | constructor].
  - destruct call as [[apiUrl token] options].
    pose proof (constructor_cases apiUrl token options m) as Hc. cbv zeta in Hc.
    destruct (construct apiUrl token options m) as [instance m1] eqn:Hcons.
    cbn [fst snd] in Hc. rewrite Hm in Hc.
    assert (m1 = m /\ wired d (apiUrl, token, options) instance) as [-> Hw].
    { destruct Hc as [(Hs & H1 & H2) | (Hs & H1 & H2)]; split; auto.
      eapply wired_any; eauto. }
    destruct (IH m Hm) as [H1 H2].
    destruct (construct_all_ calls m) as [instances m2]. simpl in *.
    split; [exact H1 | constructor; assumption].
Qed.

Lemma construct_all_loaded (calls : list Call) :
  let r := construct_all_ calls (loaded FormData) in
  dispatchers FormData (snd r)
  = match first_interval URL new_URL calls with
    | Some ms => [RateLimiter.create (Request FormData) ms]
    | None => []
    end
  /\ requestWithRateLimitThrottling FormData (snd r)
     = match first_interval URL new_URL calls with
       | Some _ => Some 0
       | None => None
       end
  /\ Forall2 (wired 0) calls (fst r).
Proof.
  cbv zeta. induction calls as [|call calls IH]; simpl.
  - repeat split. constructor.
  - destruct call as [[apiUrl token] options].
    pose proof (constructor_cases apiUrl token options (loaded FormData)) as Hc.
    cbv zeta in Hc. unfold first_interval. cbn [find].
    destruct (construct apiUrl token options (loaded FormData)) as [instance m1] eqn:Hcons.
    cbn [fst snd loaded requestWithRateLimitThrottling dispatchers List.length app] in Hc.
    destruct Hc as [(Hs & H1 & H2) | (Hs & H1 & H2)]; rewrite Hs; subst m1.
    + destruct IH as (I1 & I2 & I3).
      destruct (construct_all_ calls (loaded FormData)) as [instances m2]. simpl in *.
      repeat split; auto.
    + destruct (construct_all_initialised 0 calls
                  (mkModule FormData (Some 0)
                     [RateLimiter.create (Request FormData)
                        match rateLimitIntervalMs options with
                        | Some ms => ms
                        | None => 1000%Z
                        end]) eq_refl) as [J1 J2].
      match type of J1 with snd ?r = _ => remember r as res eqn:Hres end.
      destruct res as [instances m2]. cbn [fst snd] in J1, J2 |- *. subst m2.
      cbn [dispatchers requestWithRateLimitThrottling].
      repeat split; auto.
Qed.
End Singleton.

(** C10. Whatever clients are constructed after the module is loaded, in
    whatever order: at most one dispatcher is ever created; it is created
    with the interval of the first construction that does not disable
    throttling ([rateLimitIntervalMs], or 1000 when absent); every instance
    that does not disable throttling holds that one dispatcher, whatever
    [rateLimitIntervalMs] it was given, and every instance that disables
    throttling holds [undiciRequest]. *)
Theorem dispatcher_is_created_once
    (URL : Type) (new_URL : string -> option URL -> URL + JSError) (FormData : Type)
    (calls : list (string * string * ConstructorOptions)) :
  let r := construct_all URL new_URL FormData calls (loaded FormData) in
  dispatchers FormData (snd r)
  = match first_interval URL new_URL calls with
    | Some ms => [RateLimiter.create (Request FormData) ms]
    | None => []
    end
  /\ requestWithRateLimitThrottling FormData (snd r)
     = match first_interval URL new_URL calls with
       | Some _ => Some 0
       | None => None
       end
  /\ Forall2
       (fun call instance =>
          match instance with
          | inl this =>
              __request__ URL this
              = if shares URL new_URL call then rateLimitedRequest 0 else undiciRequest
          | inr _ => shares URL new_URL call = false
          end)
       calls (fst r).
Proof. apply construct_all_loaded. Qed.

(** Three clients: the second asks for 250 ms and gets the dispatcher the
    first created with 500 ms; the third opts out. *)
Example second_interval_is_ignored :
  let options ms off := mkConstructorOptions None ms off in
  let r := construct_all string TestServer.new_URL unit
             [("https://canvas.local/", "t1", options (Some 500%Z) None);
              ("https://canvas.local", "t2", options (Some 250%Z) (Some false));
              ("https://canvas.local/", "t3", options (Some 100%Z) (Some true))]
             (loaded unit) in
  List.map (RateLimiter.limitIntervalMs (Request := Request unit)) (dispatchers unit (snd r))
    = [500%Z]
  /\ List.map (fun i => match i with
                        | inl this => Some (__request__ string this)
                        | inr _ => None
                        end) (fst r)
     = [Some (rateLimitedRequest 0); Some (rateLimitedRequest 0); Some undiciRequest].
Proof. split; reflexivity. Qed.

End ConstructorFacts.

Module PipelineFacts.
Import ExtendedGenerator GeneratorFacts.

(** What [toArray] makes of a run that is not cut. *)
Lemma run_toArray {E T L} (this : t E T L) (xs : list T) (ending : Ending E)
    (g' : Generator E T L) :
  Yields (generator this) xs ending g' ->
  exists k, forall fuel, k <= fuel ->
    match ending with
    | Ends => toArray fuel this = (Fulfilled xs, mk g')
    | Fails e => toArray fuel this = (Rejected e, mk g')
    | Continues => True
    end.
Proof.
  intros Hy. destruct (yields_toArray_loop xs _ _ _ Hy) as [k Hk].
  exists (Nat.max k (S (List.length xs))). intros fuel Hf.
  specialize (Hk fuel fuel [] ltac:(lia) ltac:(lia)).
  unfold toArray. destruct ending; trivial; now rewrite Hk.
Qed.

Section Combinators.
Context {E T L : Type}.
Implicit Types (g : Generator E T L) (xs : list T) (ending : Ending E).

(** The status a generator is left in by a run. *)
Local Abbreviation status_after ending :=
  (match ending with Continues => Suspended | _ => Completed end).

Lemma Takes_Yields g xs g' : Takes g xs g' -> Yields g xs Continues g'.
Proof.
  induction 1; [apply Yields_cut | eapply Yields_tau | eapply Yields_value]; eauto.
Qed.

(** Any run can be stopped right after its [k]-th element. *)
Lemma Yields_split g xs ending g' :
  Yields g xs ending g' -> forall k, k <= List.length xs ->
  exists g1, Takes g (firstn k xs) g1 /\ Yields g1 (skipn k xs) ending g'.
Proof.
  induction 1 as [g | g g' Hp | g e g' Hp | g g1 xs ending g' Hp Hy IH
                 | g v g1 xs ending g' Hp Hy IH]; intros k Hk.
  - simpl in Hk. replace k with 0 by lia. exists g. split; constructor.
  - simpl in Hk. replace k with 0 by lia. exists g. split; [constructor|].
    now apply Yields_done.
  - simpl in Hk. replace k with 0 by lia. exists g. split; [constructor|].
    now apply Yields_throw.
  - destruct k as [|k].
    + exists g. split; [constructor|]. simpl. eapply Yields_tau; eauto.
    + destruct (IH (S k) Hk) as (g2 & Ht & Hr). exists g2. split; [|exact Hr].
      destruct xs as [|x xs]; [simpl in Hk; lia|].
      simpl in *. eapply Takes_tau; eauto.
  - destruct k as [|k].
    + exists g. split; [constructor|]. simpl. eapply Yields_value; eauto.
    + simpl in Hk. destruct (IH k ltac:(lia)) as (g2 & Ht & Hr). exists g2.
      split; [|exact Hr]. simpl. eapply Takes_value; eauto.
Qed.

Lemma filter_run (predicate : T -> bool) g xs ending g' :
  Yields g xs ending g' ->
  forall n, exists n',
    Yields (mkGenerator (filter_body predicate) Suspended g n)
           (List.filter predicate xs) ending
           (mkGenerator (filter_body predicate) (status_after ending) g' n').
Proof.
  induction 1 as [g | g g' Hp | g e g' Hp | g g1 xs ending g' Hp _ IH
                 | g v g1 xs ending g' Hp _ IH]; intros n.
  - exists n. apply Yields_cut.
  - exists (S n). apply Yields_done. unfold pull, filter_body; simpl. now rewrite Hp.
  - exists (S n). apply Yields_throw. unfold pull, filter_body; simpl. now rewrite Hp.
  - destruct (IH (S n)) as [n' Hn']. exists n'.
    eapply Yields_tau; [|exact Hn']. unfold pull, filter_body; simpl. now rewrite Hp.
  - destruct (IH (S n)) as [n' Hn']. exists n'. simpl.
    destruct (predicate v) eqn:Hv.
    + eapply Yields_value; [|exact Hn'].
      unfold pull, filter_body; simpl. now rewrite Hp, Hv.
    + eapply Yields_tau; [|exact Hn'].
      unfold pull, filter_body; simpl. now rewrite Hp, Hv.
Qed.

Lemma map_run {V} (callback : T -> V) g xs ending g' :
  Yields g xs ending g' ->
  forall n, exists n',
    Yields (mkGenerator (map_body callback) Suspended g n)
           (List.map callback xs) ending
           (mkGenerator (map_body callback) (status_after ending) g' n').
Proof.
  induction 1 as [g | g g' Hp | g e g' Hp | g g1 xs ending g' Hp _ IH
                 | g v g1 xs ending g' Hp _ IH]; intros n.
  - exists n. apply Yields_cut.
  - exists (S n). apply Yields_done. unfold pull, map_body; simpl. now rewrite Hp.
  - exists (S n). apply Yields_throw. unfold pull, map_body; simpl. now rewrite Hp.
  - destruct (IH (S n)) as [n' Hn']. exists n'.
    eapply Yields_tau; [|exact Hn']. unfold pull, map_body; simpl. now rewrite Hp.
  - destruct (IH (S n)) as [n' Hn']. exists n'. simpl.
    eapply Yields_value; [|exact Hn'].
    unfold pull, map_body; simpl. now rewrite Hp.
Qed.

(** [take] while the counter lasts: the elements pass through. *)
Lemma take_passes g xs g' :
  Takes g xs g' ->
  forall (n : Z) m, (Z.of_nat (List.length xs) <= n)%Z -> exists m',
    Yields (mkGenerator take_body Suspended (n, g) m) xs Continues
           (mkGenerator take_body Suspended ((n - Z.of_nat (List.length xs))%Z, g') m').
Proof.
  induction 1 as [g | g g1 x xs g' Hp _ IH | g v g1 xs g' Hp _ IH]; intros n m Hn.
  - exists m. simpl. rewrite Z.sub_0_r. apply Yields_cut.
  - destruct (IH n (S m) Hn) as [m' Hm']. exists m'.
    eapply Yields_tau; [|exact Hm'].
    unfold pull, take_body; simpl.
    assert ((n >? 0)%Z = true) as -> by (simpl List.length in Hn; lia).
    now rewrite Hp.
  - simpl List.length in Hn.
    destruct (IH (n - 1)%Z (S m) ltac:(lia)) as [m' Hm']. exists m'.
    replace (n - Z.of_nat (List.length (v :: xs)))%Z
      with (n - 1 - Z.of_nat (List.length xs))%Z by (simpl List.length; lia).
    eapply Yields_value; [|exact Hm'].
    unfold pull, take_body; simpl.
    assert ((n >? 0)%Z = true) as -> by lia.
    now rewrite Hp.
Qed.

(** [take] over an upstream that gives out before the counter does. *)
Lemma take_short g xs ending g' :
  Yields g xs ending g' ->
  forall (n : Z) m, (Z.of_nat (List.length xs) < n)%Z -> exists m',
    Yields (mkGenerator take_body Suspended (n, g) m) xs ending
           (mkGenerator take_body (status_after ending)
              ((n - Z.of_nat (List.length xs))%Z, g') m').
Proof.
  induction 1 as [g | g g' Hp | g e g' Hp | g g1 xs ending g' Hp _ IH
                 | g v g1 xs ending g' Hp _ IH]; intros n m Hn.
  - exists m. simpl. rewrite Z.sub_0_r. apply Yields_cut.
  - exists (S m). simpl in *. rewrite Z.sub_0_r. apply Yields_done.
    unfold pull, take_body; simpl.
    assert ((n >? 0)%Z = true) as -> by lia. now rewrite Hp.
  - exists (S m). simpl in *. rewrite Z.sub_0_r. apply Yields_throw.
    unfold pull, take_body; simpl.
    assert ((n >? 0)%Z = true) as -> by lia. now rewrite Hp.
  - destruct (IH n (S m) Hn) as [m' Hm']. exists m'.
    eapply Yields_tau; [|exact Hm'].
    unfold pull, take_body; simpl.
    assert ((n >? 0)%Z = true) as -> by lia. now rewrite Hp.
  - simpl List.length in Hn.
    destruct (IH (n - 1)%Z (S m) ltac:(lia)) as [m' Hm']. exists m'.
    replace (n - Z.of_nat (List.length (v :: xs)))%Z
      with (n - 1 - Z.of_nat (List.length xs))%Z by (simpl List.length; lia).
    eapply Yields_value; [|exact Hm'].
    unfold pull, take_body; simpl.
    assert ((n >? 0)%Z = true) as -> by lia. now rewrite Hp.
Qed.

(** [take] whose counter gives out first: it ends without resuming the
    upstream generator again. *)
Lemma take_stops g xs g' (n : Z) m :
  Takes g xs g' -> n = Z.of_nat (List.length xs) -> exists m',
    Yields (mkGenerator take_body Suspended (n, g) m) xs Ends
           (mkGenerator take_body Completed (0%Z, g') m').
Proof.
  intros Ht Hn.
  destruct (take_passes g xs g' Ht n m ltac:(lia)) as [m' Hm'].
  exists (S m'). rewrite <- (app_nil_r xs).
  eapply Yields_app; [exact Hm'|].
  apply Yields_done. unfold pull, take_body; simpl.
  replace (n - Z.of_nat (List.length xs))%Z with 0%Z by lia. reflexivity.
Qed.

(** [take] whose counter is used up within the run (or was never
    positive). *)
Lemma take_within (n : Z) g xs ending g' :
  Yields g xs ending g' -> Z.to_nat n <= List.length xs ->
  exists g1 (g2 : Generator E T (Z * Generator E T L)),
    Takes g (firstn (Z.to_nat n) xs) g1
    /\ Yields g1 (skipn (Z.to_nat n) xs) ending g'
    /\ Yields (mkGenerator take_body Suspended (n, g) 0) (firstn (Z.to_nat n) xs) Ends g2
    /\ snd (frame g2) = g1.
Proof.
  intros Hy Hle.
  destruct (Yields_split g xs ending g' Hy (Z.to_nat n) Hle) as (g1 & Ht & Hr).
  destruct (Z_le_gt_dec n 0) as [Hn | Hn].
  - replace (Z.to_nat n) with 0 in * by lia. simpl in *.
    inversion Ht; subst.
    exists g1, (mkGenerator take_body Completed (n, g1) 1).
    repeat split; [constructor | exact Hr |].
    apply Yields_done. unfold pull, take_body; simpl.
    now assert ((n >? 0)%Z = false) as -> by lia.
  - destruct (take_stops g _ g1 n 0 Ht) as [m' Hm'].
    { rewrite length_firstn. lia. }
    exists g1, (mkGenerator take_body Completed (0%Z, g1) m').
    repeat split; assumption.
Qed.

Lemma take_toArray (n : Z) (this : t E T L) xs g' :
  Yields (generator this) xs Ends g' ->
  exists k, forall fuel, k <= fuel ->
    fst (toArray fuel (take n this)) = Fulfilled (firstn (Z.to_nat n) xs).
Proof.
  intros Hy.
  destruct (Nat.leb_spec (Z.to_nat n) (List.length xs)) as [Hle | Hgt].
  - destruct (take_within n _ _ _ _ Hy Hle) as (g1 & g2 & _ & _ & Hrun & _).
    destruct (run_toArray (take n this) _ Ends g2 Hrun) as [k Hk].
    exists k. intros fuel Hf. now rewrite (Hk fuel Hf).
  - rewrite firstn_all2 by lia.
    destruct (take_short _ _ _ _ Hy n 0 ltac:(lia)) as [m' Hrun].
    destruct (run_toArray (take n this) _ Ends _ Hrun) as [k Hk].
    exists k. intros fuel Hf. now rewrite (Hk fuel Hf).
Qed.
End Combinators.

(** X1. [filter]: when the underlying generator yields [xs] and then ends
    (or throws [e]), the filtered sequence yields the elements of [xs] that
    satisfy the predicate, in the same order, and ends the same way, the
    underlying generator being left where its own run left it; so
    [toArray] gives exactly those elements (or rejects with [e]). *)
Theorem filter_keeps_matching_elements {E T L}
    (this : t E T L) (predicate : T -> bool) (xs : list T)
    (ending : Ending E) (g' : Generator E T L) :
  Yields (generator this) xs ending g' ->
  (exists g2,
      Yields (generator (filter predicate this)) (List.filter predicate xs) ending g2
      /\ frame g2 = g')
  /\ exists k, forall fuel, k <= fuel ->
       match ending with
       | Ends =>
           fst (toArray fuel (filter predicate this))
           = Fulfilled (List.filter predicate xs)
       | Fails e => fst (toArray fuel (filter predicate this)) = Rejected e
       | Continues => True
       end.
Proof.
  intros Hy. destruct (filter_run predicate _ _ _ _ Hy 0) as [n' Hrun].
  split; [eexists; split; [exact Hrun | reflexivity]|].
  destruct (run_toArray (filter predicate this) _ _ _ Hrun) as [k Hk].
  exists k. intros fuel Hf. specialize (Hk fuel Hf).
  destruct ending; trivial; now rewrite Hk.
Qed.

Lemma filter_keeps_matching_elements_witness :
  exists k, forall fuel, k <= fuel ->
    fst (toArray (E := string) fuel (filter Nat.even (yields [1; 2; 3; 4; 5])))
    = Fulfilled [2; 4].
Proof.
  exact (proj2 (filter_keeps_matching_elements (yields [1; 2; 3; 4; 5]) Nat.even
                  [1; 2; 3; 4; 5] Ends _ (yields_run [1; 2; 3; 4; 5] 0))).
Defined.

(** X2. [map]: when the underlying generator yields [xs] and then ends (or
    throws [e]), the mapped sequence yields the images of the elements of
    [xs] under the callback, in the same order, and ends the same way; so
    [toArray] gives [xs] mapped (or rejects with [e]). *)
Theorem map_transforms_every_element {E T V L}
    (this : t E T L) (callback : T -> V) (xs : list T)
    (ending : Ending E) (g' : Generator E T L) :
  Yields (generator this) xs ending g' ->
  (exists g2,
      Yields (generator (map callback this)) (List.map callback xs) ending g2
      /\ frame g2 = g')
  /\ exists k, forall fuel, k <= fuel ->
       match ending with
       | Ends => fst (toArray fuel (map callback this)) = Fulfilled (List.map callback xs)
       | Fails e => fst (toArray fuel (map callback this)) = Rejected e
       | Continues => True
       end.
Proof.
  intros Hy. destruct (map_run callback _ _ _ _ Hy 0) as [n' Hrun].
  split; [eexists; split; [exact Hrun | reflexivity]|].
  destruct (run_toArray (map callback this) _ _ _ Hrun) as [k Hk].
  exists k. intros fuel Hf. specialize (Hk fuel Hf).
  destruct ending; trivial; now rewrite Hk.
Qed.

Lemma map_transforms_every_element_witness :
  exists k, forall fuel, k <= fuel ->
    fst (toArray (E := string) fuel (map (fun n => n * 2) (yields [1; 2; 3])))
    = Fulfilled [2; 4; 6].
Proof.
  exact (proj2 (map_transforms_every_element (yields [1; 2; 3]) (fun n => n * 2)
                  [1; 2; 3] Ends _ (yields_run [1; 2; 3] 0))).
Defined.

(** X3. [take(n)] for an integer [n] not above the number of elements the
    underlying generator has to give: the sequence yields the first [n]
    elements (none when [n <= 0]) and ends, having resumed the underlying
    generator up to its [n]-th [yield] and no further; the elements not
    taken, and the end or the failure behind them, are still to come from
    the underlying generator.  In particular a failure of the underlying
    generator behind the [n]-th element is not raised. *)
Theorem take_stops_at_the_count {E T L}
    (this : t E T L) (n : Z) (xs : list T) (ending : Ending E)
    (g' : Generator E T L) :
  Yields (generator this) xs ending g' ->
  Z.to_nat n <= List.length xs ->
  exists g1 g2,
    Takes (generator this) (firstn (Z.to_nat n) xs) g1
    /\ Yields g1 (skipn (Z.to_nat n) xs) ending g'
    /\ Yields (generator (take n this)) (firstn (Z.to_nat n) xs) Ends g2
    /\ snd (frame g2) = g1
    /\ exists k, forall fuel, k <= fuel ->
         fst (toArray fuel (take n this)) = Fulfilled (firstn (Z.to_nat n) xs).
Proof.
  intros Hy Hle.
  destruct (take_within n _ _ _ _ Hy Hle) as (g1 & g2 & Ht & Hr & Hrun & Hf).
  exists g1, g2. repeat (split; [assumption|]).
  destruct (run_toArray (take n this) _ Ends g2 Hrun) as [k Hk].
  exists k. intros fuel Hfuel. now rewrite (Hk fuel Hfuel).
Qed.

Lemma take_stops_at_the_count_witness :
  exists g1 g2,
    Takes (generator (yields (E := string) [1; 2; 3])) (firstn (Z.to_nat 2) [1; 2; 3]) g1
    /\ Yields g1 (skipn (Z.to_nat 2) [1; 2; 3]) Ends
              (mkGenerator yields_body Completed [] 4)
    /\ Yields (generator (take 2 (yields (E := string) [1; 2; 3]))) (firstn (Z.to_nat 2) [1; 2; 3]) Ends g2
    /\ snd (frame g2) = g1
    /\ exists k, forall fuel, k <= fuel ->
         fst (toArray (E := string) fuel (take 2 (yields [1; 2; 3])))
         = Fulfilled (firstn (Z.to_nat 2) [1; 2; 3]).
Proof.
  apply (take_stops_at_the_count (yields [1; 2; 3]) 2 [1; 2; 3] Ends _
           (yields_run [1; 2; 3] 0)).
  simpl. lia.
Defined.

(** X4. [take(n)] for an integer [n] above the number of elements the
    underlying generator gives: the sequence is the underlying one; it
    yields all the elements and ends, or throws, as the underlying
    generator does. *)
Theorem take_beyond_the_supply {E T L}
    (this : t E T L) (n : Z) (xs : list T) (ending : Ending E)
    (g' : Generator E T L) :
  Yields (generator this) xs ending g' ->
  (Z.of_nat (List.length xs) < n)%Z ->
  (exists g2, Yields (generator (take n this)) xs ending g2 /\ snd (frame g2) = g')
  /\ exists k, forall fuel, k <= fuel ->
       match ending with
       | Ends => fst (toArray fuel (take n this)) = Fulfilled xs
       | Fails e => fst (toArray fuel (take n this)) = Rejected e
       | Continues => True
       end.
Proof.
  intros Hy Hn. destruct (take_short _ _ _ _ Hy n 0 Hn) as [m' Hrun].
  split; [eexists; split; [exact Hrun | reflexivity]|].
  destruct (run_toArray (take n this) _ _ _ Hrun) as [k Hk].
  exists k. intros fuel Hf. specialize (Hk fuel Hf).
  destruct ending; trivial; now rewrite Hk.
Qed.

Lemma take_beyond_the_supply_witness :
  exists k, forall fuel, k <= fuel ->
    fst (toArray (E := string) fuel (take 5 (yields [1; 2; 3]))) = Fulfilled [1; 2; 3].
Proof.
  refine (proj2 (take_beyond_the_supply (yields [1; 2; 3]) 5 [1; 2; 3] Ends _
                   (yields_run [1; 2; 3] 0) _)).
  simpl. lia.
Defined.

(** X5. A sequence whose generator throws [e] after yielding some
    elements: [toArray] rejects with [e] (the elements collected so far
    are not returned), the generator is completed by the throw, and from
    then on [toArray] gives the empty list and [next] reports [done]; the
    error is raised once. *)
Theorem toArray_rejects_once {E T L}
    (this : t E T L) (xs : list T) (e : E) (g' : Generator E T L) :
  Yields (generator this) xs (Fails e) g' ->
  exists k, forall fuel, k <= fuel ->
    toArray fuel this = (Rejected e, mk g')
    /\ toArray fuel (mk g') = (Fulfilled [], mk g')
    /\ next fuel (mk g') = (Fulfilled IDone, mk g').
Proof.
  intros Hy. destruct (run_toArray this _ _ _ Hy) as [k Hk].
  assert (status g' = Completed) as Hc.
  { eapply yields_completed; [exact Hy | discriminate]. }
  exists (S k). intros [|fuel] Hf; [lia|]. split; [apply Hk; lia|]. split.
  - unfold toArray. simpl generator.
    now rewrite (completed_toArray_loop g' fuel fuel [] Hc).
  - unfold next. simpl. now rewrite (pull_completed g' Hc).
Qed.

Lemma toArray_rejects_once_witness :
  exists k, forall fuel, k <= fuel ->
    toArray fuel (throws (T := nat) "boom")
    = (Rejected "boom", mk (mkGenerator (throws_body "boom") Completed tt 1))
    /\ toArray fuel (mk (mkGenerator (throws_body (T := nat) "boom") Completed tt 1))
       = (Fulfilled [], mk (mkGenerator (throws_body "boom") Completed tt 1))
    /\ next fuel (mk (mkGenerator (throws_body (T := nat) "boom") Completed tt 1))
       = (Fulfilled IDone, mk (mkGenerator (throws_body "boom") Completed tt 1)).
Proof.
  apply (toArray_rejects_once (throws "boom") []).
  apply Yields_throw. reflexivity.
Defined.

(** X6. The chain of the documentation, [filter] then [map] then [take]
    then [toArray], over a generator that yields [xs] and ends: the result
    is the first [n] of the images of the elements of [xs] that satisfy
    the predicate. *)
Theorem filter_map_take_compose {E T V L}
    (this : t E T L) (predicate : T -> bool) (callback : T -> V) (n : Z)
    (xs : list T) (g' : Generator E T L) :
  Yields (generator this) xs Ends g' ->
  exists k, forall fuel, k <= fuel ->
    fst (toArray fuel (take n (map callback (filter predicate this))))
    = Fulfilled (firstn (Z.to_nat n) (List.map callback (List.filter predicate xs))).
Proof.
  intros Hy.
  destruct (filter_run predicate _ _ _ _ Hy 0) as [n1 H1].
  destruct (map_run callback _ _ _ _ H1 0) as [n2 H2].
  exact (take_toArray n (map callback (filter predicate this)) _ _ H2).
Qed.

Lemma filter_map_take_compose_witness :
  exists k, forall fuel, k <= fuel ->
    fst (toArray (E := string) fuel
           (take 2 (map (fun n => n * 10) (filter Nat.odd (yields [1; 2; 3; 4; 5])))))
    = Fulfilled [10; 30].
Proof.
  exact (filter_map_take_compose (yields [1; 2; 3; 4; 5]) Nat.odd (fun n => n * 10) 2
           [1; 2; 3; 4; 5] _ (yields_run [1; 2; 3; 4; 5] 0)).
Defined.

End PipelineFacts.

Module DispatcherFacts.
Import Undici RateLimiter RateLimiterFacts.

Section Bookkeeping.
Variable Request : Type.
Local Abbreviation State := (RateLimiter.State Request).
Local Abbreviation WorkItem := (RateLimiter.WorkItem Request).
Implicit Types (s r : State) (item : WorkItem) (q fired rest : list WorkItem).

Lemma take_nth_perm n : forall (l : list WorkItem) item rest,
  take_nth n l = Some (item, rest) -> Permutation l (item :: rest).
Proof.
  induction n as [|n IH]; intros [|x l] item rest H; simpl in H; try discriminate.
  - inversion H; subst. reflexivity.
  - destruct (take_nth n l) as [[y rest']|] eqn:Ht; [|discriminate].
    inversion H; subst. rewrite (IH _ _ _ Ht). apply perm_swap.
Qed.

Lemma perm_rotate {A} (a b c d : list A) :
  Permutation (a ++ b ++ c ++ d) (c ++ a ++ b ++ d).
Proof.
  rewrite (app_assoc a b (c ++ d)), Permutation_app_swap_app.
  now rewrite <- app_assoc.
Qed.

Lemma Fires_accounted s r fired :
  Fires s r fired -> Permutation (accounted r) (accounted s).
Proof.
  intros (F1 & F2 & _ & F4 & _). unfold accounted.
  rewrite F1, F2, F4, !List.map_app, <- !app_assoc.
  apply perm_rotate.
Qed.

(** A promise changes hands: the item in flight is put back in the queue. *)
Lemma accounted_requeued s item rest :
  Permutation (inFlight s) (item :: rest) ->
  Permutation
    (accounted (set_pending (retry item :: _pendingWorkItems s) (set_inFlight rest s)))
    (accounted s).
Proof.
  intros Hp. unfold accounted. cbn [set_pending set_inFlight _pendingWorkItems inFlight settled].
  rewrite (Permutation_map promise Hp). cbn [List.map retry promise app].
  apply Permutation_middle.
Qed.

(** A promise changes hands: the item in flight is settled. *)
Lemma accounted_settled s item rest result :
  Permutation (inFlight s) (item :: rest) ->
  Permutation (accounted (settle (promise item) result (set_inFlight rest s)))
              (accounted s).
Proof.
  intros Hp. unfold accounted. cbn [settle set_inFlight _pendingWorkItems inFlight settled].
  rewrite (Permutation_map promise Hp), List.map_app. cbn [List.map fst].
  apply Permutation_app_head. cbn [app].
  rewrite app_assoc. symmetry. apply Permutation_cons_append.
Qed.

Lemma step_accounted s e :
  well_formed s ->
  Permutation (accounted s) (seq 0 (promises s)) ->
  Permutation (accounted (step s e)) (seq 0 (promises (step s e))).
Proof.
  intros Hwf Hacc.
  destruct e as [req | now | now | n now status hs content | n err]; cbn [step].
  - unfold request, accounted in *. cbn -[seq].
    rewrite seq_S, List.map_app, <- app_assoc. cbn [List.map promise app].
    rewrite <- Permutation_middle, <- Permutation_cons_append.
    now apply perm_skip.
  - destruct (startWorkLoop_fires _ now s Hwf) as (fired & HF & _).
    rewrite (Fires_accounted _ _ _ HF). now rewrite (proj1 (proj2 (proj2 (proj2 (proj2 HF))))).
  - destruct (_isIdle s) eqn:Hi; [exact Hacc|].
    destruct (_pendingWorkItems s) as [|item rest] eqn:Hq; [now elim (Hwf Hi)|].
    destruct (resume_fires _ now s item rest Hi Hq) as (fired & HF & _).
    rewrite (Fires_accounted _ _ _ HF). now rewrite (proj1 (proj2 (proj2 (proj2 (proj2 HF))))).
  - destruct (take_nth n (inFlight s)) as [[item rest]|] eqn:Ht; [|exact Hacc].
    pose proof (take_nth_perm _ _ _ _ Ht) as Hp.
    assert (forall res,
               Permutation
                 (accounted (resolve_and_check_quota now item res (set_inFlight rest s)))
                 (seq 0 (promises
                           (resolve_and_check_quota now item res (set_inFlight rest s)))))
      as Hres.
    { intros res.
      pose proof (resolve_and_check_quota_fields _ now item res (set_inFlight rest s)) as H.
      cbv zeta in H. destruct H as (H1 & H2 & H3 & _ & H5 & _).
      rewrite H5. cbn [set_inFlight promises]. rewrite <- Hacc.
      rewrite <- (accounted_settled s item rest (inl res) Hp).
      unfold accounted. rewrite H1, H2, H3. reflexivity. }
    unfold on_fulfilled, arrived, text. cbn [statusCode body headers text_method bodyUsed wire].
    destruct (status =? 403)%Z; [|apply Hres].
    destruct (JSString.includes "Rate Limit Exceeded" content); [|apply Hres].
    destruct (retryCount item >=? MAX_RETRIES)%Z.
    + cbn [settle promises set_inFlight]. rewrite <- Hacc.
      exact (accounted_settled s item rest _ Hp).
    + match goal with
      |- context [startWorkLoop now (_setDelayToStartAtNextInterval now ?s1)] =>
        pose proof (setDelay_fields _ now s1) as Hd; cbv zeta in Hd;
        destruct Hd as (D1 & D2 & _ & D4 & D5 & _);
        destruct (startWorkLoop_fires _ now (_setDelayToStartAtNextInterval now s1))
          as (fired & HF & _);
        [ intros _; rewrite D1; discriminate | ]
      end.
      rewrite (Fires_accounted _ _ _ HF).
      rewrite (proj1 (proj2 (proj2 (proj2 (proj2 HF))))), D5.
      cbn [set_pending set_inFlight promises]. rewrite <- Hacc.
      rewrite <- (accounted_requeued s item rest Hp).
      unfold accounted. rewrite D1, D2, D4. reflexivity.
  - destruct (take_nth n (inFlight s)) as [[item rest]|] eqn:Ht; [|exact Hacc].
    pose proof (take_nth_perm _ _ _ _ Ht) as Hp.
    unfold on_rejected. cbn [settle promises set_inFlight]. rewrite <- Hacc.
    exact (accounted_settled s item rest _ Hp).
Qed.

Lemma run_accounted events : forall s,
  well_formed s ->
  Permutation (accounted s) (seq 0 (promises s)) ->
  Permutation (accounted (run s events)) (seq 0 (promises (run s events))).
Proof.
  induction events as [|e events IH]; intros s Hwf Hacc; simpl; [exact Hacc|].
  apply IH; [now apply step_well_formed | now apply step_accounted].
Qed.

(** X7. Every promise is accounted for exactly once.  In every state the
    dispatcher can reach, the promises of the queued work items, of the
    work items in flight and the promises settled so far are, together,
    the promises created so far, each of them once: no request is lost, no
    request is in two places, and no promise is settled twice. *)
Theorem every_promise_is_accounted_once (limit : Z) (events : list (Event Request)) :
  let s := run (create Request limit) events in
  Permutation (accounted s) (seq 0 (promises s))
  /\ NoDup (accounted s)
  /\ NoDup (List.map fst (settled s))
  /\ (forall p, p < promises s <->
        In p (List.map promise (_pendingWorkItems s))
        \/ In p (List.map promise (inFlight s))
        \/ In p (List.map fst (settled s))).
Proof.
  cbv zeta.
  assert (Permutation (accounted (run (create Request limit) events))
            (seq 0 (promises (run (create Request limit) events)))) as Hacc.
  { apply run_accounted; [intros H; discriminate H | reflexivity]. }
  assert (NoDup (accounted (run (create Request limit) events))) as Hnd.
  { eapply Permutation_NoDup; [symmetry; exact Hacc | apply seq_NoDup]. }
  split; [exact Hacc|]. split; [exact Hnd|]. split.
  - unfold accounted in Hnd. apply NoDup_app_remove_l in Hnd.
    now apply NoDup_app_remove_l in Hnd.
  - intros p. rewrite <- !in_app_iff. fold (accounted (run (create Request limit) events)).
    split; intros H.
    + eapply Permutation_in; [symmetry; exact Hacc|]. apply in_seq. lia.
    + apply (Permutation_in _ Hacc) in H. apply in_seq in H. lia.
Qed.

(** X8. Only a 403 is ever looked into.  A response with any other status
    (a 429 or a 500 as much as a 200) resolves the promise of its request
    at once with that response, its body unread, and a call of [workFn]
    that rejects makes the promise reject with the same error; in both
    cases nothing is put back in the queue and nothing is dispatched. *)
Theorem other_outcomes_settle_at_once s n item rest :
  take_nth n (inFlight s) = Some (item, rest) ->
  (forall now status hs content,
      status <> 403%Z ->
      let s' := step s (Respond n now status hs content) in
      settled s' = settled s ++ [(promise item, inl (arrived status hs content))]
      /\ bodyUsed (body (arrived status hs content)) = false
      /\ _pendingWorkItems s' = _pendingWorkItems s
      /\ inFlight s' = rest
      /\ dispatched s' = dispatched s)
  /\ (forall err,
        let s' := step s (Fail n err) in
        settled s' = settled s ++ [(promise item, inr err)]
        /\ _pendingWorkItems s' = _pendingWorkItems s
        /\ inFlight s' = rest
        /\ dispatched s' = dispatched s
        /\ _nextDelay s' = _nextDelay s).
Proof.
  intros Ht. split.
  - intros now status hs content Hst. cbv zeta. cbn [step]. rewrite Ht.
    unfold on_fulfilled. cbn [arrived statusCode].
    destruct (Z.eqb_spec status 403) as [H|_]; [contradiction|].
    pose proof (resolve_and_check_quota_fields _ now item
                  (mkResponseData status hs (mkBody content false None))
                  (set_inFlight rest s)) as H.
    cbv zeta in H. destruct H as (H1 & H2 & H3 & H4 & _).
    repeat split; assumption.
  - intros err. cbv zeta. cbn [step]. rewrite Ht. repeat split.
Qed.

Lemma workLoop_burst now q : forall s,
  (_nextDelay s <= 0)%Z ->
  let r := workLoop now q s in
  _pendingWorkItems r = [] /\ inFlight r = inFlight s ++ q
  /\ dispatched r = dispatched s ++ q /\ _isIdle r = true
  /\ settled r = settled s
  /\ (_intervalPeriodStart s = now -> _intervalPeriodStart r = now).
Proof.
  induction q as [|item q IH]; intros s Hd; cbv zeta; cbn [workLoop].
  - cbn. rewrite !app_nil_r. repeat split. auto.
  - assert ((_nextDelay s >? 0)%Z = false) as -> by lia.
    pose proof (checkAndReset_fields _ now s) as Hc. cbv zeta in Hc.
    destruct Hc as (_ & Hf & Hdis & Hs & _).
    destruct (IH (call_workFn item (_checkAndResetInterval now s)))
      as (I1 & I2 & I3 & I4 & I5 & I6).
    { unfold _checkAndResetInterval. destruct (_ >? _)%Z; simpl; lia. }
    rewrite I2, I3, I5. cbn [call_workFn inFlight dispatched settled].
    rewrite Hf, Hdis, Hs, <- !app_assoc. repeat split; try assumption.
    intros Hstart. apply I6. cbn [call_workFn _intervalPeriodStart].
    unfold _checkAndResetInterval. destruct (_ >? _)%Z; simpl; auto.
Qed.

(** X9. No throttling without cause.  When the loop of an idle dispatcher
    is started and no delay is pending, every queued work item is
    dispatched in the same turn, in queue order, none waiting for the
    answer to another, and the dispatcher is idle again. *)
Theorem idle_dispatcher_fires_whole_queue s now :
  _isIdle s = true -> (_nextDelay s <= 0)%Z ->
  let r := step s (Tick now) in
  _pendingWorkItems r = []
  /\ inFlight r = inFlight s ++ _pendingWorkItems s
  /\ dispatched r = dispatched s ++ _pendingWorkItems s
  /\ _isIdle r = true
  /\ settled r = settled s.
Proof.
  intros Hi Hd. cbv zeta. cbn [step]. unfold startWorkLoop. rewrite Hi.
  match goal with |- context [workLoop now ?q ?s1] =>
    pose proof (workLoop_burst now q s1 Hd) as H end.
  cbv zeta in H. destruct H as (H1 & H2 & H3 & H4 & H5 & _).
  repeat split; assumption.
Qed.

(** X10. Throttled dispatch.  A sleeping loop that wakes up dispatches the
    head of the queue whatever the delay is by then.  While the interval
    has not passed and the delay is positive it dispatches the head alone
    and sleeps again in front of the rest (or goes idle when nothing is
    left); once the interval has passed, the delay is dropped and the
    whole queue is dispatched in that turn. *)
Theorem sleeping_dispatcher_wakes s now item rest :
  _isIdle s = false -> _pendingWorkItems s = item :: rest ->
  let r := step s (Wake now) in
  ((now - _intervalPeriodStart s <= limitIntervalMs s)%Z ->
   (_nextDelay s > 0)%Z ->
   _pendingWorkItems r = rest
   /\ inFlight r = inFlight s ++ [item]
   /\ dispatched r = dispatched s ++ [item]
   /\ _isIdle r = match rest with [] => true | _ => false end
   /\ _nextDelay r = _nextDelay s)
  /\ ((now - _intervalPeriodStart s > limitIntervalMs s)%Z ->
      _pendingWorkItems r = []
      /\ inFlight r = inFlight s ++ item :: rest
      /\ dispatched r = dispatched s ++ item :: rest
      /\ _isIdle r = true
      /\ _intervalPeriodStart r = now).
Proof.
  intros Hi Hq. cbv zeta. cbn [step]. rewrite Hi. unfold resume. split.
  - intros Hd Hpos. unfold _checkAndResetInterval.
    assert ((now - _intervalPeriodStart s >? limitIntervalMs s)%Z = false) as -> by lia.
    rewrite Hq. destruct rest as [|x rest]; cbn [workLoop].
    + cbn. repeat split.
    + cbn [call_workFn _nextDelay].
      assert ((_nextDelay s >? 0)%Z = true) as -> by lia.
      cbn. repeat split; auto.
  - intros Hd. unfold _checkAndResetInterval.
    assert ((now - _intervalPeriodStart s >? limitIntervalMs s)%Z = true) as -> by lia.
    cbn [set_timing _pendingWorkItems]. rewrite Hq.
    match goal with |- context [workLoop now rest ?s1] =>
      pose proof (workLoop_burst now rest s1) as H end.
    cbv zeta in H. destruct H as (H1 & H2 & H3 & H4 & _ & H6); [simpl; lia|].
    rewrite H1, H2, H3, H4, H6 by reflexivity.
    cbn [call_workFn set_timing inFlight dispatched].
    rewrite <- !app_assoc. repeat split.
Qed.

(** *** The delay under a clock that does not run backwards *)

(** The delay is between nothing and one interval, and the interval did
    not start after [now]. *)
Local Abbreviation timed now s :=
  ((0 <= _nextDelay s <= limitIntervalMs s)%Z /\ (_intervalPeriodStart s <= now)%Z).

Lemma timed_later t now s : (t <= now)%Z -> timed t s -> timed now s.
Proof. intros Ht [Hd Hs]. split; [exact Hd | lia]. Qed.

Lemma checkAndReset_timed now s :
  timed now s -> timed now (_checkAndResetInterval now s).
Proof.
  intros [Hd Hs]. unfold _checkAndResetInterval.
  destruct (_ >? _)%Z; cbn; lia.
Qed.

Lemma setDelay_timed now s :
  timed now s -> timed now (_setDelayToStartAtNextInterval now s).
Proof.
  intros [Hd Hs]. unfold _setDelayToStartAtNextInterval.
  destruct (Z.ltb_spec (_nextDelay s) (limitIntervalMs s - (now - _intervalPeriodStart s)));
    cbn; lia.
Qed.

Lemma workLoop_timed now q : forall s, timed now s -> timed now (workLoop now q s).
Proof.
  induction q as [|item q IH]; intros s H; cbn [workLoop].
  - exact H.
  - destruct (_nextDelay s >? 0)%Z; [exact H|].
    apply IH. exact (checkAndReset_timed now s H).
Qed.

Lemma startWorkLoop_timed now s : timed now s -> timed now (startWorkLoop now s).
Proof.
  intros [Hd Hs]. unfold startWorkLoop. destruct (_isIdle s); [|now split].
  apply workLoop_timed. cbn. lia.
Qed.

Lemma resolve_timed now item res s :
  timed now s -> timed now (resolve_and_check_quota now item res s).
Proof.
  intros H. unfold resolve_and_check_quota.
  destruct (get _ _) as [remaining|]; [|exact H].
  destruct (parseInt _) as [k|]; [|exact H].
  destruct (k <? 50)%Z; [|exact H].
  apply setDelay_timed. exact H.
Qed.

Lemma step_timed s e t :
  timed t s ->
  match event_time e with
  | Some now => (t <= now)%Z -> timed now (step s e)
  | None => timed t (step s e)
  end.
Proof.
  intros H.
  destruct e as [req | now | now | n now status hs content | n err];
    cbn [event_time step]; try intros Ht; try apply (timed_later t now _ Ht) in H.
  - exact H.
  - now apply startWorkLoop_timed.
  - destruct (_isIdle s); [exact H|]. unfold resume.
    apply (checkAndReset_timed now) in H.
    destruct (_pendingWorkItems (_checkAndResetInterval now s)); [exact H|].
    apply workLoop_timed. exact H.
  - destruct (take_nth n (inFlight s)) as [[item rest]|]; [|exact H].
    assert (timed now (set_inFlight rest s)) as H' by exact H.
    unfold on_fulfilled.
    destruct (statusCode _ =? 403)%Z; [|now apply resolve_timed].
    destruct (text _) as [[txt | err] read]; [|exact H'].
    destruct (JSString.includes _ _); [|now apply resolve_timed].
    destruct (retryCount item >=? MAX_RETRIES)%Z; [exact H'|].
    apply startWorkLoop_timed, setDelay_timed. exact H'.
  - destruct (take_nth n (inFlight s)) as [[item rest]|]; exact H.
Qed.

Lemma run_timed events : forall s t,
  chronological t events -> timed t s ->
  exists t', timed t' (run s events).
Proof.
  induction events as [|e events IH]; intros s t Hc H; cbn [run fold_left].
  - now exists t.
  - pose proof (step_timed s e t H) as Hs. cbn [chronological] in Hc.
    destruct (event_time e) as [now|].
    + destruct Hc as [Ht Hc]. exact (IH _ now Hc (Hs Ht)).
    + exact (IH _ t Hc Hs).
Qed.

Lemma workLoop_limit now q : forall s,
  limitIntervalMs (workLoop now q s) = limitIntervalMs s.
Proof.
  induction q as [|item q IH]; intros s; cbn [workLoop]; [reflexivity|].
  destruct (_nextDelay s >? 0)%Z; [reflexivity|]. rewrite IH.
  unfold _checkAndResetInterval. now destruct (_ >? _)%Z.
Qed.

Lemma startWorkLoop_limit now s :
  limitIntervalMs (startWorkLoop now s) = limitIntervalMs s.
Proof.
  unfold startWorkLoop. destruct (_isIdle s); [|reflexivity].
  now rewrite workLoop_limit.
Qed.

Lemma step_limit s e : limitIntervalMs (step s e) = limitIntervalMs s.
Proof.
  destruct e as [req | now | now | n now status hs content | n err]; cbn [step].
  - reflexivity.
  - apply startWorkLoop_limit.
  - destruct (_isIdle s); [reflexivity|]. unfold resume.
    pose proof (checkAndReset_fields _ now s) as Hc. cbv zeta in Hc.
    destruct Hc as (_ & _ & _ & _ & _ & Hl & _).
    destruct (_pendingWorkItems _); [exact Hl|]. now rewrite workLoop_limit.
  - destruct (take_nth n (inFlight s)) as [[item rest]|]; [|reflexivity].
    assert (forall res,
               limitIntervalMs (resolve_and_check_quota now item res (set_inFlight rest s))
               = limitIntervalMs s) as Hres.
    { intros res.
      pose proof (resolve_and_check_quota_fields _ now item res (set_inFlight rest s)) as H.
      cbv zeta in H. destruct H as (_ & _ & _ & _ & _ & H6 & _). exact H6. }
    unfold on_fulfilled.
    destruct (statusCode _ =? 403)%Z; [|apply Hres].
    destruct (text _) as [[txt | err] read]; [|reflexivity].
    destruct (JSString.includes _ _); [|apply Hres].
    destruct (retryCount item >=? MAX_RETRIES)%Z; [reflexivity|].
    rewrite startWorkLoop_limit.
    unfold _setDelayToStartAtNextInterval. now destruct (_ <? _)%Z.
  - destruct (take_nth n (inFlight s)) as [[item rest]|]; reflexivity.
Qed.

Lemma run_limit events : forall s, limitIntervalMs (run s events) = limitIntervalMs s.
Proof.
  induction events as [|e events IH]; intros s; cbn [run fold_left]; [reflexivity|].
  fold (run (step s e) events). now rewrite IH, step_limit.
Qed.

(** X11. The dispatcher never sleeps longer than one interval.  When the
    interval is not negative and the clock does not run backwards (the
    readings of [Date.now()] are non-negative and do not decrease), the
    delay the loop sleeps for is, in every state the dispatcher can reach,
    between [0] and [limitIntervalMs]. *)
Theorem delay_is_within_one_interval (limit : Z) (events : list (Event Request)) :
  (0 <= limit)%Z ->
  chronological 0 events ->
  let s := run (create Request limit) events in
  (0 <= _nextDelay s <= limit)%Z /\ limitIntervalMs s = limit.
Proof.
  intros Hl Hc. cbv zeta.
  destruct (run_timed events (create Request limit) 0%Z Hc) as (t' & Hd & _).
  { cbn. lia. }
  rewrite run_limit in Hd. cbn in Hd. rewrite run_limit. cbn.
  split; [exact Hd | reflexivity].
Qed.

(** X12. Slowing down ahead of the limit.  A response that is resolved
    (any status but 403) and whose [x-rate-limit-remaining] header reads
    as a number below 50 raises the delay to what is left of the current
    interval, if that is more than the delay already pending; a header
    that is absent, does not start with a number, or reads 50 or more
    leaves the delay alone.  While the delay is positive, a request
    submitted to the idle dispatcher is not dispatched when the loop
    starts: the loop goes to sleep in front of it. *)
Theorem low_quota_raises_the_delay s n item rest now status hs content :
  take_nth n (inFlight s) = Some (item, rest) ->
  status <> 403%Z ->
  let s1 := step s (Respond n now status hs content) in
  let left := (limitIntervalMs s - (now - _intervalPeriodStart s))%Z in
  _nextDelay s1
  = match get "x-rate-limit-remaining" hs with
    | Some remaining =>
        match parseInt (String_header remaining) with
        | Some k => if (k <? 50)%Z then Z.max (_nextDelay s) left else _nextDelay s
        | None => _nextDelay s
        end
    | None => _nextDelay s
    end
  /\ (_isIdle s1 = true -> (_nextDelay s1 > 0)%Z ->
      forall req later,
        let s2 := step (step s1 (Submit req)) (Tick later) in
        dispatched s2 = dispatched s1
        /\ inFlight s2 = inFlight s1
        /\ List.length (_pendingWorkItems s2) = S (List.length (_pendingWorkItems s1))
        /\ _isIdle s2 = false).
Proof.
  intros Ht Hst. cbv zeta. cbn [step]. rewrite Ht.
  unfold on_fulfilled. cbn [arrived statusCode].
  destruct (Z.eqb_spec status 403) as [H|_]; [contradiction|].
  split.
  - unfold resolve_and_check_quota.
    change (headers (arrived status hs content)) with hs.
    destruct (get _ hs) as [remaining|]; [|reflexivity].
    destruct (parseInt _) as [k|]; [|reflexivity].
    destruct (k <? 50)%Z; [|reflexivity].
    unfold _setDelayToStartAtNextInterval.
    cbn [settle set_inFlight _nextDelay _intervalPeriodStart limitIntervalMs].
    destruct (Z.ltb_spec (_nextDelay s)
                (limitIntervalMs s - (now - _intervalPeriodStart s))); cbn; lia.
  - intros Hidle Hpos req later.
    match goal with |- context [request req ?s1] => generalize dependent s1 end.
    intros s1 Hidle Hpos. unfold startWorkLoop, request. cbn. rewrite Hidle.
    destruct (_pendingWorkItems s1) as [|x q]; cbn [app workLoop];
      cbn [_nextDelay]; assert ((_nextDelay s1 >? 0)%Z = true) as -> by lia;
      cbn; rewrite ?length_app; cbn; repeat split; lia.
Qed.

End Bookkeeping.

(** *** Runs of a dispatcher with a 1000 ms interval *)

Lemma other_outcomes_settle_at_once_witness :
  let s := run (create string 1000) [Submit "a"; Tick 0] in
  let s' := step s (Respond 0 10 429 [] "Too Many Requests") in
  settled s' = settled s ++ [(0, inl (arrived 429 [] "Too Many Requests"))]
  /\ bodyUsed (body (arrived 429 [] "Too Many Requests")) = false
  /\ _pendingWorkItems s' = _pendingWorkItems s
  /\ inFlight s' = []
  /\ dispatched s' = dispatched s.
Proof.
  refine (proj1 (other_outcomes_settle_at_once string
                   (run (create string 1000) [Submit "a"; Tick 0]) 0
                   (mkWorkItem 0 "a" 1 0) [] eq_refl)
            10%Z 429%Z [] "Too Many Requests" _).
  discriminate.
Defined.

Lemma idle_dispatcher_fires_whole_queue_witness :
  let s := run (create string 1000) [Submit "a"; Submit "b"; Submit "c"] in
  let r := step s (Tick 0) in
  _pendingWorkItems r = []
  /\ inFlight r = inFlight s ++ _pendingWorkItems s
  /\ dispatched r = dispatched s ++ _pendingWorkItems s
  /\ _isIdle r = true
  /\ settled r = settled s.
Proof.
  apply (idle_dispatcher_fires_whole_queue string
           (run (create string 1000) [Submit "a"; Submit "b"; Submit "c"]) 0).
  - reflexivity.
  - simpl. lia.
Defined.

Lemma sleeping_dispatcher_wakes_witness :
  let s := run (create string 1000)
             [Submit "a"; Submit "b"; Tick 0;
              Respond 0 10 403 [] rate_limited_body;
              Respond 0 20 403 [] rate_limited_body] in
  let r := step s (Wake 1000) in
  _pendingWorkItems r = [mkWorkItem 0 "a" 1 1]
  /\ inFlight r = inFlight s ++ [mkWorkItem 1 "b" 2 1]
  /\ dispatched r = dispatched s ++ [mkWorkItem 1 "b" 2 1]
  /\ _isIdle r = false
  /\ _nextDelay r = _nextDelay s.
Proof.
  refine (proj1 (sleeping_dispatcher_wakes string
                   (run (create string 1000)
                      [Submit "a"; Submit "b"; Tick 0;
                       Respond 0 10 403 [] rate_limited_body;
                       Respond 0 20 403 [] rate_limited_body])
                   1000 (mkWorkItem 1 "b" 2 1) [mkWorkItem 0 "a" 1 1]
                   eq_refl eq_refl) _ _).
  - vm_compute. discriminate.
  - reflexivity.
Defined.

Lemma delay_is_within_one_interval_witness :
  let s := run (create string 1000)
             [Submit "a"; Tick 0; Respond 0 10 403 [] rate_limited_body; Wake 1000] in
  (0 <= _nextDelay s <= 1000)%Z /\ limitIntervalMs s = 1000%Z.
Proof.
  apply (delay_is_within_one_interval string 1000
           [Submit "a"; Tick 0; Respond 0 10 403 [] rate_limited_body; Wake 1000]).
  - lia.
  - simpl. lia.
Defined.

Lemma low_quota_raises_the_delay_witness :
  let s := run (create string 1000) [Submit "a"; Tick 100] in
  let s1 := step s (Respond 0 300 200 [("x-rate-limit-remaining", LinkHeader.One "49.5")]
                      "[]") in
  _nextDelay s1 = 800%Z.
Proof.
  exact (proj1 (low_quota_raises_the_delay string
                  (run (create string 1000) [Submit "a"; Tick 100]) 0
                  (mkWorkItem 0 "a" 1 0) [] 300 200
                  [("x-rate-limit-remaining", LinkHeader.One "49.5")] "[]"
                  eq_refl ltac:(discriminate))).
Defined.

(** The white space [parseInt] skips is not only ASCII: a header that
    reads U+00A0 (the bytes 194, 160), U+3000, TAB and then [7] is read as
    7, and raises the delay like the header [7]. *)
Example quota_behind_no_break_space :
  let remaining :=
    String (ascii_of_nat 194) (String (ascii_of_nat 160)
      (String (ascii_of_nat 227) (String (ascii_of_nat 128) (String (ascii_of_nat 128)
         (String (ascii_of_nat 9) "7 left"))))) in
  parseInt remaining = Some 7%Z
  /\ let s := run (create string 1000) [Submit "a"; Tick 100] in
     _nextDelay
       (step s (Respond 0 300 200
                  [("x-rate-limit-remaining", LinkHeader.One remaining)] "[]"))
     = 800%Z.
Proof. split; reflexivity. Qed.

(** Bytes that only begin like a space are kept: U+00A1 and the euro sign
    are no white space, and the header is not a number. *)
Example quota_behind_other_bytes :
  parseInt (String (ascii_of_nat 194) (String (ascii_of_nat 161) "7")) = None
  /\ parseInt (String (ascii_of_nat 226) (String (ascii_of_nat 130)
                (String (ascii_of_nat 172) "7"))) = None
  /\ parseInt (String (ascii_of_nat 32) (String (ascii_of_nat 194) "7")) = None.
Proof. repeat split; reflexivity. Qed.
End DispatcherFacts.

Module LinkScanFacts.
Import LinkHeader StringFacts LinkHeaderFacts.
Import JSString(lacks).

Lemma prefix_append (n q : string) : String.prefix n (n ++ q) = true.
Proof.
  induction n as [|c n IH]; simpl.
  - now destruct q.
  - destruct (ascii_dec c c); [exact IH | contradiction].
Qed.

Lemma includes_middle (n p q : string) :
  JSString.includes n (p ++ n ++ q) = true.
Proof.
  induction p as [|c p IH].
  - change ("" ++ n ++ q)%string with (n ++ q)%string.
    destruct (n ++ q)%string eqn:E; cbn [JSString.includes];
      rewrite <- E, prefix_append; reflexivity.
  - change (String c p ++ n ++ q)%string with (String c (p ++ n ++ q)).
    cbn [JSString.includes]. rewrite IH. apply orb_true_r.
Qed.

(** The first segment of [split] is the part of the string in front of
    the first separator. *)
Lemma split_head (s part : string) (parts : list string) :
  JSString.split "," s = part :: parts ->
  lacks "," part = true /\ exists q, s = (part ++ q)%string.
Proof.
  revert part parts. induction s as [|c s IH]; intros part parts; cbn [JSString.split].
  - intros H; inversion H; subst. split; [reflexivity | now exists ""%string].
  - destruct (Ascii.eqb_spec c ",") as [-> | Hc].
    + intros H; inversion H; subst. split; [reflexivity|]. now exists (String "," s).
    + destruct (JSString.split "," s) as [|part' parts'] eqn:Hs.
      * intros H; inversion H; subst. exfalso.
        destruct s; simpl in Hs; [discriminate|].
        destruct (Ascii.eqb _ _); [discriminate|].
        destruct (JSString.split "," s); discriminate.
      * intros H; inversion H; subst.
        destruct (IH part' parts eq_refl) as (Hl & q & ->).
        split; [|now exists q].
        simpl. rewrite Hl. apply Ascii.eqb_neq in Hc. now rewrite Hc.
Qed.

(** Every segment of [split] is a piece of the string, and has no
    separator in it. *)
Lemma split_segment (s l : string) :
  In l (JSString.split "," s) ->
  lacks "," l = true /\ exists p q, s = (p ++ l ++ q)%string.
Proof.
  revert l. induction s as [|c s IH]; intros l.
  - cbn [JSString.split]. intros [<- | []]. split; [reflexivity|].
    now exists ""%string, ""%string.
  - intros Hin. destruct (JSString.split "," (String c s)) as [|part parts] eqn:Hs;
      [destruct Hin|].
    destruct Hin as [<- | Hin].
    + destruct (split_head _ _ _ Hs) as (Hl & q & Hq). split; [exact Hl|].
      exists ""%string, q. exact Hq.
    + cbn [JSString.split] in Hs.
      assert (In l (JSString.split "," s)) as Hin'.
      { destruct (Ascii.eqb c ","); [inversion Hs; subst; exact Hin|].
        destruct (JSString.split "," s) as [|part' parts'];
          inversion Hs; subst; [destruct Hin | now right]. }
      destruct (IH l Hin') as (Hl & p & q & ->). split; [exact Hl|].
      now exists (String c p), q.
Qed.

(** What [(.*?)>] matches holds no [>], and is followed by one. *)
Lemma lazy_until_gt_some (s url : string) :
  lazy_until_gt s = Some url ->
  lacks ">" url = true /\ exists q, s = (url ++ String ">" q)%string.
Proof.
  revert url. induction s as [|c s IH]; intros url; cbn [lazy_until_gt]; [discriminate|].
  destruct (Ascii.eqb_spec c ">") as [-> | Hc].
  - intros H; inversion H; subst. split; [reflexivity | now exists s].
  - destruct (starts_with_line_terminator (String c s)); [discriminate|].
    destruct (lazy_until_gt s) as [u|]; [|discriminate].
    intros H; inversion H; subst.
    destruct (IH u eq_refl) as (Hl & q & ->). split; [|now exists q].
    simpl. rewrite Hl. apply Ascii.eqb_neq in Hc. now rewrite Hc.
Qed.

Lemma match_angle_some (s url : string) :
  match_angle s = Some url ->
  lacks ">" url = true
  /\ exists p q, s = (p ++ String "<" (url ++ String ">" q))%string.
Proof.
  induction s as [|c s IH]; cbn [match_angle]; [discriminate|].
  assert (match_angle s = Some url ->
          lacks ">" url = true
          /\ exists p q, String c s = (p ++ String "<" (url ++ String ">" q))%string) as Hrec.
  { intros H. destruct (IH H) as (Hl & p & q & ->). split; [exact Hl|].
    now exists (String c p), q. }
  destruct (Ascii.eqb_spec c "<") as [-> | Hc]; [|exact Hrec].
  destruct (lazy_until_gt s) as [u|] eqn:Hu; [|exact Hrec].
  intros H; inversion H; subst.
  destruct (lazy_until_gt_some _ _ Hu) as (Hl & q & ->). split; [exact Hl|].
  now exists ""%string, q.
Qed.

(** X13. Whatever [getNextUrl] returns was found in the header.  For every
    header value, a string or a list of strings: when a URL is returned,
    the header (the values joined with [", "]) contains the text
    [rel="next"], the URL stands in the header between a [<] and a [>],
    and the URL holds neither a comma nor a [>].  So a header without the
    text [rel="next"] gives no URL, whatever else it holds. *)
Theorem getNextUrl_returns_a_bracketed_piece (linkHeader : LinkHeader.t) (url : string) :
  let headerStr :=
    match linkHeader with
    | Many values => JSString.join ", " values
    | One value => value
    end in
  getNextUrl linkHeader = Some url ->
  JSString.includes rel_next headerStr = true
  /\ (exists pre post, headerStr = (pre ++ "<" ++ url ++ ">" ++ post)%string)
  /\ lacks "," url = true
  /\ lacks ">" url = true.
Proof.
  cbv zeta. unfold getNextUrl.
  set (headerStr := match linkHeader with
                    | Many values => JSString.join ", " values
                    | One value => value
                    end).
  destruct (find search_rel_next (JSString.split "," headerStr)) as [l|] eqn:Hf;
    [|discriminate].
  apply find_some in Hf as [Hin Hends].
  destruct (split_segment _ _ Hin) as (Hl & p & q & Hs).
  apply endsWith_iff in Hends as [p' Hp'].
  intros Hm.
  assert (match_angle l = Some url) as Hm' by (destruct l; [discriminate | exact Hm]).
  destruct (match_angle_some _ _ Hm') as (Hgt & a & b & Hl').
  split; [|split; [|split]].
  - rewrite Hs, Hp', (append_assoc p' rel_next q), <- (append_assoc p p').
    apply includes_middle.
  - exists (p ++ a)%string, (b ++ q)%string. rewrite Hs, Hl'.
    rewrite !append_assoc. simpl. rewrite !append_assoc. reflexivity.
  - rewrite Hl' in Hl. rewrite lacks_append in Hl. simpl in Hl.
    rewrite lacks_append in Hl.
    apply andb_true_iff in Hl as [_ Hl]. apply andb_true_iff in Hl as [Hl _].
    exact Hl.
  - exact Hgt.
Qed.

Lemma getNextUrl_returns_a_bracketed_piece_witness :
  JSString.includes rel_next
    (JSString.join ", " [render_entry ("https://x/p2", "next");
                         render_entry ("https://x/p1", "prev")]) = true
  /\ (exists pre post,
         JSString.join ", " [render_entry ("https://x/p2", "next");
                             render_entry ("https://x/p1", "prev")]
         = (pre ++ "<" ++ "https://x/p2" ++ ">" ++ post)%string)
  /\ lacks "," "https://x/p2" = true
  /\ lacks ">" "https://x/p2" = true.
Proof.
  apply (getNextUrl_returns_a_bracketed_piece
           (Many [render_entry ("https://x/p2", "next");
                  render_entry ("https://x/p1", "prev")]) "https://x/p2").
  vm_compute. reflexivity.
Defined.
End LinkScanFacts.

Module ClientFacts.
Import Undici CanvasApiError ExtendedGenerator CanvasApi StringFacts.
Import CanvasApiResponse(Json, isArray).
Import GeneratorFacts PipelineFacts.

Section Client.
Variable URL : Type.
Variable new_URL : string -> option URL -> URL + JSError.
Variable URL_toString : URL -> string.
Variable JSON_parse : string -> Json + JSError.
Variable unknown : Type.
Variable is_string : unknown -> bool.
Variable JSON_stringify : unknown -> option string + JSError.
Variable AbortSignal_timeout_error : Z -> option JSError.
Variable FormData : Type.
Variable number : Type.
Variable String_number : number -> string.
Variable World : Type.
Variable send : RequestFunction -> World -> Request FormData
                -> (ResponseData + JSError) * World.
Variable File : Type.
Variable FormData_attachment : File -> FormData.

Local Abbreviation Log := (list (Exchange FormData)).
Local Abbreviation record := (recording FormData World send).
Local Abbreviation request_ :=
  (request URL new_URL URL_toString JSON_parse unknown is_string JSON_stringify AbortSignal_timeout_error
     FormData number String_number (Log * World) record).
Local Abbreviation sisImport_ :=
  (sisImport URL new_URL URL_toString JSON_parse unknown is_string JSON_stringify AbortSignal_timeout_error
     FormData number String_number (Log * World) record File FormData_attachment).
Local Abbreviation get__ :=
  (get_ URL new_URL URL_toString JSON_parse unknown is_string JSON_stringify AbortSignal_timeout_error
     FormData number String_number (Log * World) record).
Local Abbreviation listPages_ :=
  (listPages URL new_URL URL_toString JSON_parse unknown is_string JSON_stringify AbortSignal_timeout_error
     FormData number String_number (Log * World) record).
Local Abbreviation body_ :=
  (listPages_body URL new_URL URL_toString JSON_parse unknown is_string JSON_stringify AbortSignal_timeout_error
     FormData number String_number (Log * World) record).
Local Abbreviation normalize := (normalizeBody unknown JSON_stringify FormData).

(** The delay of the [signal] of a request: the [timeout] of the call
    when the call has that property, that of the client otherwise;
    [undefined] and [0] make no signal. *)
Local Abbreviation signal_of this options :=
  (match mergedOptions_timeout URL this options with
   | Some ms => if (ms =? 0)%Z then None else Some ms
   | None => None
   end).

(** What [AbortSignal.timeout] throws for the delay of the request, if
    the request has one and it is refused. *)
Local Abbreviation refusal this options :=
  (match signal_of this options with
   | Some ms => AbortSignal_timeout_error ms
   | None => None
   end).

(** X14. A response that arrives is judged by its status alone.  Whatever
    the transport hands over, the parsed response keeps the status, the
    headers and the text as they came; [json] and [body] hold the parsed
    text, or nothing together with the [parseError] when the text is not
    JSON (which does not fail the call); and [_request] returns that
    response when the status is below 400 and throws it inside a
    [CanvasApiResponseError] otherwise. *)
Theorem arrived_response_is_judged_by_status
    (status : Z) (hs : Headers) (content : string) :
  exists response,
    CanvasApiResponse.statusCode response = status
    /\ CanvasApiResponse.headers response = hs
    /\ CanvasApiResponse.text response = content
    /\ CanvasApiResponse.body response = CanvasApiResponse.json response
    /\ match JSON_parse content with
       | inl v =>
           CanvasApiResponse.json response = Some v
           /\ CanvasApiResponse.parseError response = None
       | inr err =>
           CanvasApiResponse.json response = None
           /\ CanvasApiResponse.parseError response = Some err
       end
    /\ receive JSON_parse (inl (arrived status hs content))
       = if (status >=? 400)%Z then inr (CanvasApiResponseError response)
         else inl response.
Proof.
  unfold receive, CanvasApiResponse.parseBody, arrived, Undici.text. cbn.
  destruct (JSON_parse content) as [v | err]; eexists;
    (repeat split; [..| cbn; reflexivity]); reflexivity.
Qed.


(** *** One call of [get] *)

(** The request [get] makes for [target], resolved to [resolved]. *)
Local Abbreviation get_request this options resolved params :=
  (mkRequest FormData
     (URL_toString resolved
      ++ QueryString.stringifyQueryParameters number String_number params)
     "GET" ("Bearer " ++ token URL this) "@kth/canvas-api"
     (Some "application/json") None (signal_of this options)).

(** [get] fails before anything is sent, on the URL or on the timeout,
    or it sends one request. *)
Lemma get_cases this (target : string) (params : QueryString.QueryParams number)
    options (log : Log) (w : World) :
  (exists err,
      (new_URL target (Some (apiUrl URL this)) = inr err
       \/ ((exists resolved, new_URL target (Some (apiUrl URL this)) = inl resolved)
           /\ refusal this options = Some err))
      /\ get__ this target params options (log, w) = (inr (Thrown err), (log, w)))
  \/ (exists resolved outcome w',
        (new_URL target (Some (apiUrl URL this)) = inl resolved
         /\ refusal this options = None)
        /\ get__ this target params options (log, w)
           = (receive JSON_parse outcome,
              (log ++ [(get_request this options resolved params, outcome)], w'))).
Proof.
  unfold get_, _request.
  destruct (new_URL target (Some (apiUrl URL this))) as [resolved|err] eqn:Hu.
  - simpl normalizeBody. cbv iota zeta.
    destruct (refusal this options) as [err|] eqn:Ha.
    + left. exists err. split; [right; split; [now exists resolved | reflexivity]|].
      reflexivity.
    + right. unfold recording. simpl snd. simpl fst.
      match goal with |- context [send ?f w ?r] =>
        destruct (send f w r) as [outcome w'] eqn:Hs; exists resolved, outcome, w' end.
      split; [split|]; reflexivity.
  - left. exists err. split; [now left | reflexivity].
Qed.

(** One turn of the loop of [listPages] is one call of [get]. *)
Lemma listPages_turn this options (st : PagesLocals number (Log * World)) :
  body_ this options st
  = match pages_url _ _ st with
    | None | Some EmptyString => BReturn st
    | Some target =>
        match get__ this target (pages_queryParams _ _ st) options (pages_world _ _ st) with
        | (inl response, lw) =>
            BYield response (mkPagesLocals _ _ (next_link response) [] lw)
        | (inr err, lw) =>
            BThrow err
              (mkPagesLocals _ _ (pages_url _ _ st) (pages_queryParams _ _ st) lw)
        end
    end.
Proof.
  unfold listPages_body, get_.
  destruct (pages_url _ _ st) as [[|c target]|]; reflexivity.
Qed.


(** *** Runs of the generator of [listPages] *)

(** What every request of a traversal has in common. *)
Local Abbreviation uniform this options req :=
  (method FormData req = "GET"
   /\ authorization FormData req = String.append "Bearer " (token URL this)
   /\ user_agent FormData req = "@kth/canvas-api"
   /\ content_type FormData req = Some "application/json"
   /\ request_body FormData req = None
   /\ signal FormData req = signal_of this options).

Local Abbreviation received :=
  (List.map (fun ex : Exchange FormData => receive JSON_parse (snd ex))).

Local Abbreviation log_of g := (fst (pages_world number (Log * World) (frame g))).

Lemma listPages_run this options
    (g : Generator CanvasApiError.t CanvasApiResponse.t (PagesLocals number (Log * World)))
    pages ending g' :
  Yields g pages ending g' ->
  body g = body_ this options ->
  body g' = body_ this options
  /\ exists new,
       log_of g' = log_of g ++ new
       /\ Forall (fun ex => uniform this options (fst ex)) new
       /\ match ending with
          | Fails e =>
              received new = List.map inl pages ++ [inr e]
              \/ (received new = List.map inl pages /\ exists err, e = Thrown err)
          | _ => received new = List.map inl pages
          end.
Proof.
  induction 1 as [g | g g' Hp | g e g' Hp | g g1 xs ending g' Hp _ IH
                 | g v g1 xs ending g' Hp _ IH]; intros Hbody.
  - split; [exact Hbody|]. exists []. rewrite app_nil_r. repeat split. constructor.
  - unfold pull in Hp. destruct (status g).
    + rewrite Hbody, listPages_turn in Hp.
      destruct (pages_url _ _ (frame g)) as [[|c target]|];
        try (inversion Hp; subst; cbn; split; [reflexivity|]; exists [];
             rewrite app_nil_r; repeat split; constructor).
      destruct (get__ _ _ _ _ _) as [[response | err] lw]; discriminate.
    + inversion Hp; subst. split; [exact Hbody|]. exists [].
      rewrite app_nil_r. repeat split. constructor.
  - unfold pull in Hp. destruct (status g); [|discriminate].
    rewrite Hbody, listPages_turn in Hp.
    destruct (pages_url _ _ (frame g)) as [[|c target]|]; try discriminate.
    destruct (frame g) as [u qp [log w]] eqn:Hf. cbn [pages_queryParams pages_world] in Hp.
    destruct (get_cases this (String c target) qp options log w)
      as [(err & _ & Hg) | (resolved & outcome & w' & _ & Hg)]; rewrite Hg in Hp.
    + inversion Hp; subst. cbn. split; [reflexivity|]. exists [].
      rewrite app_nil_r. repeat split; [constructor|]. right. split; [reflexivity|].
      now exists err.
    + destruct (receive JSON_parse outcome) as [response | err] eqn:Hr; [discriminate|].
      inversion Hp; subst. cbn. split; [reflexivity|].
      eexists. split; [reflexivity|]. split; [repeat constructor|].
      left. cbn. now rewrite Hr.
  - exfalso. unfold pull in Hp. destruct (status g); [|discriminate].
    rewrite Hbody, listPages_turn in Hp.
    destruct (pages_url _ _ (frame g)) as [[|c target]|]; try discriminate.
    destruct (get__ _ _ _ _ _) as [[response | err] lw]; discriminate.
  - unfold pull in Hp. destruct (status g); [|discriminate].
    rewrite Hbody, listPages_turn in Hp.
    destruct (pages_url _ _ (frame g)) as [[|c target]|]; try discriminate.
    destruct (frame g) as [u qp [log w]] eqn:Hf. cbn [pages_queryParams pages_world] in Hp.
    destruct (get_cases this (String c target) qp options log w)
      as [(err & _ & Hg) | (resolved & outcome & w' & _ & Hg)]; rewrite Hg in Hp;
      [discriminate|].
    destruct (receive JSON_parse outcome) as [response | err] eqn:Hr; [|discriminate].
    inversion Hp; subst. destruct (IH eq_refl) as (Hb & new & Hlog & Hall & Hrcv).
    split; [exact Hb|]. cbn in Hlog.
    exists ((get_request this options resolved qp, outcome) :: new).
    split; [cbn; rewrite Hlog, <- app_assoc; reflexivity|].
    split; [constructor; [repeat split | exact Hall]|].
    cbn [List.map snd]. rewrite Hr.
    destruct ending; cbn [List.map]; try (now rewrite Hrcv).
    destruct Hrcv as [Hrcv | [Hrcv Herr]]; [left | right; split; [|exact Herr]];
      now rewrite Hrcv.
Qed.

(** X15. One request per page.  However far a traversal by [listPages]
    has been driven, the responses received so far are, parsed, exactly
    the pages yielded so far, in order; nothing is requested when the
    sequence is created, and no page is requested ahead of its turn.  When
    the traversal fails, it fails on the response of one more request, or
    on a URL that could not be resolved or a timeout that
    [AbortSignal.timeout] refused, for which nothing is sent. *)
Theorem listPages_one_request_per_page this endpoint
    (queryParams : QueryString.QueryParams number) options (w : World)
    pages ending g' :
  Yields (generator (listPages_ this endpoint queryParams options ([], w)))
         pages ending g' ->
  match ending with
  | Fails e =>
      received (log_of g') = List.map inl pages ++ [inr e]
      \/ (received (log_of g') = List.map inl pages /\ exists err, e = Thrown err)
  | _ => received (log_of g') = List.map inl pages
  end.
Proof.
  intros Hy.
  destruct (listPages_run this options _ _ _ _ Hy eq_refl) as (_ & new & Hlog & _ & Hr).
  cbn in Hlog. rewrite Hlog. exact Hr.
Qed.

(** X16. Every request of a traversal is made alike.  However far a
    traversal by [listPages] has been driven, every request made so far,
    to the endpoint or to a linked URL on whatever host, is a [GET]
    without a body that carries the bearer token of the client, the
    user agent and the content type [application/json], under a signal
    of the same delay: the [timeout] of the options of the call when they
    have that property, whatever its value, and that of the client
    otherwise; [undefined] and [0] make no signal, so a call that passes
    [timeout: undefined] goes without the timeout of the client. *)
Theorem listPages_requests_are_uniform this endpoint
    (queryParams : QueryString.QueryParams number) options (w : World)
    pages ending g' :
  Yields (generator (listPages_ this endpoint queryParams options ([], w)))
         pages ending g' ->
  Forall (fun ex : Exchange FormData => uniform this options (fst ex)) (log_of g').
Proof.
  intros Hy.
  destruct (listPages_run this options _ _ _ _ Hy eq_refl) as (_ & new & Hlog & Hall & _).
  cbn in Hlog. rewrite Hlog. exact Hall.
Qed.

(** X17. The first page of [listPages] is what [get] returns.  The first
    [next()] on the sequence that [listPages(endpoint, queryParams,
    options)] creates makes the request [get(endpoint, queryParams,
    options)] makes, and gives the response [get] returns, or throws the
    error [get] throws; except that for the empty endpoint it makes no
    request and the sequence is empty. *)
Theorem listPages_first_page_is_get this endpoint
    (queryParams : QueryString.QueryParams number) options (lw : Log * World)
    (fuel : nat) :
  let pages := listPages_ this endpoint queryParams options lw in
  match endpoint with
  | EmptyString =>
      fst (next (S fuel) pages) = Fulfilled IDone
      /\ pages_world _ _ (frame (generator (snd (next (S fuel) pages)))) = lw
  | _ =>
      match get__ this endpoint queryParams options lw with
      | (inl response, lw') =>
          fst (next (S fuel) pages) = Fulfilled (IValue response)
          /\ pages_world _ _ (frame (generator (snd (next (S fuel) pages)))) = lw'
      | (inr err, lw') =>
          fst (next (S fuel) pages) = Rejected err
          /\ pages_world _ _ (frame (generator (snd (next (S fuel) pages)))) = lw'
      end
  end.
Proof.
  cbv zeta. unfold next, listPages, spawn. cbn [generator gen_next].
  unfold pull. cbn [status body frame resumptions]. rewrite listPages_turn.
  cbn [pages_url pages_queryParams pages_world].
  destruct endpoint as [|c endpoint]; [split; reflexivity|].
  destruct (get__ _ _ _ _ _) as [[response | err] lw']; split; reflexivity.
Qed.

(** X18. [request] never sends a [GET] and never adds a query string.  A
    call with the method [GET] throws a [TypeError] and nothing is sent.
    Any other call sends at most one request.  It sends none when the
    endpoint cannot be resolved, or the body cannot be serialized (which
    throws a [CanvasApiRequestError] when [JSON.stringify] threw an
    [Error]), or [AbortSignal.timeout] refuses the timeout, whose error is
    thrown as it is; they are tried in this order.  Otherwise it sends
    one, with the given method, to the resolved endpoint with nothing
    appended, carrying the bearer token, under the signal of the timeout
    of the call or else of the client.  A [FormData] body is sent as it
    is and without a content type; any other body is sent as
    [JSON.stringify] gives it, which is no body when it gives
    [undefined], as [text/plain] when the value was a string and as
    [application/json] otherwise; without a body the content type is
    [application/json] too. *)
Theorem request_sends_at_most_one_non_GET this (endpoint method : string)
    (body : BodyArgument unknown FormData) options (log : Log) (w : World) :
  let result := request_ this endpoint method body options (log, w) in
  (method = "GET" ->
   snd result = (log, w)
   /\ exists message, fst result = inr (Thrown (TypeError message)))
  /\ (method <> "GET" ->
      (snd result = (log, w)
       /\ ((exists err,
              new_URL endpoint (Some (apiUrl URL this)) = inr err
              /\ fst result = inr (Thrown err))
           \/ (exists resolved err,
                 new_URL endpoint (Some (apiUrl URL this)) = inl resolved
                 /\ normalize body = inr err /\ fst result = inr err)
           \/ (exists resolved normalized ms err,
                 new_URL endpoint (Some (apiUrl URL this)) = inl resolved
                 /\ normalize body = inl normalized
                 /\ signal_of this options = Some ms
                 /\ AbortSignal_timeout_error ms = Some err
                 /\ fst result = inr (Thrown err))))
      \/ (exists resolved normalized outcome w',
            new_URL endpoint (Some (apiUrl URL this)) = inl resolved
            /\ normalize body = inl normalized
            /\ refusal this options = None
            /\ result
               = (receive JSON_parse outcome,
                  (log ++ [(mkRequest FormData (URL_toString resolved) method
                              (String.append "Bearer " (token URL this))
                              "@kth/canvas-api"
                              match body with
                              | Form _ _ _ => None
                              | Value _ _ v =>
                                  if is_string v then Some "text/plain; charset=utf-8"
                                  else Some "application/json"
                              | NoBody _ _ => Some "application/json"
                              end
                              normalized (signal_of this options),
                            outcome)], w'))
            /\ match body with
               | Form _ _ form => normalized = Some (inl form)
               | Value _ _ v =>
                   (exists s, JSON_stringify v = inl (Some s) /\ normalized = Some (inr s))
                   \/ (JSON_stringify v = inl None /\ normalized = None)
               | NoBody _ _ => normalized = None
               end)).
Proof.
  cbv zeta. unfold request. split.
  - intros ->. cbn. split; [reflexivity | eexists; reflexivity].
  - intros Hm. apply String.eqb_neq in Hm. rewrite Hm. unfold _request.
    destruct (new_URL endpoint (Some (apiUrl URL this))) as [resolved|err] eqn:Hu.
    + destruct (normalize body) as [normalized | err] eqn:Hn.
      * cbv zeta.
        destruct (signal_of this options) as [ms|] eqn:Hsig;
          [destruct (AbortSignal_timeout_error ms) as [err|] eqn:Ha|].
        -- left. split; [reflexivity|]. right. right.
           exists resolved, normalized, ms, err. repeat split; assumption.
        -- right. unfold recording. cbn [fst snd].
           match goal with |- context [send ?f w ?r] =>
             destruct (send f w r) as [outcome w'] eqn:Hs end.
           exists resolved, normalized, outcome, w'.
           split; [reflexivity|]. split; [reflexivity|]. split; [reflexivity|].
           split; [reflexivity|].
           destruct body as [|form|v]; cbn in Hn.
           ++ now inversion Hn.
           ++ now inversion Hn.
           ++ destruct (JSON_stringify v) as [[s|] | err];
                [inversion Hn; left; now exists s | inversion Hn; now right |].
              destruct (isError err); discriminate.
        -- right. unfold recording. cbn [fst snd].
           match goal with |- context [send ?f w ?r] =>
             destruct (send f w r) as [outcome w'] eqn:Hs end.
           exists resolved, normalized, outcome, w'.
           split; [reflexivity|]. split; [reflexivity|]. split; [reflexivity|].
           split; [reflexivity|].
           destruct body as [|form|v]; cbn in Hn.
           ++ now inversion Hn.
           ++ now inversion Hn.
           ++ destruct (JSON_stringify v) as [[s|] | err];
                [inversion Hn; left; now exists s | inversion Hn; now right |].
              destruct (isError err); discriminate.
      * left. split; [reflexivity|]. right. left. now exists resolved, err.
    + left. split; [reflexivity|]. left. now exists err.
Qed.

(** X19. [sisImport(attachment)] is [request("accounts/1/sis_imports",
    "POST", formData)] for the form that holds the attachment under the
    name [attachment].  It sends nothing when the endpoint cannot be
    resolved, or when the client has a timeout that [AbortSignal.timeout]
    refuses, and throws that error as it is; otherwise it sends one
    [POST] to the resolved endpoint, with the form as its body, no
    content type of its own, and the signal of the timeout of the
    client. *)
Theorem sisImport_is_a_form_request this (attachment : File) (log : Log) (w : World) :
  sisImport_ this attachment (log, w)
  = request_ this "accounts/1/sis_imports" "POST"
      (Form _ _ (FormData_attachment attachment)) (mkRequestOptions None) (log, w)
  /\ ((exists err,
         (new_URL "accounts/1/sis_imports" (Some (apiUrl URL this)) = inr err
          \/ (exists resolved ms,
                new_URL "accounts/1/sis_imports" (Some (apiUrl URL this)) = inl resolved
                /\ signal_of this (mkRequestOptions None) = Some ms
                /\ AbortSignal_timeout_error ms = Some err))
         /\ sisImport_ this attachment (log, w) = (inr (Thrown err), (log, w)))
      \/ (exists resolved outcome w',
            new_URL "accounts/1/sis_imports" (Some (apiUrl URL this)) = inl resolved
            /\ refusal this (mkRequestOptions None) = None
            /\ sisImport_ this attachment (log, w)
               = (receive JSON_parse outcome,
                  (log ++ [(mkRequest FormData (URL_toString resolved) "POST"
                              (String.append "Bearer " (token URL this))
                              "@kth/canvas-api" None
                              (Some (inl (FormData_attachment attachment)))
                              (signal_of this (mkRequestOptions None)),
                            outcome)], w')))).
Proof.
  split; [reflexivity|]. unfold sisImport, _request.
  destruct (new_URL "accounts/1/sis_imports" (Some (apiUrl URL this)))
    as [resolved|err] eqn:Hu.
  - cbn [normalizeBody]. cbv zeta.
    destruct (signal_of this (mkRequestOptions None)) as [ms|] eqn:Hsig;
      [destruct (AbortSignal_timeout_error ms) as [err|] eqn:Ha|].
    + left. exists err. split; [|reflexivity]. right. now exists resolved, ms.
    + right. unfold recording. cbn [fst snd].
      match goal with |- context [send ?f w ?r] =>
        destruct (send f w r) as [outcome w'] eqn:Hs end.
      exists resolved, outcome, w'. split; [reflexivity|]. split; reflexivity.
    + right. unfold recording. cbn [fst snd].
      match goal with |- context [send ?f w ?r] =>
        destruct (send f w r) as [outcome w'] eqn:Hs end.
      exists resolved, outcome, w'. split; [reflexivity|]. split; reflexivity.
  - left. exists err. split; [now left | reflexivity].
Qed.

(** *** [listItems] under [take] *)

Local Abbreviation listItems_ :=
  (listItems URL new_URL URL_toString JSON_parse unknown is_string JSON_stringify AbortSignal_timeout_error
     FormData number String_number (Log * World) record).

(** The inner [for] of [listItems], stopped after [k] elements. *)
Lemma inner_for_takes {L} (pages : Generator CanvasApiError.t CanvasApiResponse.t L)
    (k : nat) : forall (elements : list Json) (m : nat),
  k <= List.length elements ->
  Takes (items_at elements pages m) (firstn k elements)
        (items_at (skipn k elements) pages (m + k)).
Proof.
  induction k as [|k IH]; intros elements m Hk.
  - simpl. rewrite Nat.add_0_r. apply Takes_nil.
  - destruct elements as [|x elements]; [simpl in Hk; lia|].
    simpl firstn. simpl skipn.
    eapply Takes_value; [reflexivity|].
    replace (m + S k) with (S m + k) by lia.
    apply IH. simpl in Hk. lia.
Qed.

(** X20. [take] keeps [listItems] from fetching pages it does not need.
    When the first page holds a list of at least [n] elements ([n >= 1]),
    collecting [listItems(...).take(n)] gives the first [n] elements of
    that page and makes exactly the one request [get] makes for the
    endpoint: the page behind the [next] link is not requested. *)
Theorem listItems_take_fetches_one_page this endpoint
    (queryParams : QueryString.QueryParams number) options (w : World)
    page lw1 elements (n : Z) :
  endpoint <> ""%string ->
  get__ this endpoint queryParams options ([], w) = (inl page, lw1) ->
  isArray (CanvasApiResponse.json page) = Some elements ->
  (1 <= n <= Z.of_nat (List.length elements))%Z ->
  List.length (fst lw1) = 1
  /\ exists k, forall fuel, k <= fuel ->
       let result := toArray fuel (take n (listItems_ this endpoint queryParams options ([], w))) in
       fst result = Fulfilled (firstn (Z.to_nat n) elements)
       /\ pages_world _ _
            (frame (snd (frame (snd (frame (generator (snd result))))))) = lw1.
Proof.
  intros Hne Hget Harr Hn. split.
  { destruct (get_cases this endpoint queryParams options [] w)
      as [(err & _ & Hg) | (resolved & outcome & w' & _ & Hg)];
      rewrite Hg in Hget; inversion Hget; reflexivity. }
  set (pages1 := mkGenerator (body_ this options) Suspended
                   (mkPagesLocals number (Log * World) (next_link page) [] lw1) 1).
  assert (pull (generator (listPages_ this endpoint queryParams options ([], w)))
          = PValue page pages1) as Hpull.
  { unfold listPages, spawn, pull. cbn [generator status body frame resumptions].
    rewrite listPages_turn. cbn [pages_url pages_queryParams pages_world].
    destruct endpoint as [|c endpoint]; [congruence|]. now rewrite Hget. }
  assert (Takes (generator (listItems_ this endpoint queryParams options ([], w)))
            (firstn (Z.to_nat n) elements)
            (items_at (skipn (Z.to_nat n) elements) pages1 (1 + Z.to_nat n))) as Ht.
  { pose proof (inner_for_takes pages1 (Z.to_nat n) elements 1 ltac:(lia)) as Hin.
    destruct (firstn (Z.to_nat n) elements) as [|x xs] eqn:Hfirst.
    - exfalso. apply (f_equal (@List.length _)) in Hfirst.
      rewrite length_firstn in Hfirst. simpl in Hfirst. lia.
    - eapply Takes_tau; [|exact Hin].
      unfold listItems, items_of, spawn, pull.
      cbn [generator status body frame resumptions]. unfold listItems_body at 1.
      rewrite Hpull, Harr. reflexivity. }
  destruct (take_stops _ _ _ n 0 Ht) as [m' Hrun].
  { rewrite length_firstn. lia. }
  destruct (run_toArray (take n (listItems_ this endpoint queryParams options ([], w)))
              _ Ends _ Hrun) as [k Hk].
  exists k. intros fuel Hf. cbv zeta. rewrite (Hk fuel Hf). split; reflexivity.
Qed.
End Client.

(** *** The traversals of the test-suite, with a record of the exchanges *)

Lemma listPages_one_request_per_page_witness :
  exists g' : Generator CanvasApiError.t CanvasApiResponse.t
                (PagesLocals Z (list (Exchange unit) * list TestServer.Request)),
    List.map (fun ex : Exchange unit => receive TestServer.JSON_parse (snd ex))
      (fst (pages_world Z (list (Exchange unit) * list TestServer.Request) (frame g')))
    = [inl TestServer.page1; inl TestServer.page2].
Proof.
  eexists.
  refine (listPages_one_request_per_page string TestServer.new_URL (fun u => u)
            TestServer.JSON_parse unit (fun _ => false) (fun _ => inl (Some "null")) (fun _ => None) unit Z
            QueryString.String_Z (list TestServer.Request) TestServer.send
            TestServer.canvas "courses/page1" [] (mkRequestOptions None) []
            [TestServer.page1; TestServer.page2] Ends _ _).
  eapply Yields_value; [reflexivity|].
  eapply Yields_value; [reflexivity|].
  apply Yields_done. reflexivity.
Defined.

Lemma listPages_requests_are_uniform_witness :
  exists g' : Generator CanvasApiError.t CanvasApiResponse.t
                (PagesLocals Z (list (Exchange unit) * list TestServer.Request)),
    Forall
      (fun ex : Exchange unit =>
         method unit (fst ex) = "GET"
         /\ authorization unit (fst ex) = "Bearer "
         /\ user_agent unit (fst ex) = "@kth/canvas-api"
         /\ content_type unit (fst ex) = Some "application/json"
         /\ request_body unit (fst ex) = None
         /\ signal unit (fst ex) = None)
      (fst (pages_world Z (list (Exchange unit) * list TestServer.Request) (frame g'))).
Proof.
  eexists.
  refine (listPages_requests_are_uniform string TestServer.new_URL (fun u => u)
            TestServer.JSON_parse unit (fun _ => false) (fun _ => inl (Some "null")) (fun _ => None) unit Z
            QueryString.String_Z (list TestServer.Request) TestServer.send
            TestServer.canvas "courses/page1" [] (mkRequestOptions None) []
            [TestServer.page1; TestServer.page2] Ends _ _).
  eapply Yields_value; [reflexivity|].
  eapply Yields_value; [reflexivity|].
  apply Yields_done. reflexivity.
Defined.

Lemma listItems_take_fetches_one_page_witness :
  exists lw1,
    List.length (fst lw1) = 1
    /\ exists k, forall fuel, k <= fuel ->
         let result :=
           toArray fuel
             (take 2
                (listItems string TestServer.new_URL (fun u => u) TestServer.JSON_parse
                   unit (fun _ => false) (fun _ => inl (Some "null")) (fun _ => None) unit Z QueryString.String_Z
                   (list (Exchange unit) * list TestServer.Request)
                   (recording unit (list TestServer.Request) TestServer.send)
                   TestServer.canvas "courses/page1" [] (mkRequestOptions None) ([], []))) in
         fst result
         = Fulfilled (firstn (Z.to_nat 2)
                        [CanvasApiResponse.JNumber 1; CanvasApiResponse.JNumber 2;
                         CanvasApiResponse.JNumber 3])
         /\ pages_world Z (list (Exchange unit) * list TestServer.Request)
              (frame (snd (frame (snd (frame (generator (snd result))))))) = lw1.
Proof.
  eexists.
  refine (listItems_take_fetches_one_page string TestServer.new_URL (fun u => u)
            TestServer.JSON_parse unit (fun _ => false) (fun _ => inl (Some "null")) (fun _ => None) unit Z
            QueryString.String_Z (list TestServer.Request) TestServer.send
            TestServer.canvas "courses/page1" [] (mkRequestOptions None) []
            TestServer.page1 _
            [CanvasApiResponse.JNumber 1; CanvasApiResponse.JNumber 2;
             CanvasApiResponse.JNumber 3] 2 _ _ _ _).
  - discriminate.
  - reflexivity.
  - reflexivity.
  - simpl. lia.
Defined.

(** The timeout of the client and that of the call.  Over a client with
    a timeout of 5000 ms, a call without options goes under a signal of
    5000 ms; a call that passes [timeout: undefined] or [timeout: 0] goes
    without a signal, and one that passes 200 under a signal of 200 ms. *)
Example timeout_of_the_call_hides_that_of_the_client :
  let signals options :=
    List.map (fun ex : Exchange unit => signal unit (fst ex))
      (fst (snd (get_ string TestServer.new_URL (fun u => u) TestServer.JSON_parse unit
                   (fun _ => false) (fun _ => inl (Some "null"))
                   TestServer.AbortSignal_timeout_error unit Z QueryString.String_Z
                   (list (Exchange unit) * list TestServer.Request)
                   (recording unit (list TestServer.Request) TestServer.send)
                   TestServer.patient "accounts/1" [] options ([], [])))) in
  signals (mkRequestOptions None) = [Some 5000%Z]
  /\ signals (mkRequestOptions (Some None)) = [None]
  /\ signals (mkRequestOptions (Some (Some 0%Z))) = [None]
  /\ signals (mkRequestOptions (Some (Some 200%Z))) = [Some 200%Z].
Proof. repeat split; reflexivity. Qed.

(** A timeout that [AbortSignal.timeout] refuses: the call throws what
    [AbortSignal.timeout] throws and no request is made, for [get], for
    [request] and, when the timeout is that of the client, for
    [sisImport]. *)
Example refused_timeout_sends_nothing :
  let refused :=
    inr (Thrown (mkError true false "RangeError"
                   (Some "The value of delay is out of range"))) in
  let hasty :=
    mkClient string undiciRequest "https://canvas.local/" ""
      (mkRequestOptions (Some (Some (-5)%Z))) in
  get_ string TestServer.new_URL (fun u => u) TestServer.JSON_parse unit
    (fun _ => false) (fun _ => inl (Some "null"))
    TestServer.AbortSignal_timeout_error unit Z QueryString.String_Z
    (list (Exchange unit) * list TestServer.Request)
    (recording unit (list TestServer.Request) TestServer.send)
    TestServer.canvas "accounts/1" [] (mkRequestOptions (Some (Some (-5)%Z))) ([], [])
  = (refused, ([], []))
  /\ request string TestServer.new_URL (fun u => u) TestServer.JSON_parse unit
       (fun _ => false) (fun _ => inl (Some "null"))
       TestServer.AbortSignal_timeout_error unit Z QueryString.String_Z
       (list (Exchange unit) * list TestServer.Request)
       (recording unit (list TestServer.Request) TestServer.send)
       TestServer.canvas "accounts/1" "PUT" (Value unit unit tt)
       (mkRequestOptions (Some (Some (-5)%Z))) ([], [])
     = (refused, ([], []))
  /\ sisImport string TestServer.new_URL (fun u => u) TestServer.JSON_parse unit
       (fun _ => false) (fun _ => inl (Some "null"))
       TestServer.AbortSignal_timeout_error unit Z QueryString.String_Z
       (list (Exchange unit) * list TestServer.Request)
       (recording unit (list TestServer.Request) TestServer.send)
       unit (fun _ => tt) hasty tt ([], [])
     = (refused, ([], [])).
Proof. repeat split; reflexivity. Qed.

(** X21. The trailing slash of the base URL is optional.  Constructing a
    client from a base URL that does not end with [/] is constructing it
    from that URL with a [/] appended: the same instance, or the same
    error of [new URL], and the same module state.  The instance keeps the
    token, and of the options only the timeout. *)
Theorem constructor_adds_trailing_slash
    (URL : Type) (new_URL : string -> option URL -> URL + JSError) (FormData : Type)
    (apiUrl token : string) (options : ConstructorOptions) (m : Module FormData) :
  constructor URL new_URL FormData apiUrl token options m
  = constructor URL new_URL FormData
      (if JSString.endsWith "/" apiUrl then apiUrl else (apiUrl ++ "/")%string)
      token options m
  /\ forall this m',
       constructor URL new_URL FormData apiUrl token options m = (inl this, m') ->
       CanvasApi.token URL this = token
       /\ CanvasApi.options URL this = mkRequestOptions (instance_timeout options)
       /\ new_URL (if JSString.endsWith "/" apiUrl then apiUrl
                   else (apiUrl ++ "/")%string) None
          = inl (CanvasApi.apiUrl URL this).
Proof.
  split.
  - destruct (JSString.endsWith "/" apiUrl) eqn:He; [reflexivity|].
    unfold constructor. rewrite He.
    assert (JSString.endsWith "/" (apiUrl ++ "/") = true) as ->; [|reflexivity].
    apply LinkHeaderFacts.endsWith_iff. now exists apiUrl.
  - intros this m'. unfold constructor.
    destruct (JSString.endsWith "/" apiUrl);
      (destruct (new_URL _ None) as [api | err]; [|discriminate]);
      (destruct (disableThrottling options) as [[|]|]);
      try (intros H; inversion H; subst; repeat split; fail);
      (destruct (requestWithRateLimitThrottling FormData m) as [d|];
       intros H; inversion H; subst; repeat split).
Qed.
End ClientFacts.

Module ErrorFacts.
Import CanvasApiError StringFacts.
Import JSString(lacks).

Lemma expand_plain (matched before after replacement : string) :
  lacks "$" replacement = true ->
  JSString.expand matched before after replacement = replacement.
Proof.
  induction replacement as [|c rest IH]; [reflexivity|].
  intros H. cbn [lacks] in H. apply andb_true_iff in H as [Hc Hrest].
  apply negb_true_iff in Hc. cbn [JSString.expand]. rewrite Hc, (IH Hrest).
  now destruct rest.
Qed.

Lemma find_first_none (pattern s : string) :
  JSString.includes pattern s = false -> JSString.find_first pattern s = None.
Proof.
  induction s as [|c s IH]; cbn [JSString.includes JSString.find_first];
    intros H; apply orb_false_iff in H as [Hp Hs]; rewrite Hp; [reflexivity|].
  now rewrite (IH Hs).
Qed.

Lemma skip_append (p rest : string) : JSString.skip (String.length p) (p ++ rest) = rest.
Proof. induction p as [|c p IH]; simpl; [now destruct rest | exact IH]. Qed.

Lemma find_first_prefix (pattern rest : string) :
  JSString.find_first pattern (pattern ++ rest) = Some (""%string, rest).
Proof.
  pose proof (LinkScanFacts.prefix_append pattern rest) as Hp.
  pose proof (skip_append pattern rest) as Hs.
  destruct (pattern ++ rest)%string; cbn [JSString.find_first]; now rewrite Hp, Hs.
Qed.

(** X22. [canvasApiErrorDecorator] puts the name and the message of the
    error where the captured stack says [Error].  For an error of one of
    the four classes whose message holds no dollar sign (which the
    messages the library sets itself never do): a stack that starts with
    [Error] becomes the name, a colon and the message, followed by the
    rest of the stack; a stack in which [Error] does not occur is taken
    as it is; and without a stack the error keeps the one it had. *)
Theorem decorator_puts_name_and_message_first
    (error : CanvasApiError.t) (name message : string) (old : option string)
    (rest : string) :
  class_name error = Some name ->
  class_message error = Some message ->
  match error with
  | CanvasApiRequestError _ => lacks "$" message = true
  | _ => True
  end ->
  canvasApiErrorDecorator name message old (Some ("Error" ++ rest)%string)
  = Some (name ++ ": " ++ message ++ rest)%string
  /\ (forall stack,
        JSString.includes "Error" stack = false ->
        canvasApiErrorDecorator name message old (Some stack) = Some stack)
  /\ canvasApiErrorDecorator name message old None = old.
Proof.
  intros Hn Hm Hd.
  assert (lacks "$" (name ++ ": " ++ message) = true) as Hplain.
  { rewrite LinkHeaderFacts.lacks_append.
    change (": " ++ message)%string with (String ":" (String " " message)).
    cbn [lacks].
    destruct error; inversion Hn; inversion Hm; subst; try reflexivity.
    cbn. exact Hd. }
  split; [|split; [|reflexivity]].
  - unfold canvasApiErrorDecorator, JSString.replace.
    rewrite find_first_prefix.
    rewrite (expand_plain _ _ _ _ Hplain). cbn [String.append].
    now rewrite !append_assoc.
  - intros stack Hs. unfold canvasApiErrorDecorator, JSString.replace.
    now rewrite (find_first_none _ _ Hs).
Qed.

Lemma decorator_puts_name_and_message_first_witness :
  canvasApiErrorDecorator "CanvasApiTimeoutError" "Canvas API timeout error" None
    (Some "Error
    at customLocation (file.ts:10:5)")
  = Some "CanvasApiTimeoutError: Canvas API timeout error
    at customLocation (file.ts:10:5)".
Proof.
  exact (proj1 (decorator_puts_name_and_message_first CanvasApiTimeoutError
                  "CanvasApiTimeoutError" "Canvas API timeout error" None
                  "
    at customLocation (file.ts:10:5)" eq_refl eq_refl I)).
Defined.

(** A message with a replacement pattern in it: [$&] brings the matched
    [Error] back. *)
Example decorator_expands_dollar_patterns :
  canvasApiErrorDecorator "CanvasApiRequestError"
    "Canvas API Request Error: cost is $& or $$5" None (Some "Error at f")
  = Some "CanvasApiRequestError: Canvas API Request Error: cost is Error or $5 at f".
Proof. reflexivity. Qed.
End ErrorFacts.

Module EncodingFacts.
Import QueryString StringFacts QueryStringFacts.
Import JSString(lacks).

Lemma hex_digit_inj (i j : nat) :
  i < 16 -> j < 16 -> hex_digit i = hex_digit j -> i = j.
Proof.
  intros Hi Hj H.
  assert (forallb (fun a => forallb (fun b =>
            implb (Ascii.eqb (hex_digit a) (hex_digit b)) (Nat.eqb a b)) (seq 0 16))
            (seq 0 16) = true) as Hall by reflexivity.
  rewrite forallb_forall in Hall.
  specialize (Hall i ltac:(apply in_seq; lia)).
  rewrite forallb_forall in Hall.
  specialize (Hall j ltac:(apply in_seq; lia)).
  rewrite H, Ascii.eqb_refl in Hall. now apply Nat.eqb_eq.
Qed.

Lemma percent_encode_inj (c d : ascii) : percent_encode c = percent_encode d -> c = d.
Proof.
  unfold percent_encode. intros H.
  pose proof (nat_ascii_bounded c) as Hc. pose proof (nat_ascii_bounded d) as Hd.
  pose proof (Nat.div_mod_eq (nat_of_ascii c) 16) as Ec.
  pose proof (Nat.div_mod_eq (nat_of_ascii d) 16) as Ed.
  assert (nat_of_ascii c / 16 < 16) as Hq1 by (apply Nat.Div0.div_lt_upper_bound; lia).
  assert (nat_of_ascii d / 16 < 16) as Hq2 by (apply Nat.Div0.div_lt_upper_bound; lia).
  assert (nat_of_ascii c mod 16 < 16) as Hr1 by (apply Nat.mod_upper_bound; lia).
  assert (nat_of_ascii d mod 16 < 16) as Hr2 by (apply Nat.mod_upper_bound; lia).
  remember (nat_of_ascii c / 16) as q1. remember (nat_of_ascii c mod 16) as r1.
  remember (nat_of_ascii d / 16) as q2. remember (nat_of_ascii d mod 16) as r2.
  injection H as H1 H2.
  apply hex_digit_inj in H1; [|assumption..].
  apply hex_digit_inj in H2; [|assumption..].
  rewrite <- (ascii_nat_embedding c), <- (ascii_nat_embedding d).
  f_equal. lia.
Qed.

Lemma percent_not_unreserved : is_unreserved "%" = false.
Proof. reflexivity. Qed.

(** X23. [encodeURIComponent] loses nothing: two strings with the same
    encoding are the same string.  Distinct keys, and distinct values,
    stay distinct in the query string. *)
Theorem encodeURIComponent_injective (a b : string) :
  encodeURIComponent a = encodeURIComponent b -> a = b.
Proof.
  revert b. induction a as [|x a IH]; intros [|y b]; cbn [encodeURIComponent].
  - reflexivity.
  - destruct (is_unreserved y); discriminate.
  - destruct (is_unreserved x); discriminate.
  - destruct (is_unreserved x) eqn:Hx, (is_unreserved y) eqn:Hy;
      unfold percent_encode; cbn [String.append]; intros H.
    + inversion H; subst. f_equal. now apply IH.
    + inversion H; subst. now rewrite percent_not_unreserved in Hx.
    + inversion H; subst. now rewrite percent_not_unreserved in Hy.
    + remember (hex_digit (nat_of_ascii x / 16)) as h1.
      remember (hex_digit (nat_of_ascii x mod 16)) as l1.
      remember (hex_digit (nat_of_ascii y / 16)) as h2.
      remember (hex_digit (nat_of_ascii y mod 16)) as l2.
      injection H as H1 H2 H3.
      assert (x = y) as ->.
      { apply percent_encode_inj. unfold percent_encode. subst. now rewrite H1, H2. }
      f_equal. now apply IH.
Qed.

Lemma encodeURIComponent_injective_witness : "a b&c" = "a b&c".
Proof. exact (encodeURIComponent_injective "a b&c" "a b&c" eq_refl). Defined.

(** *** The query string can be read back *)

Lemma lacks_not_in (c : ascii) (s : string) :
  lacks c s = true <-> ~ In c (list_ascii_of_string s).
Proof.
  induction s as [|x s IH]; simpl; [tauto|].
  rewrite andb_true_iff, negb_true_iff, IH, Ascii.eqb_neq. intuition congruence.
Qed.

Lemma append_cancel_l (a b1 b2 : string) : (a ++ b1 = a ++ b2)%string -> b1 = b2.
Proof. induction a as [|x a IH]; simpl; intros H; [exact H | inversion H; auto]. Qed.

(** Two texts cut at the first [c] are cut at the same place. *)
Lemma append_at_first (c : ascii) (a1 a2 b1 b2 : string) :
  lacks c a1 = true -> lacks c a2 = true ->
  (a1 ++ String c b1 = a2 ++ String c b2)%string -> a1 = a2 /\ b1 = b2.
Proof.
  intros H1 H2 H. apply lacks_not_in in H1, H2.
  assert (a1 = a2) as ->.
  { apply LinkHeaderFacts.chars_inj.
    apply (LinkHeaderFacts.first_occurrence c _ _
             (list_ascii_of_string b1) (list_ascii_of_string b2) H1 H2).
    apply (f_equal list_ascii_of_string) in H. now rewrite !chars_append in H. }
  split; [reflexivity|]. apply append_cancel_l in H. now inversion H.
Qed.

Lemma encoded_lacks (c : ascii) (s : string) :
  uri_safe c = false -> lacks c (encodeURIComponent s) = true.
Proof.
  intros Hc. apply lacks_not_in. intros Hin.
  pose proof (encodeURIComponent_safe s) as Hs. rewrite forallb_forall in Hs.
  specialize (Hs c Hin). congruence.
Qed.

(** [join("&")] of pieces without [&] can be cut back into the pieces. *)
Lemma concat_amp_inj (l1 : list string) : forall l2,
  l1 <> [] -> l2 <> [] ->
  Forall (fun p => lacks "&" p = true) l1 ->
  Forall (fun p => lacks "&" p = true) l2 ->
  String.concat "&" l1 = String.concat "&" l2 -> l1 = l2.
Proof.
  induction l1 as [|x l1 IH]; intros [|y l2] N1 N2 F1 F2 H; try congruence.
  inversion F1 as [|? ? Hx F1']; inversion F2 as [|? ? Hy F2']; subst.
  destruct l1 as [|x' l1], l2 as [|y' l2]; cbn [String.concat] in H.
  - now subst.
  - exfalso. rewrite H in Hx. rewrite LinkHeaderFacts.lacks_append in Hx.
    apply andb_true_iff in Hx as [_ Hx]. discriminate Hx.
  - exfalso. rewrite <- H in Hy. rewrite LinkHeaderFacts.lacks_append in Hy.
    apply andb_true_iff in Hy as [_ Hy]. discriminate Hy.
  - change ("&" ++ ?r)%string with (String "&" r) in H.
    apply (append_at_first "&") in H as [-> H]; [|assumption..].
    f_equal. apply IH; [discriminate | discriminate | assumption..].
Qed.

Section WithNumbers.
Variable number : Type.
Variable String_number : number -> string.

Local Abbreviation entries_of := (entries_of number String_number).
Local Abbreviation spec_pairs := (spec_pairs number String_number).

(** The pair an entry is sent as. *)
Local Abbreviation sent :=
  (fun entry : string * bool * string =>
     ((encodeURIComponent (fst (fst entry))
       ++ (if snd (fst entry) then "[]" else ""))%string,
      encodeURIComponent (snd entry))).

Lemma pairs_of_entries (parameters : QueryParams number) :
  flat_map spec_pairs parameters = List.map sent (entries_of parameters).
Proof.
  unfold QueryString.entries_of.
  induction parameters as [|[key value] parameters IH]; [reflexivity|].
  cbn [flat_map]. rewrite List.map_app, IH. f_equal.
  unfold QueryString.spec_pairs. cbn [fst snd].
  destruct value as [v | vs]; cbn [List.map fst snd].
  - now rewrite append_nil_r.
  - rewrite List.map_map. reflexivity.
Qed.

Lemma sent_key_lacks (c : ascii) (entry : string * bool * string) :
  uri_safe c = false -> Ascii.eqb "[" c = false -> Ascii.eqb "]" c = false ->
  lacks c (fst (sent entry)) = true.
Proof.
  intros Hc H1 H2. cbn [fst]. rewrite LinkHeaderFacts.lacks_append, (encoded_lacks c _ Hc).
  destruct (snd (fst entry)); cbn [lacks]; [now rewrite H1, H2 | reflexivity].
Qed.

Lemma sent_inj (e1 e2 : string * bool * string) : sent e1 = sent e2 -> e1 = e2.
Proof.
  destruct e1 as [[k1 a1] v1], e2 as [[k2 a2] v2]. cbn [fst snd].
  intros H. injection H as Hk Hv. apply encodeURIComponent_injective in Hv. subst v2.
  assert (lacks "[" (encodeURIComponent k1) = true) as L1 by now apply encoded_lacks.
  assert (lacks "[" (encodeURIComponent k2) = true) as L2 by now apply encoded_lacks.
  destruct a1, a2.
  - apply (append_at_first "[") in Hk as [Hk _]; [|assumption..].
    apply encodeURIComponent_injective in Hk. now subst.
  - exfalso. rewrite append_nil_r in Hk. rewrite <- Hk in L2.
    rewrite LinkHeaderFacts.lacks_append in L2.
    apply andb_true_iff in L2 as [_ L2]. discriminate L2.
  - exfalso. rewrite append_nil_r in Hk. rewrite Hk in L1.
    rewrite LinkHeaderFacts.lacks_append in L1.
    apply andb_true_iff in L1 as [_ L1]. discriminate L1.
  - rewrite !append_nil_r in Hk. apply encodeURIComponent_injective in Hk. now subst.
Qed.

Lemma render_sent_inj (e1 e2 : string * bool * string) :
  render_pair (sent e1) = render_pair (sent e2) -> e1 = e2.
Proof.
  unfold render_pair. intros H.
  change ("=" ++ ?r)%string with (String "=" r) in H.
  apply (append_at_first "=") in H as [Hk Hv];
    [|now apply sent_key_lacks..].
  apply sent_inj. cbn [fst snd] in *. now rewrite Hk, Hv.
Qed.

Lemma map_inj {A B} (f : A -> B) (Hf : forall a b, f a = f b -> a = b) (l1 : list A) :
  forall l2, List.map f l1 = List.map f l2 -> l1 = l2.
Proof.
  induction l1 as [|a l1 IH]; intros [|b l2] H; simpl in H; try discriminate.
  - reflexivity.
  - injection H as Ha Hl. f_equal; auto.
Qed.

Lemma rendered_lacks_amp (es : list (string * bool * string)) :
  Forall (fun p => lacks "&" p = true) (List.map render_pair (List.map sent es)).
Proof.
  rewrite Forall_forall. intros p Hp.
  apply in_map_iff in Hp as (kv & <- & Hkv). apply in_map_iff in Hkv as (e & <- & _).
  unfold render_pair. rewrite LinkHeaderFacts.lacks_append.
  rewrite (sent_key_lacks "&" e) by reflexivity.
  change ("=" ++ ?r)%string with (String "=" r). cbn [lacks snd].
  now rewrite (encoded_lacks "&").
Qed.

(** X24. The query string says what the parameters said.  Two parameter
    objects that serialize to the same query string have the same
    entries, in the same order: the same keys, each marked as an array
    element or not, with the same values as [String] prints them.  No
    character of a key or a value can be taken for a separator, and a key
    that ends in [[]] cannot be taken for an array. *)
Theorem query_string_determines_entries (p1 p2 : QueryParams number) :
  stringifyQueryParameters number String_number p1
  = stringifyQueryParameters number String_number p2 ->
  entries_of p1 = entries_of p2.
Proof.
  rewrite !stringify_refines_spec. unfold spec_query_string.
  rewrite !pairs_of_entries.
  intros H. apply (map_inj (fun e => render_pair (sent e)) render_sent_inj).
  rewrite <- !(List.map_map sent render_pair).
  pose proof (rendered_lacks_amp (entries_of p1)) as F1.
  pose proof (rendered_lacks_amp (entries_of p2)) as F2.
  unfold spec_render in H.
  destruct (entries_of p1) as [|e1 es1], (entries_of p2) as [|e2 es2];
    cbn [List.map] in H; try discriminate; [reflexivity|].
  injection H as H.
  apply concat_amp_inj; [discriminate | discriminate | exact F1 | exact F2 | exact H].
Qed.

End WithNumbers.

Lemma query_string_determines_entries_witness :
  QueryString.entries_of Z String_Z
    [("role", Array [Num 3%Z; Num 10%Z]); ("a&b", Single (Str "x=y"))]
  = QueryString.entries_of Z String_Z
      [("role", Array [Num 3%Z]); ("role", Array [Str "10"]); ("a&b", Single (Str "x=y"))].
Proof.
  apply (query_string_determines_entries Z String_Z).
  vm_compute. reflexivity.
Defined.
End EncodingFacts.

Module TraversalEndFacts.
Import Undici CanvasApiError ExtendedGenerator CanvasApi StringFacts ClientFacts.
Import CanvasApiResponse(Json).

Section Client.
Variable URL : Type.
Variable new_URL : string -> option URL -> URL + JSError.
Variable URL_toString : URL -> string.
Variable JSON_parse : string -> Json + JSError.
Variable unknown : Type.
Variable is_string : unknown -> bool.
Variable JSON_stringify : unknown -> option string + JSError.
Variable AbortSignal_timeout_error : Z -> option JSError.
Variable FormData : Type.
Variable number : Type.
Variable String_number : number -> string.
Variable World : Type.
Variable send : RequestFunction -> World -> Request FormData
                -> (ResponseData + JSError) * World.

Local Abbreviation Log := (list (Exchange FormData)).
Local Abbreviation record := (recording FormData World send).
Local Abbreviation get__ :=
  (get_ URL new_URL URL_toString JSON_parse unknown is_string JSON_stringify AbortSignal_timeout_error
     FormData number String_number (Log * World) record).
Local Abbreviation body_ :=
  (listPages_body URL new_URL URL_toString JSON_parse unknown is_string JSON_stringify AbortSignal_timeout_error
     FormData number String_number (Log * World) record).

(** X25. Where a traversal goes on and where it ends.  After the
    generator of [listPages] has yielded a page, the next [next()] looks
    at the [link] header of that page only: when [getNextUrl] finds a
    non-empty URL in it, the next page is what [get] returns for that URL
    with no query parameters; when the header is absent, empty, or holds
    no such URL, the sequence is done and nothing is requested. *)
Theorem listPages_follows_the_link_or_ends this options
    (g g1 : Generator CanvasApiError.t CanvasApiResponse.t
              (PagesLocals number (Log * World)))
    page (fuel : nat) :
  body g = body_ this options ->
  pull g = PValue page g1 ->
  let lw := pages_world _ _ (frame g1) in
  let after := gen_next (S fuel) g1 in
  match next_link page with
  | None | Some EmptyString =>
      fst after = Fulfilled IDone
      /\ status (snd after) = Completed
      /\ pages_world _ _ (frame (snd after)) = lw
  | Some target =>
      match get__ this target [] options lw with
      | (inl response, lw') =>
          fst after = Fulfilled (IValue response)
          /\ pages_world _ _ (frame (snd after)) = lw'
      | (inr err, lw') =>
          fst after = Rejected err
          /\ status (snd after) = Completed
          /\ pages_world _ _ (frame (snd after)) = lw'
      end
  end.
Proof.
  intros Hbody Hp. cbv zeta.
  assert (exists lw1 m,
             g1 = mkGenerator (body_ this options) Suspended
                    (mkPagesLocals _ _ (next_link page) [] lw1) m) as (lw1 & m & ->).
  { unfold pull in Hp. destruct (status g); [|discriminate].
    rewrite Hbody in Hp.
    rewrite (listPages_turn URL new_URL URL_toString JSON_parse unknown is_string
               JSON_stringify AbortSignal_timeout_error FormData number String_number World send) in Hp.
    destruct (pages_url _ _ (frame g)) as [[|c target]|]; try discriminate.
    destruct (get__ _ _ _ _ _) as [[response | err] lw1]; [|discriminate].
    inversion Hp; subst. now exists lw1, (S (resumptions g)). }
  cbn [gen_next]. unfold pull. cbn [status body frame resumptions pages_world].
  rewrite (listPages_turn URL new_URL URL_toString JSON_parse unknown is_string
             JSON_stringify AbortSignal_timeout_error FormData number String_number World send).
  cbn [pages_url pages_queryParams pages_world].
  destruct (next_link page) as [[|c target]|]; try (repeat split; fail).
  destruct (get__ _ _ _ _ _) as [[response | err] lw']; repeat split.
Qed.
End Client.

Lemma listPages_follows_the_link_or_ends_witness :
  let pages :=
    listPages string TestServer.new_URL (fun u => u) TestServer.JSON_parse unit
      (fun _ => false) (fun _ => inl (Some "null")) (fun _ => None) unit Z QueryString.String_Z
      (list (Exchange unit) * list TestServer.Request)
      (recording unit (list TestServer.Request) TestServer.send)
      TestServer.canvas "courses/page1" [] (mkRequestOptions None) ([], []) in
  exists g1,
    pull (generator pages) = PValue TestServer.page1 g1
    /\ fst (gen_next 2 g1) = Fulfilled (IValue TestServer.page2).
Proof.
  cbv zeta. eexists. split; [reflexivity|].
  refine (proj1 (listPages_follows_the_link_or_ends string TestServer.new_URL
                   (fun u => u) TestServer.JSON_parse unit (fun _ => false)
                   (fun _ => inl (Some "null")) (fun _ => None) unit Z QueryString.String_Z
                   (list TestServer.Request) TestServer.send TestServer.canvas
                   (mkRequestOptions None)
                   (generator
                      (listPages string TestServer.new_URL (fun u => u)
                         TestServer.JSON_parse unit (fun _ => false)
                         (fun _ => inl (Some "null")) (fun _ => None) unit Z QueryString.String_Z
                         (list (Exchange unit) * list TestServer.Request)
                         (recording unit (list TestServer.Request) TestServer.send)
                         TestServer.canvas "courses/page1" [] (mkRequestOptions None)
                         ([], [])))
                   _ TestServer.page1 1 eq_refl eq_refl)).
Defined.
End TraversalEndFacts.

Module RetryBudgetFacts.
Import Undici RateLimiter RateLimiterFacts DispatcherFacts.

Section Dispatcher.
Variable Request : Type.
Local Abbreviation State := (RateLimiter.State Request).
Local Abbreviation WorkItem := (RateLimiter.WorkItem Request).
Implicit Types (s r : State) (item : WorkItem) (q fired rest flying log : list WorkItem).

Lemma counts_S (n : nat) : counts (S n) = counts n ++ [Z.of_nat n].
Proof. unfold counts. now rewrite seq_S, List.map_app. Qed.

Lemma attempts_of_snoc p log item :
  attempts_of p (log ++ [item])
  = attempts_of p log ++ (if Nat.eqb (promise item) p then [retryCount item] else []).
Proof.
  unfold attempts_of. rewrite filter_app, List.map_app. cbn [List.filter].
  now destruct (Nat.eqb (promise item) p).
Qed.

Lemma attempts_of_fresh log n :
  Forall (fun item => promise item < n) log -> attempts_of n log = [].
Proof.
  unfold attempts_of. induction 1 as [|x l Hx _ IH]; [reflexivity|].
  cbn [List.filter]. destruct (Nat.eqb_spec (promise x) n); [lia | exact IH].
Qed.

Lemma Budget_pop item q flying log n :
  Budget (item :: q) flying log n ->
  Budget q (flying ++ [item]) (log ++ [item]) n.
Proof.
  intros (Hnd & Hin & Hq & Hf & Hall & Hlog).
  assert (Permutation (q ++ flying ++ [item]) ((item :: q) ++ flying)) as Hperm.
  { cbn [app]. rewrite app_assoc. symmetry. apply Permutation_cons_append. }
  assert (forall x, In x (q ++ flying) -> promise x <> promise item) as Hother.
  { intros x Hx Heq. cbn [app List.map] in Hnd. inversion Hnd as [|? ? Hni _]; subst.
    apply Hni. rewrite <- Heq. now apply in_map. }
  destruct (Hin item (or_introl eq_refl)) as (Hlt & Hrc).
  assert (attempts_of (promise item) (log ++ [item])
          = counts (S (Z.to_nat (retryCount item)))) as Hitem.
  { rewrite attempts_of_snoc, Nat.eqb_refl, counts_S, (Hq item (or_introl eq_refl)).
    now rewrite Z2Nat.id by lia. }
  assert (forall x, In x (q ++ flying) ->
            attempts_of (promise x) (log ++ [item]) = attempts_of (promise x) log) as Hsame.
  { intros x Hx. rewrite attempts_of_snoc.
    destruct (Nat.eqb_spec (promise item) (promise x)) as [Heq|_];
      [now elim (Hother x Hx) | now rewrite app_nil_r]. }
  repeat split.
  - eapply Permutation_NoDup; [|exact Hnd]. symmetry.
    apply Permutation_map. exact Hperm.
  - apply Hin. eapply Permutation_in; [exact Hperm | exact H].
  - apply Hin. eapply Permutation_in; [exact Hperm | exact H].
  - apply Hin. eapply Permutation_in; [exact Hperm | exact H].
  - intros x Hx. rewrite Hsame by (apply in_or_app; now left).
    apply Hq. now right.
  - intros x Hx. apply in_app_or in Hx as [Hx | [<- | []]]; [|exact Hitem].
    rewrite Hsame by (apply in_or_app; now right). now apply Hf.
  - intros p. destruct (Nat.eq_dec p (promise item)) as [-> | Hne].
    + exists (S (Z.to_nat (retryCount item))). split; [|exact Hitem].
      unfold MAX_RETRIES in *. lia.
    + destruct (Hall p) as (k & Hk & Hp). exists k. split; [exact Hk|].
      rewrite attempts_of_snoc.
      destruct (Nat.eqb_spec (promise item) p); [congruence | now rewrite app_nil_r].
  - apply Forall_app. split; [exact Hlog | now repeat constructor].
Qed.

Lemma Budget_fires fired : forall q flying log n,
  Budget (fired ++ q) flying log n ->
  Budget q (flying ++ fired) (log ++ fired) n.
Proof.
  induction fired as [|item fired IH]; intros q flying log n H; simpl in *.
  - now rewrite !app_nil_r.
  - apply Budget_pop in H. apply IH in H. now rewrite <- !app_assoc in H.
Qed.

Local Abbreviation budget s :=
  (Budget (_pendingWorkItems s) (inFlight s) (dispatched s) (promises s)).

Lemma Fires_budget s r fired : Fires s r fired -> budget s -> budget r.
Proof.
  intros (F1 & F2 & F3 & _ & F5 & _) H.
  rewrite F2, F3, F5. apply Budget_fires. now rewrite <- F1.
Qed.

(** An answer has arrived: the item leaves the items in flight. *)
Lemma Budget_landed n0 flying item rest q log n :
  take_nth n0 flying = Some (item, rest) ->
  Budget q flying log n ->
  Budget q rest log n
  /\ (promise item < n /\ (0 <= retryCount item <= MAX_RETRIES)%Z)
  /\ attempts_of (promise item) log = counts (S (Z.to_nat (retryCount item)))
  /\ ~ In (promise item) (List.map promise (q ++ rest)).
Proof.
  intros Ht (Hnd & Hin & Hq & Hf & Hall & Hlog).
  pose proof (take_nth_perm _ _ _ _ _ Ht) as Hp.
  assert (Permutation (q ++ flying) (item :: q ++ rest)) as Hperm.
  { rewrite Hp. symmetry. apply Permutation_middle. }
  assert (NoDup (List.map promise (item :: q ++ rest))) as Hnd'.
  { eapply Permutation_NoDup; [|exact Hnd]. now apply Permutation_map. }
  cbn [List.map] in Hnd'. inversion Hnd' as [|? ? Hni Hnd'']; subst.
  assert (In item flying) as Hitem.
  { eapply Permutation_in; [symmetry; exact Hp | now left]. }
  assert (forall x, In x rest -> In x flying) as Hrest.
  { intros x Hx. eapply Permutation_in; [symmetry; exact Hp | now right]. }
  repeat split; auto.
  - apply Hin. apply in_app_or in H as [H | H]; apply in_or_app; auto.
  - apply Hin. apply in_app_or in H as [H | H]; apply in_or_app; auto.
  - apply Hin. apply in_app_or in H as [H | H]; apply in_or_app; auto.
  - apply Hin. apply in_or_app; auto.
  - apply Hin. apply in_or_app; auto.
  - apply Hin. apply in_or_app; auto.
Qed.

Lemma Budget_requeue item q rest log n :
  Budget q rest log n ->
  promise item < n -> (0 <= retryCount item < MAX_RETRIES)%Z ->
  attempts_of (promise item) log = counts (S (Z.to_nat (retryCount item))) ->
  ~ In (promise item) (List.map promise (q ++ rest)) ->
  Budget (retry item :: q) rest log n.
Proof.
  intros (Hnd & Hin & Hq & Hf & Hall & Hlog) Hlt Hrc Hatt Hni.
  repeat split; auto.
  - cbn [app List.map retry promise]. now constructor.
  - destruct H as [<- | H]; [exact Hlt | now apply Hin].
  - destruct H as [<- | H]; [cbn; lia | now apply Hin].
  - destruct H as [<- | H]; [cbn; unfold MAX_RETRIES in *; lia | now apply Hin].
  - intros x [<- | Hx]; [|now apply Hq].
    cbn [retry promise retryCount]. rewrite Hatt. f_equal.
    rewrite Z2Nat.inj_add by lia. simpl. lia.
Qed.

Lemma step_budget s e : well_formed s -> budget s -> budget (step s e).
Proof.
  intros Hwf Hb.
  destruct e as [req | now | now | n now status hs content | n err]; cbn [step].
  - destruct Hb as (Hnd & Hin & Hq & Hf & Hall & Hlog).
    assert (forall x, In x (_pendingWorkItems s ++ inFlight s) -> promise x <> promises s)
      as Hfresh by (intros x Hx; specialize (Hin x Hx); lia).
    pose proof (attempts_of_fresh _ _ Hlog) as Hnone.
    unfold request. cbn. repeat split.
    + rewrite <- app_assoc. cbn [app].
      eapply Permutation_NoDup;
        [apply Permutation_map, Permutation_middle|].
      cbn [List.map promise]. constructor; [|exact Hnd].
      intros Hx. apply in_map_iff in Hx as (x & Hpx & Hx). now apply (Hfresh x).
    + rewrite <- app_assoc in H. apply in_app_or in H as [H | [<- | H]].
      * destruct (Hin item (in_or_app _ _ _ (or_introl H))). lia.
      * cbn. lia.
      * destruct (Hin item (in_or_app _ _ _ (or_intror H))). lia.
    + rewrite <- app_assoc in H. apply in_app_or in H as [H | [<- | H]].
      * apply (Hin item (in_or_app _ _ _ (or_introl H))).
      * cbn. lia.
      * apply (Hin item (in_or_app _ _ _ (or_intror H))).
    + rewrite <- app_assoc in H. apply in_app_or in H as [H | [<- | H]].
      * apply (Hin item (in_or_app _ _ _ (or_introl H))).
      * cbn. unfold MAX_RETRIES. lia.
      * apply (Hin item (in_or_app _ _ _ (or_intror H))).
    + intros x Hx. apply in_app_or in Hx as [Hx | [<- | []]]; [now apply Hq|].
      cbn [promise retryCount]. exact Hnone.
    + exact Hf.
    + exact Hall.
    + eapply Forall_impl; [|exact Hlog]. cbn. intros x Hx. lia.
  - destruct (startWorkLoop_fires _ now s Hwf) as (fired & HF & _).
    eapply Fires_budget; eauto.
  - destruct (_isIdle s) eqn:Hi; [exact Hb|].
    destruct (_pendingWorkItems s) as [|item rest] eqn:Hq; [now elim (Hwf Hi)|].
    destruct (resume_fires _ now s item rest Hi Hq) as (fired & HF & _).
    eapply Fires_budget; [exact HF|]. now rewrite Hq.
  - destruct (take_nth n (inFlight s)) as [[item rest]|] eqn:Ht; [|exact Hb].
    destruct (Budget_landed _ _ _ _ _ _ _ Ht Hb) as (Hb' & (Hlt & Hrc) & Hatt & Hni).
    assert (forall res, budget (resolve_and_check_quota now item res (set_inFlight rest s)))
      as Hres.
    { intros res.
      pose proof (resolve_and_check_quota_fields _ now item res (set_inFlight rest s)) as H.
      cbv zeta in H. destruct H as (_ & H2 & H3 & H4 & H5 & _).
      rewrite H2, H3, H4, H5. exact Hb'. }
    unfold on_fulfilled, arrived, text. cbn [statusCode body headers text_method bodyUsed wire].
    destruct (status =? 403)%Z; [|apply Hres].
    destruct (JSString.includes "Rate Limit Exceeded" content); [|apply Hres].
    destruct (Z.geb_spec (retryCount item) MAX_RETRIES) as [Hge | Hlt']; [exact Hb'|].
    match goal with |- context [startWorkLoop now (_setDelayToStartAtNextInterval now ?s1)] =>
      pose proof (setDelay_fields _ now s1) as Hd; cbv zeta in Hd;
      destruct Hd as (D1 & D2 & D3 & _ & D5 & _);
      destruct (startWorkLoop_fires _ now (_setDelayToStartAtNextInterval now s1))
        as (fired & HF & _);
      [ intros _; rewrite D1; discriminate | ]
    end.
    eapply Fires_budget; [exact HF|].
    rewrite D1, D2, D3, D5. cbn [set_pending set_inFlight _pendingWorkItems inFlight
                                   dispatched promises].
    apply Budget_requeue; auto. lia.
  - destruct (take_nth n (inFlight s)) as [[item rest]|] eqn:Ht; [|exact Hb].
    destruct (Budget_landed _ _ _ _ _ _ _ Ht Hb) as (Hb' & _). exact Hb'.
Qed.

Lemma run_budget events : forall s, well_formed s -> budget s -> budget (run s events).
Proof.
  induction events as [|e events IH]; intros s Hwf Hb; simpl; [exact Hb|].
  apply IH; [now apply step_well_formed | now apply step_budget].
Qed.

(** X26. No request is attempted more than six times.  In every state
    the dispatcher can reach, whatever the responses were and in whatever
    order they came, the dispatches of the work items of any one promise
    carry the retry counts [0, 1, 2, ...] in this order, and there are at
    most [MAX_RETRIES + 1 = 6] of them; the retry count of a work item
    that is queued or in flight is between [0] and [5]. *)
Theorem no_request_is_attempted_more_than_six_times
    (limit : Z) (events : list (Event Request)) :
  let s := run (create Request limit) events in
  (forall p, exists k, k <= 6 /\ attempts_of p (dispatched s) = counts k)
  /\ (forall item, In item (_pendingWorkItems s ++ inFlight s) ->
        (0 <= retryCount item <= 5)%Z).
Proof.
  cbv zeta.
  assert (budget (run (create Request limit) events)) as (_ & Hin & _ & _ & Hall & _).
  { apply run_budget; [intros H; discriminate H|].
    repeat split; cbn; try constructor; try contradiction.
    intros p. exists 0. split; [lia | reflexivity]. }
  split; [exact Hall|]. intros item Hitem. now apply Hin.
Qed.
End Dispatcher.
End RetryBudgetFacts.

Module ProgressFacts.
Import Undici RateLimiter RateLimiterFacts.

Section Dispatcher.
Variable Request : Type.
Local Abbreviation State := (RateLimiter.State Request).
Local Abbreviation WorkItem := (RateLimiter.WorkItem Request).
Implicit Types (s r : State) (item : WorkItem) (q fired rest : list WorkItem).

Lemma head_is_dispatched s item rest now1 now2 :
  well_formed s -> _pendingWorkItems s = item :: rest ->
  exists fired,
    dispatched (step (step s (Tick now1)) (Wake now2)) = dispatched s ++ item :: fired.
Proof.
  intros Hwf Hq. cbn [step].
  destruct (startWorkLoop_fires _ now1 s Hwf) as (fired & HF & HS & Hsame).
  destruct HF as (F1 & _ & F3 & _).
  destruct (_isIdle (startWorkLoop now1 s)) eqn:Hi.
  - destruct HS as [[Hr _] | [_ Hr]]; [|congruence].
    rewrite Hr, app_nil_r, Hq in F1. subst fired. now exists rest.
  - destruct (_pendingWorkItems (startWorkLoop now1 s)) as [|x q] eqn:Hr.
    { destruct HS as [[_ H] | [H _]]; congruence. }
    destruct (resume_fires _ now2 _ x q Hi Hr) as (fired2 & (_ & _ & R3 & _) & _).
    rewrite R3, F3. rewrite Hq in F1.
    destruct fired as [|y fired]; cbn [app] in F1.
    + inversion F1; subst. rewrite app_nil_r. now exists fired2.
    + inversion F1; subst. exists (fired ++ x :: fired2).
      now rewrite <- app_assoc.
Qed.

(** X27. The head of the queue is not held back.  In every state the
    dispatcher can reach in which a work item heads the queue, the
    start-up tick of a submission followed by one wake-up of the loop
    dispatches that item (and possibly more behind it), whatever the
    clock reads, whatever delay is pending and however many requests are
    still unanswered. *)
Theorem head_of_queue_is_dispatched_next
    (limit : Z) (events : list (Event Request)) item rest (now1 now2 : Z) :
  let s := run (create Request limit) events in
  _pendingWorkItems s = item :: rest ->
  exists fired,
    dispatched (step (step s (Tick now1)) (Wake now2)) = dispatched s ++ item :: fired.
Proof.
  cbv zeta. intros Hq. apply (head_is_dispatched _ item rest); [|exact Hq].
  apply reachable_well_formed.
Qed.
End Dispatcher.

Lemma head_of_queue_is_dispatched_next_witness :
  let s := run (create string 1000)
             [Submit "a"; Submit "b"; Tick 0;
              Respond 0 10 403 [] rate_limited_body;
              Respond 0 20 403 [] rate_limited_body] in
  exists fired,
    dispatched (step (step s (Tick 30)) (Wake 1000))
    = dispatched s ++ mkWorkItem 1 "b" 2 1 :: fired.
Proof.
  exact (head_of_queue_is_dispatched_next string 1000
           [Submit "a"; Submit "b"; Tick 0;
            Respond 0 10 403 [] rate_limited_body;
            Respond 0 20 403 [] rate_limited_body]
           (mkWorkItem 1 "b" 2 1) [mkWorkItem 0 "a" 1 1] 30 1000 eq_refl).
Defined.
End ProgressFacts.

Module QueueOrderFacts.
Import Undici RateLimiter RateLimiterFacts DispatcherFacts ProgressFacts.

(** *** Logs of dispatches *)

Lemma Precedes_nil {A} (x y : A) : Precedes x y [].
Proof. intros [|z l1] l2 H; discriminate. Qed.

(** What stands behind a stretch without [y]. *)
Lemma Precedes_later {A} (x y : A) (a b : list A) :
  ~ In y a -> Precedes x y b -> Precedes x y (a ++ b).
Proof.
  induction a as [|z a IH]; intros Hy Hb; [exact Hb|].
  intros [|z' l1] l2 H; simpl in H; injection H as Hz H.
  - subst z. elim Hy. now left.
  - right. apply (IH (fun Hin => Hy (or_intror Hin)) Hb l1 l2 H).
Qed.

(** [x] stands in the log, and [y] not before it. *)
Lemma Precedes_found {A} (x y : A) (a b : list A) :
  x <> y -> ~ In y a -> Precedes x y (a ++ x :: b).
Proof.
  induction a as [|z a IH]; intros Hxy Hy.
  - intros [|z' l1] l2 H; simpl in H; injection H as Hz H.
    + congruence.
    + subst z'. now left.
  - intros [|z' l1] l2 H; simpl in H; injection H as Hz H.
    + subst z. elim Hy. now left.
    + right. apply (IH Hxy (fun Hin => Hy (or_intror Hin)) l1 l2 H).
Qed.

(** In a list without two elements of the same key, an element that
    stands behind [x] is not [x] and does not stand before it. *)
Lemma NoDup_map_behind {A B} (f : A -> B) (a : list A) x b y c :
  NoDup (List.map f (a ++ x :: b ++ y :: c)) -> x <> y /\ ~ In y a.
Proof.
  induction a as [|z a IH]; simpl; intros N; inversion N as [|? ? Hz N']; subst.
  - split; [|tauto]. intros ->. apply Hz. apply in_map, in_elt.
  - destruct (IH N') as (Hxy & Hy). split; [exact Hxy|].
    intros [-> | Hin]; [|tauto].
    apply Hz. apply in_map. apply in_or_app. right. right. apply in_elt.
Qed.

Section Dispatcher.
Variable Request : Type.
Local Abbreviation State := (RateLimiter.State Request).
Local Abbreviation WorkItem := (RateLimiter.WorkItem Request).
Implicit Types (s r : State) (item x y : WorkItem) (q fired rest : list WorkItem).

(** What every reachable state satisfies, and every step keeps. *)
Local Abbreviation invariant s :=
  (well_formed s /\ ordered s /\ Permutation (accounted s) (seq 0 (promises s))).

Lemma create_invariant limit : invariant (create Request limit).
Proof.
  split; [intros H; discriminate H|]. split; [|reflexivity].
  exists [], []. repeat split; constructor.
Qed.

Lemma step_invariant s e : invariant s -> invariant (step s e).
Proof.
  intros (Hwf & Hord & Hacc). split; [now apply step_well_formed|].
  split; [now apply step_ordered | now apply step_accounted].
Qed.

Lemma run_invariant events : forall s, invariant s -> invariant (run s events).
Proof.
  induction events as [|e events IH]; intros s H; [exact H|].
  apply IH, step_invariant, H.
Qed.

(** One event and the queue.  The event puts at most one work item in
    the queue, a retry at the head or a submission at the tail, and then
    dispatches a stretch from the head of the queue, in the order of the
    queue. *)
Lemma step_dispatch s e :
  well_formed s -> ordered s ->
  exists front back fired flying,
    front ++ _pendingWorkItems s ++ back = fired ++ _pendingWorkItems (step s e)
    /\ dispatched (step s e) = dispatched s ++ fired
    /\ inFlight (step s e) = flying ++ fired
    /\ (front = [] \/ exists item, front = [retry item] /\ (0 <= retryCount item)%Z)
    /\ (back = []
        \/ exists req,
             back = [mkWorkItem (promises s) req (fst (_getCallCounter s)) 0]).
Proof.
  intros Hwf Hord.
  destruct e as [req | now | now | n now status hs content | n err]; cbn [step].
  - exists [], [mkWorkItem (promises s) req (fst (_getCallCounter s)) 0], [], (inFlight s).
    unfold request. cbn. rewrite !app_nil_r. repeat split; auto.
    right. now exists req.
  - destruct (startWorkLoop_fires _ now s Hwf) as (fired & (F1 & F2 & F3 & _) & _).
    exists [], [], fired, (inFlight s). cbn [app]. rewrite app_nil_r.
    repeat split; auto.
  - destruct (_isIdle s) eqn:Hi.
    + exists [], [], [], (inFlight s). cbn [app]. rewrite !app_nil_r. repeat split; auto.
    + destruct (_pendingWorkItems s) as [|item rest] eqn:Hq; [now elim (Hwf Hi)|].
      destruct (resume_fires _ now s item rest Hi Hq) as (fired & (F1 & F2 & F3 & _) & _).
      exists [], [], (item :: fired), (inFlight s). cbn [app]. rewrite app_nil_r.
      rewrite <- Hq. repeat split; auto.
  - destruct (take_nth n (inFlight s)) as [[item rest]|] eqn:Ht.
    2:{ exists [], [], [], (inFlight s). cbn [app]. rewrite !app_nil_r. repeat split; auto. }
    destruct (Ordered_landed _ _ _ _ _ _ _ _ Ht Hord) as (H0 & _).
    assert (forall res,
               let r := resolve_and_check_quota now item res (set_inFlight rest s) in
               exists front back fired flying,
                 front ++ _pendingWorkItems s ++ back = fired ++ _pendingWorkItems r
                 /\ dispatched r = dispatched s ++ fired
                 /\ inFlight r = flying ++ fired
                 /\ (front = []
                     \/ exists item, front = [retry item] /\ (0 <= retryCount item)%Z)
                 /\ (back = []
                     \/ exists req,
                          back = [mkWorkItem (promises s) req (fst (_getCallCounter s)) 0]))
      as Hres.
    { intros res.
      pose proof (resolve_and_check_quota_fields _ now item res (set_inFlight rest s)) as H.
      cbv zeta in H |- *. destruct H as (_ & H2 & H3 & H4 & _).
      exists [], [], [], rest. rewrite H2, H3, H4. cbn. rewrite !app_nil_r.
      repeat split; auto. }
    unfold on_fulfilled, arrived, text. cbn [statusCode body headers text_method bodyUsed wire].
    destruct (status =? 403)%Z; [|apply Hres].
    destruct (JSString.includes "Rate Limit Exceeded" content); [|apply Hres].
    destruct (retryCount item >=? MAX_RETRIES)%Z.
    + exists [], [], [], rest. cbn. rewrite !app_nil_r. repeat split; auto.
    + match goal with
      |- context [startWorkLoop now (_setDelayToStartAtNextInterval now ?s1)] =>
        pose proof (setDelay_fields _ now s1) as Hd; cbv zeta in Hd;
        destruct Hd as (D1 & D2 & D3 & _);
        destruct (startWorkLoop_fires _ now (_setDelayToStartAtNextInterval now s1))
          as (fired & (F1 & F2 & F3 & _) & _);
        [ intros _; rewrite D1; discriminate | ]
      end.
      rewrite D1 in F1. rewrite D2 in F2. rewrite D3 in F3. cbn in F1, F2, F3.
      exists [retry item], [], fired, rest. rewrite app_nil_r.
      repeat split; auto. right. now exists item.
  - destruct (take_nth n (inFlight s)) as [[item rest]|] eqn:Ht.
    + exists [], [], [], rest. cbn. rewrite !app_nil_r. repeat split; auto.
    + exists [], [], [], (inFlight s). cbn [app]. rewrite !app_nil_r. repeat split; auto.
Qed.

(** The log of dispatches only grows. *)
Lemma run_extends events : forall s,
  invariant s -> exists new, dispatched (run s events) = dispatched s ++ new.
Proof.
  induction events as [|e events IH]; intros s Hinv.
  - exists []. now rewrite app_nil_r.
  - destruct (IH _ (step_invariant s e Hinv)) as (new1 & H1).
    destruct Hinv as (Hwf & Hord & _).
    destruct (step_dispatch s e Hwf Hord) as (_ & _ & fired & _ & _ & HD & _).
    exists (fired ++ new1). cbn [run fold_left]. fold (run (step s e) events).
    now rewrite H1, HD, <- app_assoc.
Qed.

(** What has been dispatched and what is queued belongs to different
    promises. *)
Lemma fired_queue_NoDup s fired flying :
  Permutation (accounted s) (seq 0 (promises s)) ->
  inFlight s = flying ++ fired ->
  NoDup (List.map promise (fired ++ _pendingWorkItems s)).
Proof.
  intros Hacc HF.
  assert (NoDup (accounted s)) as N.
  { apply (Permutation_NoDup (Permutation_sym Hacc)), seq_NoDup. }
  unfold accounted in N. rewrite app_assoc in N. apply NoDup_app_remove_r in N.
  rewrite HF, List.map_app in N.
  rewrite List.map_app.
  apply (NoDup_app_remove_r _ (List.map promise flying)).
  eapply Permutation_NoDup; [|exact N].
  rewrite app_assoc. etransitivity; [apply Permutation_app_comm|].
  now rewrite app_assoc.
Qed.

Lemma front_retried front :
  (front = [] \/ exists item, front = [retry item] /\ (0 <= retryCount item)%Z) ->
  Forall (fun item : WorkItem => (1 <= retryCount item)%Z) front.
Proof.
  intros [-> | (item & -> & H0)]; repeat constructor. simpl. lia.
Qed.

(** A queued retried item is dispatched before every item that has not
    been attempted: in whatever is dispatched from now on, a work item
    with retry count 0 stands behind it. *)
Lemma retried_first events : forall s x,
  invariant s -> In x (_pendingWorkItems s) -> (1 <= retryCount x)%Z ->
  exists new,
    dispatched (run s events) = dispatched s ++ new
    /\ forall y, retryCount y = 0%Z -> Precedes x y new.
Proof.
  induction events as [|e events IH]; intros s x Hinv Hx Hrc.
  - exists []. split; [now rewrite app_nil_r|]. intros; apply Precedes_nil.
  - pose proof (step_invariant s e Hinv) as Hinv1.
    destruct Hinv as (Hwf & Hord & _).
    destruct (step_dispatch s e Hwf Hord)
      as (front & back & fired & flying & HQ & HD & _ & Hfront & _).
    apply front_retried in Hfront.
    destruct Hord as (retried & fresh & Hq & Hr & Hf & _ & _).
    assert (In x retried) as Hxr.
    { rewrite Hq in Hx. apply in_app_or in Hx. destruct Hx as [Hx | Hx]; [exact Hx|].
      rewrite Forall_forall in Hf. specialize (Hf x Hx). lia. }
    apply in_split in Hxr. destruct Hxr as (r1 & r2 & ->).
    assert (Forall (fun item : WorkItem => (1 <= retryCount item)%Z) (front ++ r1)) as HA.
    { apply Forall_app. split; [exact Hfront|].
      apply Forall_app in Hr. tauto. }
    rewrite Hq in HQ. rewrite <- !app_assoc in HQ. cbn [app] in HQ.
    rewrite app_assoc in HQ.
    assert ((In x (_pendingWorkItems (step s e))
             /\ Forall (fun item : WorkItem => (1 <= retryCount item)%Z) fired)
            \/ exists l, fired = (front ++ r1) ++ x :: l) as [(Hx1 & Hfired) | (l & Hfired)].
    { apply app_eq_app in HQ. destruct HQ as (l & [(H1 & H2) | (H1 & H2)]).
      - left. split; [rewrite H2; apply in_elt|].
        rewrite H1 in HA. apply Forall_app in HA. tauto.
      - destruct l as [|z l]; cbn [app] in H2.
        + left. split; [rewrite <- H2; now left|].
          rewrite H1, app_nil_r. exact HA.
        + right. injection H2 as <- _. now exists l. }
    + destruct (IH _ x Hinv1 Hx1 Hrc) as (new1 & H1 & HP).
      exists (fired ++ new1). cbn [run fold_left]. fold (run (step s e) events).
      split; [now rewrite H1, HD, <- app_assoc|].
      intros y Hy. apply Precedes_later; [|now apply HP].
      intros Hin. rewrite Forall_forall in Hfired. specialize (Hfired y Hin). lia.
    + destruct (run_extends events _ Hinv1) as (new1 & H1).
      exists (fired ++ new1). cbn [run fold_left]. fold (run (step s e) events).
      split; [now rewrite H1, HD, <- app_assoc|].
      intros y Hy. rewrite Hfired, <- app_assoc. cbn [app].
      apply Precedes_found; [intros ->; lia|].
      intros Hin. rewrite Forall_forall in HA. specialize (HA y Hin). lia.
Qed.

(** The order of the queue is the order of dispatch: of two queued work
    items, the one nearer the head is dispatched first. *)
Lemma queue_order events : forall s a x b y c,
  invariant s -> _pendingWorkItems s = a ++ x :: b ++ y :: c ->
  exists new,
    dispatched (run s events) = dispatched s ++ new /\ Precedes x y new.
Proof.
  induction events as [|e events IH]; intros s a x b y c Hinv Hq.
  - exists []. split; [now rewrite app_nil_r | apply Precedes_nil].
  - pose proof (step_invariant s e Hinv) as Hinv1.
    destruct Hinv as (Hwf & Hord & _).
    destruct (step_dispatch s e Hwf Hord)
      as (front & back & fired & flying & HQ & HD & HF & _ & _).
    pose proof (fired_queue_NoDup _ fired flying (proj2 (proj2 Hinv1)) HF) as N.
    rewrite <- HQ, Hq in N. rewrite Hq in HQ.
    rewrite <- !app_assoc in HQ, N. cbn [app] in HQ, N.
    rewrite <- !app_assoc in HQ, N. cbn [app] in HQ, N.
    rewrite app_assoc in HQ, N.
    destruct (NoDup_map_behind promise _ _ _ _ _ N) as (Hxy & Hya).
    assert ((exists a', _pendingWorkItems (step s e) = a' ++ x :: b ++ y :: c ++ back
                        /\ front ++ a = fired ++ a')
            \/ exists l, fired = (front ++ a) ++ x :: l) as [(a' & Hq1 & Hfired) | (l & Hfired)].
    { apply app_eq_app in HQ. destruct HQ as (l & [(H1 & H2) | (H1 & H2)]).
      - left. now exists l.
      - destruct l as [|z l]; cbn [app] in H2.
        + left. exists []. split; [now rewrite <- H2|]. now rewrite H1, !app_nil_r.
        + right. injection H2 as <- _. now exists l. }
    + destruct (IH _ a' x b y (c ++ back) Hinv1 Hq1) as (new1 & H1 & HP).
      exists (fired ++ new1). cbn [run fold_left]. fold (run (step s e) events).
      split; [now rewrite H1, HD, <- app_assoc|].
      apply Precedes_later; [|exact HP].
      intros Hin. apply Hya. rewrite Hfired. apply in_or_app. now left.
    + destruct (run_extends events _ Hinv1) as (new1 & H1).
      exists (fired ++ new1). cbn [run fold_left]. fold (run (step s e) events).
      split; [now rewrite H1, HD, <- app_assoc|].
      rewrite Hfired, <- app_assoc. cbn [app].
      now apply Precedes_found.
Qed.

(** The state between the re-queuing of a rate-limited item and the call
    of [startWorkLoop()] that follows it. *)
Lemma requeued_invariant s n now item rest :
  invariant s -> take_nth n (inFlight s) = Some (item, rest) ->
  invariant
    (_setDelayToStartAtNextInterval now
       (set_pending (retry item :: _pendingWorkItems s) (set_inFlight rest s))).
Proof.
  intros (Hwf & Hord & Hacc) Ht.
  match goal with |- context [_setDelayToStartAtNextInterval now ?s1] =>
    pose proof (setDelay_fields _ now s1) as Hd; cbv zeta in Hd;
    destruct Hd as (D1 & D2 & D3 & D4 & D5 & _) end.
  split; [|split].
  - intros _. rewrite D1. discriminate.
  - destruct (Ordered_landed _ _ _ _ _ _ _ _ Ht Hord) as (H0 & Hord').
    unfold ordered. rewrite D1, D2, D3, D5.
    apply (Ordered_requeue _ item _ _ _ _ H0 Hord').
  - unfold accounted at 1. rewrite D1, D2, D4, D5.
    pose proof (accounted_requeued _ s item rest (take_nth_perm _ _ _ _ _ Ht)) as Hp.
    unfold accounted at 1 in Hp. cbn [promises set_pending set_inFlight].
    now rewrite Hp.
Qed.

(** C8, amended.  In every state the dispatcher can reach:
    - the queue is a run of retried items (retry count at least 1)
      followed by a run of items never attempted (retry count 0);
    - the never-attempted items are dispatched in the order of their
      submission: those dispatched so far and those still queued are, in
      this order, the promises created so far;
    - a submission appends its item, with retry count 0, at the tail;
    - a rate-limited item below the ceiling is put back at the head with
      its retry count incremented and the same promise, before the loop
      is started again;
    - the loop dispatches from the head: an event puts at most one item
      in the queue, a retry at the head or a submission at the tail, and
      what it dispatches is a stretch from the head of that queue, in the
      order of the queue; and the start-up tick followed by one wake-up
      does dispatch the item at the head;
    - so, in whatever is dispatched from then on, in any continuation of
      the run: a queued retried item is dispatched before every item with
      retry count 0; of two queued items the one nearer the head is
      dispatched before the other; and an item that is re-queued is
      dispatched before every item that was queued when it came back,
      retried items among them: the retried items go most recently
      re-queued first. *)
Theorem queue_ordering_invariant (limit : Z) (events : list (Event Request)) :
  let s := run (create Request limit) events in
  (exists retried fresh,
      _pendingWorkItems s = retried ++ fresh
      /\ Forall (fun item => (1 <= retryCount item)%Z) retried
      /\ Forall (fun item => retryCount item = 0%Z) fresh)
  /\ List.map promise (List.filter is_fresh (dispatched s))
       ++ List.map promise (List.filter is_fresh (_pendingWorkItems s))
     = seq 0 (promises s)
  /\ (forall req,
        _pendingWorkItems (step s (Submit req))
        = _pendingWorkItems s
            ++ [mkWorkItem (promises s) req (fst (_getCallCounter s)) 0])
  /\ (forall n now hs content item rest,
        take_nth n (inFlight s) = Some (item, rest) ->
        JSString.includes "Rate Limit Exceeded" content = true ->
        (retryCount item < MAX_RETRIES)%Z ->
        exists s1,
          _pendingWorkItems s1 = retry item :: _pendingWorkItems s
          /\ promise (retry item) = promise item
          /\ retryCount (retry item) = (retryCount item + 1)%Z
          /\ step s (Respond n now 403 hs content) = startWorkLoop now s1)
  /\ (forall e,
        exists front back fired,
          front ++ _pendingWorkItems s ++ back
          = fired ++ _pendingWorkItems (step s e)
          /\ dispatched (step s e) = dispatched s ++ fired
          /\ (front = [] \/ exists item, front = [retry item])
          /\ (back = []
              \/ exists req,
                   back = [mkWorkItem (promises s) req (fst (_getCallCounter s)) 0]))
  /\ (forall item rest now1 now2,
        _pendingWorkItems s = item :: rest ->
        exists fired,
          dispatched (step (step s (Tick now1)) (Wake now2))
          = dispatched s ++ item :: fired)
  /\ (forall x later,
        In x (_pendingWorkItems s) -> (1 <= retryCount x)%Z ->
        exists new,
          dispatched (run s later) = dispatched s ++ new
          /\ forall y, retryCount y = 0%Z -> Precedes x y new)
  /\ (forall a x b y c later,
        _pendingWorkItems s = a ++ x :: b ++ y :: c ->
        exists new,
          dispatched (run s later) = dispatched s ++ new /\ Precedes x y new)
  /\ (forall n now hs content item rest y later,
        take_nth n (inFlight s) = Some (item, rest) ->
        JSString.includes "Rate Limit Exceeded" content = true ->
        (retryCount item < MAX_RETRIES)%Z ->
        In y (_pendingWorkItems s) ->
        exists new,
          dispatched (run (step s (Respond n now 403 hs content)) later)
          = dispatched s ++ new
          /\ Precedes (retry item) y new).
Proof.
  cbv zeta.
  pose proof (run_invariant events _ (create_invariant limit)) as Hinv.
  set (s := run (create Request limit) events) in *.
  pose proof Hinv as (Hwf & Hord & Hacc).
  destruct Hord as (retried & fresh & Hq & Hr & Hf & Hseq & _).
  split; [exists retried, fresh; auto|]. split.
  { rewrite Hq, (filter_fresh_queue _ _ _ Hr Hf). exact Hseq. }
  split; [reflexivity|]. split.
  { intros n now hs content item rest Hn Hmark Hrc. cbn [step]. rewrite Hn.
    rewrite (on_fulfilled_rate_limited _ _ _ _ _ _ Hmark).
    assert ((retryCount item >=? MAX_RETRIES)%Z = false) as ->.
    { rewrite Z.geb_leb. now apply Z.leb_gt. }
    eexists. split; [|split; [reflexivity | split; reflexivity]].
    now rewrite (proj1 (setDelay_fields _ now _)). }
  split.
  { intros e.
    destruct (step_dispatch s e Hwf (proj1 (proj2 Hinv)))
      as (front & back & fired & _ & HQ & HD & _ & Hfront & Hback).
    exists front, back, fired. repeat split; auto.
    destruct Hfront as [-> | (item & -> & _)]; [now left | right; now exists item]. }
  split.
  { intros item rest now1 now2 Hhead.
    exact (head_is_dispatched _ s item rest now1 now2 Hwf Hhead). }
  split.
  { intros x later Hx Hrc. exact (retried_first later s x Hinv Hx Hrc). }
  split.
  { intros a x b y c later Hqueue. exact (queue_order later s a x b y c Hinv Hqueue). }
  intros n now hs content item rest y later Hn Hmark Hrc Hy.
  cbn [step]. rewrite Hn.
  rewrite (on_fulfilled_rate_limited _ _ _ _ _ _ Hmark).
  assert ((retryCount item >=? MAX_RETRIES)%Z = false) as ->.
  { rewrite Z.geb_leb. now apply Z.leb_gt. }
  pose proof (requeued_invariant s n now item rest Hinv Hn) as Hmid.
  match goal with |- context [startWorkLoop now ?s1] => set (mid := s1) in * end.
  change (run (startWorkLoop now mid) later) with (run mid (Tick now :: later)).
  apply in_split in Hy. destruct Hy as (b & c & Hy).
  destruct (queue_order (Tick now :: later) mid [] (retry item) b y c Hmid)
    as (new & Hnew & HP).
  { unfold mid. rewrite (proj1 (setDelay_fields _ now _)). cbn. now rewrite Hy. }
  exists new. split; [|exact HP].
  rewrite Hnew. unfold mid.
  now rewrite (proj1 (proj2 (proj2 (setDelay_fields _ now _)))).
Qed.
End Dispatcher.

(** The run of two requests that are both rate-limited: when the second
    comes back, it is put in front of the first, and its retry is
    dispatched before the retry of the first. *)
Lemma queue_ordering_invariant_witness :
  let s := run (create string 1000)
             [Submit "a"; Submit "b"; Tick 0; Respond 0 10 403 [] rate_limited_body] in
  exists new,
    dispatched (run (step s (Respond 0 20 403 [] rate_limited_body))
                  [Wake 1000; Wake 1990])
    = dispatched s ++ new
    /\ Precedes (mkWorkItem 1 "b" 2 1) (mkWorkItem 0 "a" 1 1) new.
Proof.
  pose proof (queue_ordering_invariant string 1000
                [Submit "a"; Submit "b"; Tick 0; Respond 0 10 403 [] rate_limited_body])
    as (_ & _ & _ & _ & _ & _ & _ & _ & H).
  exact (H 0 20%Z [] rate_limited_body (mkWorkItem 1 "b" 2 0) []
           (mkWorkItem 0 "a" 1 1) [Wake 1000; Wake 1990]
           eq_refl eq_refl eq_refl (or_introl eq_refl)).
Defined.

(** The same run, computed: what is dispatched after the first answer is
    the retry of the second request and then the retry of the first. *)
Example most_recently_requeued_first :
  let s := run (create string 1000)
             [Submit "a"; Submit "b"; Tick 0; Respond 0 10 403 [] rate_limited_body] in
  _pendingWorkItems s = [mkWorkItem 0 "a" 1 1]
  /\ dispatched (run (step s (Respond 0 20 403 [] rate_limited_body))
                   [Wake 1000; Wake 1990])
     = dispatched s ++ [mkWorkItem 1 "b" 2 1; mkWorkItem 0 "a" 1 1].
Proof. split; reflexivity. Qed.
End QueueOrderFacts.
